(** * docker-pty-proxy: the /attach session bridge and the /resize endpoint

    A shallow embedding of [internal/handler] (package [handler]): the two
    copy loops of [attachHandler], its set-up and tear-down, and
    [resizeHandler].  The Go libraries the handlers call ([strconv],
    [encoding/json], [gorilla/websocket], the Docker client) are not part
    of the repository; the pure ones are modelled below from their
    documented behaviour, the effectful ones are an environment [Env]
    whose answers the theorems quantify over. *)

From Stdlib Require Import ZArith List String Ascii Bool Lia.
From Stdlib.Strings Require Import Byte.
From stdpp Require Import gmap strings.
Import ListNotations.

Set Warnings "-register-all".

Local Open Scope string_scope.
Local Open Scope list_scope.
Local Open Scope Z_scope.

(** ** Byte slices and Go strings *)

(** A Go [[]byte]. *)
Abbreviation bytes := (list byte).

(** [[]byte(s)] for a Go string [s]. *)
Definition bytes_of_string (s : string) : bytes := list_byte_of_string s.

(** [string(b)] for a byte slice [b]. *)
Definition string_of_bytes (b : bytes) : string := string_of_list_byte b.

Definition byte_val (b : byte) : Z := Z.of_N (Byte.to_N b).

Definition ascii_val (c : ascii) : Z := Z.of_N (N_of_ascii c).

(** Go's [len] as an [int]. *)
Definition len {A} (l : list A) : Z := Z.of_nat (List.length l).

(** ** Go error values

    The handlers look at an error in three ways: they compare it with the
    sentinel [io.EOF], they ask gorilla whether it is a [*CloseError] with
    an unexpected code, and they print it. *)
Inductive error : Type :=
| io_EOF
| CloseError (Code : Z) (msg : string)
| errorString (msg : string).

Definition Error (e : error) : string :=
  match e with
  | io_EOF => "EOF"
  | CloseError _ m => m
  | errorString m => m
  end.

(** ** strconv.ParseUint *)
Module strconv.

Inductive NumError : Type := ErrSyntax | ErrRange | ErrBase | ErrBitSize.

Definition maxUint64 : Z := 2 ^ 64 - 1.

(** [lower(c)]: [c | ('x' - 'X')]. *)
Definition lower (c : Z) : Z := Z.lor c 32.

(** The digit loop of [ParseUint], on 64-bit unsigned arithmetic with its
    wrap-around.  The result is the pair Go returns: the value and the
    error, if any. *)
Fixpoint digits (s : string) (base cutoff maxVal n : Z) : Z * option NumError :=
  match s with
  | EmptyString => (n, None)
  | String ch s' =>
      let c := ascii_val ch in
      let d :=
        if (48 <=? c) && (c <=? 57) then Some (c - 48)
        else if (97 <=? lower c) && (lower c <=? 122) then Some (lower c - 97 + 10)
        else None in
      match d with
      | None => (0, Some ErrSyntax)
      | Some d =>
          if base <=? d then (0, Some ErrSyntax)
          else if cutoff <=? n then (maxVal, Some ErrRange)
          else
            let n' := (n * base) mod 2 ^ 64 in
            let n1 := (n' + d) mod 2 ^ 64 in
            if (n1 <? n') || (maxVal <? n1) then (maxVal, Some ErrRange)
            else digits s' base cutoff maxVal n1
      end
  end.

(** [ParseUint(s, base, bitSize)] for an explicit base between 2 and 36,
    which is how the repository calls it (base 10).  Base 0, where Go
    reads the base from a prefix, is not used and is answered like an
    invalid base. *)
Definition ParseUint (s : string) (base bitSize : Z) : Z * option NumError :=
  match s with
  | EmptyString => (0, Some ErrSyntax)
  | _ =>
      if negb ((2 <=? base) && (base <=? 36)) then (0, Some ErrBase)
      else
        let bitSize := if bitSize =? 0 then 64 else bitSize in
        if (bitSize <? 0) || (64 <? bitSize) then (0, Some ErrBitSize)
        else
          let cutoff := maxUint64 / base + 1 in
          let maxVal := 2 ^ bitSize - 1 in
          digits s base cutoff maxVal 0
  end.

End strconv.


(** ** The control message of the inline resize channel *)

(** [type resizeMsg struct { Type string; Cols uint; Rows uint }], a [uint]
    being 64 bits wide on the platforms the image is built for. *)
Record resizeMsg : Type := mkResizeMsg {
  Type_ : string;
  Cols : Z;
  Rows : Z
}.

(** ** encoding/json: [json.Unmarshal(data, &msg)] for [msg : resizeMsg]

    Go first checks that the whole input is one well-formed JSON value and
    then stores the members of the object into the struct.  The model has
    the same two stages: a lexer and a stack automaton that accept exactly
    the JSON grammar of Go's scanner (its nesting limit included), then the
    decoding of the top-level members. *)
Module json.

Inductive token : Type :=
| TLBrace | TRBrace | TLBrack | TRBrack | TColon | TComma
| TString (raw : bytes)
| TNumber (lit : bytes)
| TTrue | TFalse | TNull.

Definition isSpace (c : Z) : bool :=
  (c =? 32) || (c =? 9) || (c =? 13) || (c =? 10).

Definition isDigit (c : Z) : bool := (48 <=? c) && (c <=? 57).

Definition isHex (c : Z) : bool :=
  isDigit c || ((97 <=? c) && (c <=? 102)) || ((65 <=? c) && (c <=? 70)).

(** The bytes a number literal is made of. *)
Definition isNumChar (c : Z) : bool :=
  isDigit c || (c =? 45) || (c =? 43) || (c =? 46) || (c =? 101) || (c =? 69).

(** The byte after a backslash in a one-byte escape: quote, backslash,
    slash, b, f, n, r or t. *)
Definition isSimpleEscape (c : Z) : bool :=
  (c =? 34) || (c =? 92) || (c =? 47) || (c =? 98) || (c =? 102)
  || (c =? 110) || (c =? 114) || (c =? 116).

(** The number grammar of the scanner, as the states it goes through. *)
Inductive numState : Type :=
| NStart | NNeg | NZero | NInt | NDot | NFrac | NE | NESign | NExp | NBad.

Definition numStep (st : numState) (c : Z) : numState :=
  match st with
  | NStart => if c =? 45 then NNeg else if c =? 48 then NZero
              else if isDigit c then NInt else NBad
  | NNeg => if c =? 48 then NZero else if isDigit c then NInt else NBad
  | NZero => if c =? 46 then NDot else if (c =? 101) || (c =? 69) then NE else NBad
  | NInt => if isDigit c then NInt else if c =? 46 then NDot
            else if (c =? 101) || (c =? 69) then NE else NBad
  | NDot => if isDigit c then NFrac else NBad
  | NFrac => if isDigit c then NFrac
             else if (c =? 101) || (c =? 69) then NE else NBad
  | NE => if (c =? 43) || (c =? 45) then NESign
          else if isDigit c then NExp else NBad
  | NESign => if isDigit c then NExp else NBad
  | NExp => if isDigit c then NExp else NBad
  | NBad => NBad
  end.

Definition validNumber (lit : bytes) : bool :=
  match fold_left numStep (map byte_val lit) NStart with
  | NZero | NInt | NFrac | NExp => true
  | _ => false
  end.

Inductive mode : Type :=
| Top
| InString (rev_raw : bytes)
| InNumber (rev_lit : bytes)
| Skip (k : nat).

Definition emit (t : token) (r : option (list token)) : option (list token) :=
  match r with Some ts => Some (t :: ts) | None => None end.

(** What the scanner does with byte [b] where a token may start; [s'] is
    the input after [b] and [k] continues the scan of [s'] in a mode. *)
Definition lexTop (k : mode -> option (list token)) (b : byte) (s' : bytes)
  : option (list token) :=
  let c := byte_val b in
  if isSpace c then k Top
  else if c =? 123 then emit TLBrace (k Top)
  else if c =? 125 then emit TRBrace (k Top)
  else if c =? 91 then emit TLBrack (k Top)
  else if c =? 93 then emit TRBrack (k Top)
  else if c =? 58 then emit TColon (k Top)
  else if c =? 44 then emit TComma (k Top)
  else if c =? 34 then k (InString [])
  else if (c =? 45) || isDigit c then k (InNumber [b])
  else
    match map byte_val s' with
    | 114 :: 117 :: 101 :: _ => if c =? 116 then emit TTrue (k (Skip 3)) else None
    | 97 :: 108 :: 115 :: 101 :: _ => if c =? 102 then emit TFalse (k (Skip 4)) else None
    | 117 :: 108 :: 108 :: _ => if c =? 110 then emit TNull (k (Skip 3)) else None
    | _ => None
    end.

Fixpoint lex (m : mode) (s : bytes) : option (list token) :=
  match m, s with
  | Top, [] => Some []
  | Top, b :: s' => lexTop (fun m' => lex m' s') b s'
  | Skip O, [] => Some []
  | Skip O, b :: s' => lexTop (fun m' => lex m' s') b s'
  | Skip (S k), [] => None
  | Skip (S k), _ :: s' => lex (Skip k) s'
  | InString r, [] => None
  | InString r, b :: s' =>
      let c := byte_val b in
      if c =? 34 then emit (TString (rev r)) (lex Top s')
      else if c =? 92 then
        match s' with
        | e :: s2 =>
            let ce := byte_val e in
            if isSimpleEscape ce then lex (InString (e :: b :: r)) s2
            else if ce =? 117 then
              match s2 with
              | h1 :: h2 :: h3 :: h4 :: s6 =>
                  if forallb (fun h => isHex (byte_val h)) [h1; h2; h3; h4]
                  then lex (InString (h4 :: h3 :: h2 :: h1 :: e :: b :: r)) s6
                  else None
              | _ => None
              end
            else None
        | [] => None
        end
      else if c <? 32 then None
      else lex (InString (b :: r)) s'
  | InNumber r, [] =>
      if validNumber (rev r) then Some [TNumber (rev r)] else None
  | InNumber r, b :: s' =>
      if isNumChar (byte_val b) then lex (InNumber (b :: r)) s'
      else if validNumber (rev r)
           then emit (TNumber (rev r)) (lexTop (fun m' => lex m' s') b s')
           else None
  end.

(** A parsed JSON value; strings keep their raw text (escapes not yet
    replaced), numbers their literal. *)
Inductive value : Type :=
| Null
| Bool (b : bool)
| Number (lit : bytes)
| Str (raw : bytes)
| Array (items : list value)
| Object (members : list (bytes * value)).

(** An open container on the parse stack, its contents in reverse. *)
Inductive frame : Type :=
| FArray (rev_items : list value)
| FObject (rev_members : list (bytes * value)) (key : bytes).

Inductive expect : Type :=
| ExpValue             (* a value must start *)
| ExpValueOrEnd        (* just after '[' *)
| ExpKeyOrEnd (rev_members : list (bytes * value))   (* just after '{' *)
| ExpKey (rev_members : list (bytes * value))        (* after ',' in an object *)
| ExpColon (rev_members : list (bytes * value)) (key : bytes)
| ExpCommaOrEnd        (* after a value inside a container *)
| Finished (v : value).

Definition maxNestingDepth : Z := 10000.

(** A value [v] is complete: it goes into the innermost open container. *)
Definition close (v : value) (stack : list frame) : expect * list frame :=
  match stack with
  | [] => (Finished v, [])
  | FArray items :: st => (ExpCommaOrEnd, FArray (v :: items) :: st)
  | FObject ms k :: st => (ExpCommaOrEnd, FObject ((k, v) :: ms) k :: st)
  end.

(** A value starts with token [t]; [depth] counts the open containers,
    those waiting for their key or colon included. *)
Definition startValue (t : token) (depth : Z) (stack : list frame)
  : option (expect * list frame) :=
  match t with
  | TNull => Some (close Null stack)
  | TTrue => Some (close (Bool true) stack)
  | TFalse => Some (close (Bool false) stack)
  | TNumber lit => Some (close (Number lit) stack)
  | TString raw => Some (close (Str raw) stack)
  | TLBrack =>
      if depth + 1 <=? maxNestingDepth
      then Some (ExpValueOrEnd, FArray [] :: stack) else None
  | TLBrace =>
      if depth + 1 <=? maxNestingDepth
      then Some (ExpKeyOrEnd [], stack) else None
  | _ => None
  end.

Definition depthOf (e : expect) (stack : list frame) : Z :=
  match e with
  | ExpKeyOrEnd _ | ExpKey _ | ExpColon _ _ => len stack + 1
  | _ => len stack
  end.

Definition parseStep (e : expect) (stack : list frame) (t : token)
  : option (expect * list frame) :=
  match e with
  | ExpValue => startValue t (depthOf e stack) stack
  | ExpValueOrEnd =>
      match t, stack with
      | TRBrack, FArray items :: st => Some (close (Array (rev items)) st)
      | _, _ => startValue t (depthOf e stack) stack
      end
  | ExpKeyOrEnd ms =>
      match t with
      | TRBrace => Some (close (Object (rev ms)) stack)
      | TString raw => Some (ExpColon ms raw, stack)
      | _ => None
      end
  | ExpKey ms =>
      match t with
      | TString raw => Some (ExpColon ms raw, stack)
      | _ => None
      end
  | ExpColon ms k =>
      match t with
      | TColon => Some (ExpValue, FObject ms k :: stack)
      | _ => None
      end
  | ExpCommaOrEnd =>
      match t, stack with
      | TComma, FArray _ :: _ => Some (ExpValue, stack)
      | TRBrack, FArray items :: st => Some (close (Array (rev items)) st)
      | TComma, FObject ms _ :: st => Some (ExpKey ms, st)
      | TRBrace, FObject ms _ :: st => Some (close (Object (rev ms)) st)
      | _, _ => None
      end
  | Finished _ => None
  end.

Fixpoint parseTokens (e : expect) (stack : list frame) (ts : list token)
  : option value :=
  match ts with
  | [] => match e with Finished v => Some v | _ => None end
  | t :: ts' =>
      match parseStep e stack t with
      | Some (e', stack') => parseTokens e' stack' ts'
      | None => None
      end
  end.

(** The whole input is one JSON value, with white space around it. *)
Definition parse (data : bytes) : option value :=
  match lex Top data with
  | Some ts => parseTokens ExpValue [] ts
  | None => None
  end.

(** *** Strings: escapes and UTF-8 *)

Definition byte_of_Z (z : Z) : byte :=
  match Byte.of_N (Z.to_N z) with Some b => b | None => x00 end.

Definition hexVal (c : Z) : Z :=
  if isDigit c then c - 48
  else if (97 <=? c) && (c <=? 102) then c - 97 + 10
  else c - 65 + 10.

(** [getu4] once the four bytes are known to be hexadecimal digits. *)
Definition hex4 (h1 h2 h3 h4 : byte) : Z :=
  ((hexVal (byte_val h1) * 16 + hexVal (byte_val h2)) * 16
   + hexVal (byte_val h3)) * 16 + hexVal (byte_val h4).

Definition RuneError : Z := 65533.

Definition isSurrogate (r : Z) : bool := (55296 <=? r) && (r <? 57344).

(** [utf16.DecodeRune]. *)
Definition utf16_DecodeRune (r1 r2 : Z) : Z :=
  if (55296 <=? r1) && (r1 <? 56320) && (56320 <=? r2) && (r2 <? 57344)
  then Z.lor (Z.shiftl (r1 - 55296) 10) (r2 - 56320) + 65536
  else RuneError.

(** [utf8.EncodeRune]. *)
Definition utf8_EncodeRune (r : Z) : bytes :=
  if (0 <=? r) && (r <? 128) then [byte_of_Z r]
  else if (0 <=? r) && (r <? 2048) then
    [byte_of_Z (Z.lor 192 (Z.shiftr r 6));
     byte_of_Z (Z.lor 128 (Z.land r 63))]
  else if (r <? 0) || (1114111 <? r) || isSurrogate r then
    [xef; xbf; xbd]
  else if r <? 65536 then
    [byte_of_Z (Z.lor 224 (Z.shiftr r 12));
     byte_of_Z (Z.lor 128 (Z.land (Z.shiftr r 6) 63));
     byte_of_Z (Z.lor 128 (Z.land r 63))]
  else
    [byte_of_Z (Z.lor 240 (Z.shiftr r 18));
     byte_of_Z (Z.lor 128 (Z.land (Z.shiftr r 12) 63));
     byte_of_Z (Z.lor 128 (Z.land (Z.shiftr r 6) 63));
     byte_of_Z (Z.lor 128 (Z.land r 63))].

Definition isCont (c : Z) : bool := (128 <=? c) && (c <=? 191).

(** The width of the well-formed UTF-8 sequence that starts with the lead
    byte [c0] followed by [c1 c2 c3] ([-1] where the input ends), or [0]
    when there is none: the tables [first] and [acceptRanges] of
    [unicode/utf8]. *)
Definition utf8_width (c0 c1 c2 c3 : Z) : Z :=
  if (194 <=? c0) && (c0 <=? 223) then
    if isCont c1 then 2 else 0
  else if (224 <=? c0) && (c0 <=? 239) then
    let lo := if c0 =? 224 then 160 else 128 in
    let hi := if c0 =? 237 then 159 else 191 in
    if (lo <=? c1) && (c1 <=? hi) && isCont c2 then 3 else 0
  else if (240 <=? c0) && (c0 <=? 244) then
    let lo := if c0 =? 240 then 144 else 128 in
    let hi := if c0 =? 244 then 143 else 191 in
    if (lo <=? c1) && (c1 <=? hi) && isCont c2 && isCont c3 then 4 else 0
  else 0.

Definition escapeByte (c : Z) : byte :=
  if c =? 98 then x08 else if c =? 102 then x0c else if c =? 110 then x0a
  else if c =? 114 then x0d else if c =? 116 then x09 else byte_of_Z c.

(** [unquoteBytes] on the text between the quotes of a string the scanner
    has accepted: escapes are replaced, a lone surrogate escape and every
    byte that is not part of well-formed UTF-8 become U+FFFD. *)
Fixpoint unquote (s : bytes) : bytes :=
  match s with
  | [] => []
  | b :: s1 =>
      let c := byte_val b in
      if c =? 92 then
        match s1 with
        | e :: s2 =>
            if byte_val e =? 117 then
              match s2 with
              | h1 :: h2 :: h3 :: h4 :: s6 =>
                  let rr := hex4 h1 h2 h3 h4 in
                  if isSurrogate rr then
                    match s6 with
                    | b' :: e' :: g1 :: g2 :: g3 :: g4 :: s12 =>
                        let dec := utf16_DecodeRune rr (hex4 g1 g2 g3 g4) in
                        if (byte_val b' =? 92) && (byte_val e' =? 117)
                           && forallb (fun h => isHex (byte_val h)) [g1; g2; g3; g4]
                           && negb (dec =? RuneError)
                        then utf8_EncodeRune dec ++ unquote s12
                        else utf8_EncodeRune RuneError ++ unquote s6
                    | _ => utf8_EncodeRune RuneError ++ unquote s6
                    end
                  else utf8_EncodeRune rr ++ unquote s6
              | _ => []
              end
            else escapeByte (byte_val e) :: unquote s2
        | [] => []
        end
      else if c <? 128 then b :: unquote s1
      else
        match s1 with
        | b1 :: s2 =>
            match s2 with
            | b2 :: s3 =>
                match s3 with
                | b3 :: s4 =>
                    let w := utf8_width c (byte_val b1) (byte_val b2) (byte_val b3) in
                    if w =? 2 then b :: b1 :: unquote s2
                    else if w =? 3 then b :: b1 :: b2 :: unquote s3
                    else if w =? 4 then b :: b1 :: b2 :: b3 :: unquote s4
                    else utf8_EncodeRune RuneError ++ unquote s1
                | [] =>
                    let w := utf8_width c (byte_val b1) (byte_val b2) (-1) in
                    if w =? 2 then b :: b1 :: unquote s2
                    else if w =? 3 then b :: b1 :: b2 :: unquote s3
                    else utf8_EncodeRune RuneError ++ unquote s1
                end
            | [] =>
                if utf8_width c (byte_val b1) (-1) (-1) =? 2
                then b :: b1 :: unquote s2
                else utf8_EncodeRune RuneError ++ unquote s1
            end
        | [] => utf8_EncodeRune RuneError
        end
  end.

(** *** Field names *)

(** [foldName] as far as it can matter for a struct whose field names are
    ASCII: ASCII letters go to upper case, and the two letters outside
    ASCII whose case-folding class has an ASCII member go to it, the long
    s U+017F (bytes C5 BF) to S and the Kelvin sign U+212A (bytes E2 84
    AA) to K.  Every other byte of a name is kept: Go replaces it by
    its folded rune, which is again outside ASCII. *)
Fixpoint foldName (s : bytes) : bytes :=
  match s with
  | [] => []
  | b :: s1 =>
      let c := byte_val b in
      if (97 <=? c) && (c <=? 122) then byte_of_Z (c - 32) :: foldName s1
      else
        match s1 with
        | b1 :: s2 =>
            if (c =? 197) && (byte_val b1 =? 191) then x53 :: foldName s2
            else
              match s2 with
              | b2 :: s3 =>
                  if (c =? 226) && (byte_val b1 =? 132) && (byte_val b2 =? 170)
                  then x4b :: foldName s3
                  else b :: foldName s1
              | [] => b :: foldName s1
              end
        | [] => [b]
        end
  end.

Definition bytes_eqb (a b : bytes) : bool :=
  String.eqb (string_of_bytes a) (string_of_bytes b).

Inductive field : Type := FType | FCols | FRows.

Definition fieldName (f : field) : bytes :=
  bytes_of_string
    match f with FType => "type" | FCols => "cols" | FRows => "rows" end.

(** The field a member name selects: the one with exactly that name,
    else the one with the same folded name, else none. *)
Definition findField (key : bytes) : option field :=
  match find (fun f => bytes_eqb (fieldName f) key) [FType; FCols; FRows] with
  | Some f => Some f
  | None =>
      find (fun f => bytes_eqb (foldName (fieldName f)) (foldName key))
           [FType; FCols; FRows]
  end.

(** *** Storing the members *)

(** A value stored into the [string] field: a JSON string is stored,
    [null] leaves the field as it is, anything else is an
    [UnmarshalTypeError]. *)
Definition storeString (v : value) (old : string) : option string :=
  match v with
  | Str raw => Some (string_of_bytes (unquote raw))
  | Null => Some old
  | _ => None
  end.

(** A value stored into a [uint] field: a number literal that
    [strconv.ParseUint(lit, 10, 64)] accepts is stored, [null] leaves the
    field as it is, anything else is an [UnmarshalTypeError]. *)
Definition storeUint (v : value) (old : Z) : option Z :=
  match v with
  | Number lit =>
      match strconv.ParseUint (string_of_bytes lit) 10 64 with
      | (n, None) => Some n
      | (_, Some _) => None
      end
  | Null => Some old
  | _ => None
  end.

(** The members are stored in the order they are written, so the last
    of several members for one field wins; a member for no field is
    skipped.  Go goes on after an [UnmarshalTypeError] and returns the
    first one at the end: the result is an error as soon as one member
    cannot be stored. *)
Fixpoint storeMembers (ms : list (bytes * value)) (msg : resizeMsg)
  : option resizeMsg :=
  match ms with
  | [] => Some msg
  | (rawKey, v) :: ms' =>
      let rest := storeMembers ms' in
      match findField (unquote rawKey) with
      | None => rest msg
      | Some FType =>
          match storeString v (Type_ msg) with
          | Some s => rest (mkResizeMsg s (Cols msg) (Rows msg))
          | None => None
          end
      | Some FCols =>
          match storeUint v (Cols msg) with
          | Some n => rest (mkResizeMsg (Type_ msg) n (Rows msg))
          | None => None
          end
      | Some FRows =>
          match storeUint v (Rows msg) with
          | Some n => rest (mkResizeMsg (Type_ msg) (Cols msg) n)
          | None => None
          end
      end
  end.

(** [json.Unmarshal(data, &msg)] for a [msg] holding [msg0]: [Some] of
    the struct after a call that returns [nil], [None] when the call
    returns an error. *)
Definition Unmarshal (data : bytes) (msg0 : resizeMsg) : option resizeMsg :=
  match parse data with
  | Some (Object ms) => storeMembers ms msg0
  | Some Null => Some msg0
  | Some _ => None
  | None => None
  end.

End json.

(** Go string literals that hold double quotes are written here with
    apostrophes in their place: [dq] puts the double quotes back. *)
Definition dq (s : string) : string :=
  string_of_bytes
    (map (fun b => if byte_val b =? 39 then x22 else b) (bytes_of_string s)).

(** A payload given by its text, apostrophes for double quotes. *)
Definition frame (s : string) : bytes := bytes_of_string (dq s).

(** ** gorilla/websocket: the constants and the one predicate the handler uses *)
Module websocket.

Definition TextMessage : Z := 1.
Definition BinaryMessage : Z := 2.
Definition CloseMessage : Z := 8.

Definition CloseNormalClosure : Z := 1000.
Definition CloseGoingAway : Z := 1001.

(** True for a [*CloseError] whose code is none of the expected ones,
    false for every other error. *)
Definition IsUnexpectedCloseError (err : error) (expectedCodes : list Z) : bool :=
  match err with
  | CloseError code _ => negb (existsb (Z.eqb code) expectedCodes)
  | _ => false
  end.

End websocket.

(** ** net/http: what the handlers read from a request *)

(** [r.Method] and [r.URL.Query()], a [url.Values], that is a
    [map[string][]string]. *)
Record Request : Type := mkRequest {
  Method : string;
  Query : gmap string (list string)
}.

(** [url.Values.Get]: the first value of the key, the empty string when
    there is none. *)
Definition Get (v : gmap string (list string)) (key : string) : string :=
  match v !! key with
  | Some (x :: _) => x
  | _ => ""
  end.

Definition StatusOK : Z := 200.
Definition StatusBadRequest : Z := 400.
Definition StatusMethodNotAllowed : Z := 405.
Definition StatusInternalServerError : Z := 500.

(** ** The calls a handler makes, in the order it makes them *)

(** [container.ExecOptions], the fields [attachHandler] sets. *)
Record ExecOptions : Type := mkExecOptions {
  Cmd : list string;
  AttachStdin : bool;
  AttachStdout : bool;
  AttachStderr : bool;
  Tty : bool;
  Env_ : list string;
  WorkingDir : string
}.

Inductive event : Type :=
| Log (format : string) (args : list string)        (* log.Printf *)
| HttpError (msg : string) (code : Z)               (* http.Error(w, msg, code) *)
| RespWriteHeader (code : Z)                            (* w.WriteHeader *)  
| RespWrite (data : bytes)                              (* w.Write *)
| Upgrade                                           (* upgrader.Upgrade *)
| WsReadMessage (mt : Z) (payload : bytes) (err : option error)
| WsSetWriteDeadline (t : Z)
| WsWriteMessage (messageType : Z) (data : bytes)
| WsClose
| ContainerExecCreate (containerID : string) (options : ExecOptions)
| ContainerExecAttach (execID : string)
| ContainerExecResize (execID : string) (Height Width : Z)
| ContainerResize (containerID : string) (Height Width : Z)
| ReaderRead (data : bytes) (err : option error)    (* hijack.Reader.Read *)
| ConnWrite (payload : bytes)                       (* hijack.Conn.Write *)
| HijackClose
| Cancel                                            (* cancel() of the context *)
| WgDone
| WgWait.                                           (* wg.Wait() has returned *)

Abbreviation trace := (list event).

(** What has been passed to one collaborator so far. *)
Definition ws_frames (tr : trace) : list (Z * bytes) :=
  flat_map (fun e => match e with WsWriteMessage mt d => [(mt, d)] | _ => [] end) tr.

Definition conn_writes (tr : trace) : list bytes :=
  flat_map (fun e => match e with ConnWrite p => [p] | _ => [] end) tr.

Definition exec_resizes (tr : trace) : list (string * Z * Z) :=
  flat_map (fun e => match e with
                     | ContainerExecResize id h w => [(id, h, w)]
                     | _ => []
                     end) tr.

Definition exec_reads (tr : trace) : list (bytes * option error) :=
  flat_map (fun e => match e with ReaderRead d err => [(d, err)] | _ => [] end) tr.

Definition logs (tr : trace) : list (string * list string) :=
  flat_map (fun e => match e with Log f a => [(f, a)] | _ => [] end) tr.

(** Which of the two goroutines of a session runs next. *)
Inductive goroutine : Type := Outbound | Inbound.

(** The world around a handler.  What a read returns is scripted: the
    list holds the results of the successive calls, and a script that has
    run out stands for a call that has not returned.  What a write or a
    Docker call returns is a function of everything that has been passed
    to that collaborator so far, the present call last. *)
Record Env : Type := mkEnv {
  time_Now : trace -> Z;                                   (* nanoseconds *)
  UpgradeErr : option error;
  ExecCreateRes : string -> string * option error;         (* execResp.ID, err *)
  ExecAttachErr : string -> option error;
  ExecResizeErr : list (string * Z * Z) -> option error;
  ContainerResizeErr : string -> Z -> Z -> option error;
  WriteMessageErr : list (Z * bytes) -> option error;
  ConnWriteErr : list bytes -> option error;
  ReadResults : list (bytes * option error);               (* hijack.Reader.Read *)
  ReadMessageResults : list (Z * bytes * option error);    (* ws.ReadMessage *)
  schedule : list goroutine
}.

(** ** A state monad over the trace *)

Definition M (A : Type) : Type := trace -> A * trace.

Definition ret {A} (a : A) : M A := fun tr => (a, tr).

Definition bind {A B} (m : M A) (k : A -> M B) : M B :=
  fun tr => let (a, tr') := m tr in k a tr'.

Notation "x <- m ;; k" := (bind m (fun x => k))
  (at level 100, m at next level, right associativity).
Notation "m ;;; k" := (bind m (fun _ => k))
  (at level 100, right associativity).

(** A call whose result the handler does not use. *)
Definition call (e : event) : M unit := fun tr => (tt, tr ++ [e]).

(** A call answered by the environment from the trace that includes it. *)
Definition ask {A} (e : event) (answer : trace -> A) : M A :=
  fun tr => (answer (tr ++ [e]), tr ++ [e]).

(** How far a piece of code got: it returned, or it waits in a call that
    has not returned. *)
Inductive status : Type := Returned | Waiting.

(** [defer cleanup] before [body]: the clean-up runs when the body
    returns. *)
Definition defer (cleanup : M unit) (body : M status) : M status :=
  st <- body ;;
  match st with
  | Returned => cleanup ;;; ret Returned
  | Waiting => ret Waiting
  end.

(** One turn of a [for] loop either goes round again or leaves the
    function. *)
Inductive flow : Type := Continue | Return.

(** ** package handler *)

Definition readBufSize : Z := 4096.

Definition time_Second : Z := 1000000000.

Definition writeDeadline : Z := 10 * time_Second.

(** The options [attachHandler] creates its exec with: an interactive
    [/bin/sh] on a TTY in [/workspace]. *)
Definition shellExec : ExecOptions :=
  {| Cmd := ["/bin/sh"];
     AttachStdin := true;
     AttachStdout := true;
     AttachStderr := true;
     Tty := true;
     Env_ := ["TERM=xterm"];
     WorkingDir := "/workspace" |}.

Section Handler.

(** [json.Unmarshal(payload, &msg)]: [Some] of the filled struct when it
    returns [nil]. *)
Variable json_Unmarshal : bytes -> resizeMsg -> option resizeMsg.

Variable env : Env.

(** *** The calls *)

Definition log_Printf (format : string) (args : list string) : M unit :=
  call (Log format args).

Definition http_Error (msg : string) (code : Z) : M unit :=
  call (HttpError msg code).

Definition upgrader_Upgrade : M (option error) :=
  ask Upgrade (fun _ => UpgradeErr env).

Definition ws_Close : M unit := call WsClose.

Definition ws_SetWriteDeadline (t : Z) : M unit := call (WsSetWriteDeadline t).

Definition ws_WriteMessage (messageType : Z) (data : bytes) : M (option error) :=
  ask (WsWriteMessage messageType data) (fun tr => WriteMessageErr env (ws_frames tr)).

Definition time_Now_ : M Z := fun tr => (time_Now env tr, tr).

Definition cli_ContainerExecCreate (containerID : string) (o : ExecOptions)
  : M (string * option error) :=
  ask (ContainerExecCreate containerID o) (fun _ => ExecCreateRes env containerID).

Definition cli_ContainerExecAttach (execID : string) : M (option error) :=
  ask (ContainerExecAttach execID) (fun _ => ExecAttachErr env execID).

Definition cli_ContainerExecResize (execID : string) (Height Width : Z)
  : M (option error) :=
  ask (ContainerExecResize execID Height Width)
      (fun tr => ExecResizeErr env (exec_resizes tr)).

Definition cli_ContainerResize (containerID : string) (Height Width : Z)
  : M (option error) :=
  ask (ContainerResize containerID Height Width)
      (fun _ => ContainerResizeErr env containerID Height Width).

Definition hijack_Close : M unit := call HijackClose.

Definition hijack_Conn_Write (payload : bytes) : M (option error) :=
  ask (ConnWrite payload) (fun tr => ConnWriteErr env (conn_writes tr)).

(** [n, readErr := hijack.Reader.Read(buf)] when the call returns
    [result]: the bytes read are the first [n] bytes of [buf] afterwards,
    the rest of [buf] is as it was. *)
Definition hijack_Reader_Read (result : bytes * option error) (buf : bytes)
  : M (Z * option error * bytes) :=
  let (data, readErr) := result in
  call (ReaderRead data readErr) ;;;
  ret (len data, readErr, data ++ skipn (List.length data) buf).

(** [mt, payload, readErr := ws.ReadMessage()] when the call returns
    [result]. *)
Definition ws_ReadMessage (result : Z * bytes * option error)
  : M (Z * bytes * option error) :=
  let '(mt, payload, readErr) := result in
  call (WsReadMessage mt payload readErr) ;;;
  ret result.

Definition cancel : M unit := call Cancel.

Definition wg_Done : M unit := call WgDone.

(** *** attachHandler: Docker to WebSocket *)

(** The body of the [for] loop of the first goroutine, for one result of
    [Read]. *)
Definition outboundBody (result : bytes * option error) (buf : bytes)
  : M (flow * bytes) :=
  r <- hijack_Reader_Read result buf ;;
  let '(n, readErr, buf) := r in
  wrote <-
    (if 0 <? n then
       now <- time_Now_ ;;
       ws_SetWriteDeadline (now + writeDeadline) ;;;
       writeErr <- ws_WriteMessage websocket.BinaryMessage (firstn (Z.to_nat n) buf) ;;
       match writeErr with
       | Some e =>
           log_Printf "[attach] write to websocket failed: %v" [Error e] ;;;
           ret Return
       | None => ret Continue
       end
     else ret Continue) ;;
  match wrote with
  | Return => ret (Return, buf)
  | Continue =>
      match readErr with
      | Some e =>
          (match e with
           | io_EOF => ret tt
           | _ => log_Printf "[attach] read from docker failed: %v" [Error e]
           end) ;;;
          ret (Return, buf)
      | None => ret (Continue, buf)
      end
  end.

(** The loop, over the results of the successive reads. *)
Fixpoint outboundLoop (results : list (bytes * option error)) (buf : bytes)
  : M status :=
  match results with
  | [] => ret Waiting
  | result :: results' =>
      r <- outboundBody result buf ;;
      match r with
      | (Continue, buf') => outboundLoop results' buf'
      | (Return, _) => ret Returned
      end
  end.

(** *** attachHandler: WebSocket to Docker *)

Definition zeroMsg : resizeMsg := mkResizeMsg "" 0 0.

(** [payload[0] == '{'] for a payload that is not empty. *)
Definition startsWithBrace (payload : bytes) : bool :=
  match payload with
  | b :: _ => byte_val b =? 123
  | [] => false
  end.

(** The body of the [for] loop of the second goroutine, for one result
    of [ReadMessage]. *)
Definition inboundBody (execID : string) (result : Z * bytes * option error)
  : M flow :=
  r <- ws_ReadMessage result ;;
  let '(mt, payload, readErr) := r in
  match readErr with
  | Some e =>
      (if websocket.IsUnexpectedCloseError e
            [websocket.CloseGoingAway; websocket.CloseNormalClosure]
       then log_Printf "[attach] read from websocket failed: %v" [Error e]
       else ret tt) ;;;
      ret Return
  | None =>
      if mt =? websocket.CloseMessage then ret Return
      else if len payload =? 0 then ret Continue
      else
        resized <-
          (if startsWithBrace payload then
             match json_Unmarshal payload zeroMsg with
             | Some msg =>
                 if String.eqb (Type_ msg) "resize" then
                   err <- cli_ContainerExecResize execID (Rows msg) (Cols msg) ;;
                   (match err with
                    | Some e => log_Printf "[attach] resize failed: %v" [Error e]
                    | None => ret tt
                    end) ;;;
                   ret true
                 else ret false
             | None => ret false
             end
           else ret false) ;;
        if resized : bool then ret Continue
        else
          writeErr <- hijack_Conn_Write payload ;;
          match writeErr with
          | Some e =>
              log_Printf "[attach] write to docker failed: %v" [Error e] ;;;
              ret Return
          | None => ret Continue
          end
  end.

(** The loop, over the results of the successive reads. *)
Fixpoint inboundLoop (execID : string) (results : list (Z * bytes * option error))
  : M status :=
  match results with
  | [] => ret Waiting
  | result :: results' =>
      f <- inboundBody execID result ;;
      match f with
      | Continue => inboundLoop execID results'
      | Return => ret Returned
      end
  end.

(** *** attachHandler: the two goroutines side by side *)

(** A goroutine is in its loop, with the results its reads have still to
    return, or it has returned. *)
Inductive outboundState : Type :=
| OutRunning (results : list (bytes * option error)) (buf : bytes)
| OutDone.

Inductive inboundState : Type :=
| InRunning (results : list (Z * bytes * option error))
| InDone.

(** One turn of the first goroutine; on its way out it runs its deferred
    [cancel()] and [wg.Done()].  A goroutine whose read has not returned
    does nothing. *)
Definition outboundStep (g : outboundState) : M outboundState :=
  match g with
  | OutRunning (result :: results') buf =>
      r <- outboundBody result buf ;;
      match r with
      | (Continue, buf') => ret (OutRunning results' buf')
      | (Return, _) => cancel ;;; wg_Done ;;; ret OutDone
      end
  | _ => ret g
  end.

Definition inboundStep (execID : string) (g : inboundState) : M inboundState :=
  match g with
  | InRunning (result :: results') =>
      f <- inboundBody execID result ;;
      match f with
      | Continue => ret (InRunning results')
      | Return => cancel ;;; wg_Done ;;; ret InDone
      end
  | _ => ret g
  end.

(** The goroutines take their turns in the order of the schedule. *)
Fixpoint pipes (execID : string) (sched : list goroutine)
         (o : outboundState) (i : inboundState) : M (outboundState * inboundState) :=
  match sched with
  | [] => ret (o, i)
  | Outbound :: sched' => o' <- outboundStep o ;; pipes execID sched' o' i
  | Inbound :: sched' => i' <- inboundStep execID i ;; pipes execID sched' o i'
  end.

(** [wg.Wait()] returns once both goroutines have. *)
Definition wg_Wait (g : outboundState * inboundState) : M status :=
  match g with
  | (OutDone, InDone) => call WgWait ;;; ret Returned
  | _ => ret Waiting
  end.

Definition attachHandler (r : Request) : M status :=
  let containerID := Get (Query r) "id" in
  if String.eqb containerID "" then
    http_Error (dq "missing 'id' query parameter") StatusBadRequest ;;;
    ret Returned
  else
    err <- upgrader_Upgrade ;;
    match err with
    | Some e =>
        log_Printf "[attach] websocket upgrade failed: %v" [Error e] ;;;
        ret Returned
    | None =>
        defer ws_Close (
        defer cancel (
          log_Printf "[attach] creating exec in container %s" [containerID] ;;;
          execResp <- cli_ContainerExecCreate containerID shellExec ;;
          let (execID, err) := execResp : string * option error in
          match err with
          | Some e =>
              log_Printf "[attach] exec create error: %v" [Error e] ;;;
              _ <- ws_WriteMessage websocket.TextMessage
                     (bytes_of_string (String.append "exec create error: " (Error e))) ;;
              ret Returned
          | None =>
              err <- cli_ContainerExecAttach execID ;;
              match err with
              | Some e =>
                  log_Printf "[attach] exec attach error: %v" [Error e] ;;;
                  _ <- ws_WriteMessage websocket.TextMessage
                         (bytes_of_string (String.append "exec attach error: " (Error e))) ;;
                  ret Returned
              | None =>
                  defer hijack_Close (
                    log_Printf
                      "[attach] attached to exec %s in container %s, starting bidirectional pipe"
                      [execID; containerID] ;;;
                    g <- pipes execID (schedule env)
                           (OutRunning (ReadResults env)
                                       (repeat x00 (Z.to_nat readBufSize)))
                           (InRunning (ReadMessageResults env)) ;;
                    st <- wg_Wait g ;;
                    match st with
                    | Returned =>
                        log_Printf "[attach] session ended for container %s (exec %s)"
                                   [containerID; execID] ;;;
                        ret Returned
                    | Waiting => ret Waiting
                    end)
              end
          end))
    end.

(** *** resizeHandler *)

Definition resizeHandler (r : Request) : M unit :=
  if negb (String.eqb (Method r) "POST") then
    http_Error "method not allowed" StatusMethodNotAllowed
  else
    let containerID := Get (Query r) "id" in
    if String.eqb containerID "" then
      http_Error (dq "missing 'id' query parameter") StatusBadRequest
    else
      let (cols, err) := strconv.ParseUint (Get (Query r) "w") 10 32 in
      if (match err with Some _ => true | None => false end) || (cols =? 0) then
        http_Error (dq "invalid 'w' (cols) parameter") StatusBadRequest
      else
        let (rows, err) := strconv.ParseUint (Get (Query r) "h") 10 32 in
        if (match err with Some _ => true | None => false end) || (rows =? 0) then
          http_Error (dq "invalid 'h' (rows) parameter") StatusBadRequest
        else
          err <- cli_ContainerResize containerID rows cols ;;
          match err with
          | Some e =>
              http_Error (String.append "resize failed: " (Error e))
                         StatusInternalServerError
          | None =>
              call (RespWriteHeader StatusOK) ;;;
              call (RespWrite (bytes_of_string "ok"))
          end.

End Handler.

(** ** Descriptions used in the statements, and the worlds of the examples *)

(** Whether [resizeHandler] turns a dimension down: the text is not a
    base-10 unsigned integer of 32 bits, or it is zero. *)
Definition badDimension (s : string) : bool :=
  let (n, err) := strconv.ParseUint s 10 32 in
  (match err with Some _ => true | None => false end) || (n =? 0).

(** The value [strconv.ParseUint] returns for a dimension. *)
Definition dimension (s : string) : Z := fst (strconv.ParseUint s 10 32).

(** What a turn of the loop does after the bytes, if any, are written. *)
Definition afterWrite (readErr : option error) (buf : bytes) (tr : trace)
  : (flow * bytes) * trace :=
  match readErr with
  | Some io_EOF => ((Return, buf), tr)
  | Some e => ((Return, buf), tr ++ [Log "[attach] read from docker failed: %v" [Error e]])
  | None => ((Continue, buf), tr)
  end.

(** The events of the write of [data], after the read that returned it. *)
Definition writeEvents (env : Env) (tr1 : trace) (data : bytes) : trace :=
  [WsSetWriteDeadline (time_Now env tr1 + writeDeadline);
   WsWriteMessage websocket.BinaryMessage data].

(** The frames a sequence of reads is forwarded as: one binary frame for
    each read that returned bytes, holding those bytes. *)
Definition framesOf (reads : list (bytes * option error)) : list (Z * bytes) :=
  map (fun d => (websocket.BinaryMessage, d))
      (List.filter (fun d => 0 <? len d) (map fst reads)).

(** The test the loop makes on a payload that is not empty: it starts with
    a brace, [json.Unmarshal] accepts it, and its type is [resize].  The
    result is the decoded message when the test passes. *)
Definition resizeCommand (U : bytes -> resizeMsg -> option resizeMsg)
           (payload : bytes) : option resizeMsg :=
  if startsWithBrace payload then
    match U payload zeroMsg with
    | Some msg => if String.eqb (Type_ msg) "resize" then Some msg else None
    | None => None
    end
  else None.

(** The events of a resize frame once it is read. *)
Definition resizeTurn (env : Env) (execID : string) (tr1 : trace) (msg : resizeMsg)
: trace :=
  let tr2 := tr1 ++ [ContainerExecResize execID (Rows msg) (Cols msg)] in
  match ExecResizeErr env (exec_resizes tr2) with
  | Some e => tr2 ++ [Log "[attach] resize failed: %v" [Error e]]
  | None => tr2
  end.

(** The events of a data frame once it is read. *)
Definition dataTurn (env : Env) (tr1 : trace) (payload : bytes) : flow * trace :=
  let tr2 := tr1 ++ [ConnWrite payload] in
  match ConnWriteErr env (conn_writes tr2) with
  | Some e => (Return, tr2 ++ [Log "[attach] write to docker failed: %v" [Error e]])
  | None => (Continue, tr2)
  end.

(** The closes of the two resources of a session, in the order they were
    made. *)
Definition closes (tr : trace) : trace :=
  List.filter (fun e => match e with WsClose | HijackClose => true | _ => false end) tr.

(** How many times [wg.Done()] has been called. *)
Definition wg_dones (tr : trace) : nat :=
  List.length (List.filter (fun e => match e with WgDone => true | _ => false end) tr).

(** The trace of a session up to the start of the two goroutines. *)
Definition attached (containerID execID : string) : trace :=
  [Upgrade;
   Log "[attach] creating exec in container %s" [containerID];
   ContainerExecCreate containerID shellExec;
   ContainerExecAttach execID;
   Log "[attach] attached to exec %s in container %s, starting bidirectional pipe"
       [execID; containerID]].

Definition outDone (o : outboundState) : nat :=
  match o with OutDone => 1%nat | OutRunning _ _ => 0%nat end.

Definition inDone (i : inboundState) : nat :=
  match i with InDone => 1%nat | InRunning _ => 0%nat end.

(** The last of the scripted results of a read is an error: the stream is
    known to end. *)
Fixpoint endsInError {A} (results : list (A * option error)) : bool :=
  match results with
  | [] => false
  | (_, err) :: results' =>
      match results' with
      | [] => match err with Some _ => true | None => false end
      | _ :: _ => endsInError results'
      end
  end.

(** The turns a schedule gives to one goroutine. *)
Definition turns (g : goroutine) (sched : list goroutine) : nat :=
  List.length (List.filter (fun g' => match g, g' with
                                      | Outbound, Outbound | Inbound, Inbound => true
                                      | _, _ => false
                                      end) sched).

(** A goroutine that returns within the turns it has left to take. *)
Definition outboundEnds (o : outboundState) (n : nat) : Prop :=
  match o with
  | OutDone => True
  | OutRunning results _ => endsInError results = true /\ (List.length results <= n)%nat
  end.

Definition inboundEnds (i : inboundState) (n : nat) : Prop :=
  match i with
  | InDone => True
  | InRunning results => endsInError results = true /\ (List.length results <= n)%nat
  end.

(** A query string given by its pairs. *)
Definition query (kvs : list (string * string)) : gmap string (list string) :=
  list_to_map (map (fun kv => (fst kv, [snd kv])) kvs).

(** An environment in which every call succeeds and no read returns. *)
Definition quietEnv : Env :=
  {| time_Now := fun _ => 0;
     UpgradeErr := None;
     ExecCreateRes := fun _ => ("exec1", None);
     ExecAttachErr := fun _ => None;
     ExecResizeErr := fun _ => None;
     ContainerResizeErr := fun _ _ _ => None;
     WriteMessageErr := fun _ => None;
     ConnWriteErr := fun _ => None;
     ReadResults := [];
     ReadMessageResults := [];
     schedule := [] |}.

(** An environment whose transport refuses every write, as after the write
    deadline has passed. *)
Definition timeoutEnv : Env :=
  {| time_Now := fun _ => 0;
     UpgradeErr := None;
     ExecCreateRes := fun _ => ("exec1", None);
     ExecAttachErr := fun _ => None;
     ExecResizeErr := fun _ => None;
     ContainerResizeErr := fun _ _ _ => None;
     WriteMessageErr := fun _ => Some (errorString "i/o timeout");
     ConnWriteErr := fun _ => None;
     ReadResults := [];
     ReadMessageResults := [];
     schedule := [] |}.

(** An environment in which every resize of the exec fails. *)
Definition resizeFailEnv : Env :=
  {| time_Now := fun _ => 0;
     UpgradeErr := None;
     ExecCreateRes := fun _ => ("exec1", None);
     ExecAttachErr := fun _ => None;
     ExecResizeErr := fun _ => Some (errorString "no such exec");
     ContainerResizeErr := fun _ _ _ => None;
     WriteMessageErr := fun _ => None;
     ConnWriteErr := fun _ => None;
     ReadResults := [];
     ReadMessageResults := [];
     schedule := [] |}.

(** Scenario B: the text frame with type resize, cols 120 and rows 40. *)
Definition scenarioB : bytes := frame "{'type':'resize','cols':120,'rows':40}".

(** A session: the shell prints a prompt and later exits; the client sends
    a command, a resize, and closes. *)
Definition sessionEnv : Env :=
  {| time_Now := fun _ => 0;
     UpgradeErr := None;
     ExecCreateRes := fun _ => ("exec1", None);
     ExecAttachErr := fun _ => None;
     ExecResizeErr := fun _ => None;
     ContainerResizeErr := fun _ _ _ => None;
     WriteMessageErr := fun _ => None;
     ConnWriteErr := fun _ => None;
     ReadResults := [(bytes_of_string "$ ", None); ([], Some io_EOF)];
     ReadMessageResults :=
       [(websocket.TextMessage, bytes_of_string "ls", None);
        (websocket.TextMessage, scenarioB, None);
        (-1, [], Some (CloseError websocket.CloseNormalClosure "websocket: close 1000 (normal)"))];
     schedule := [Outbound; Inbound; Inbound; Outbound; Inbound] |}.

(** An environment whose Docker daemon does not know the container. *)
Definition createFailEnv : Env :=
  {| time_Now := fun _ => 0;
     UpgradeErr := None;
     ExecCreateRes := fun _ => ("", Some (errorString "No such container: abc123"));
     ExecAttachErr := fun _ => None;
     ExecResizeErr := fun _ => None;
     ContainerResizeErr := fun _ _ _ => None;
     WriteMessageErr := fun _ => None;
     ConnWriteErr := fun _ => None;
     ReadResults := [(bytes_of_string "$ ", None)];
     ReadMessageResults := [(websocket.TextMessage, bytes_of_string "ls", None)];
     schedule := [Outbound; Inbound] |}.

(** A session whose client has gone while the shell prints nothing: the
    read from the transport returns the close, the read from the exec
    does not return. *)
Definition goneEnv (sched : list goroutine) : Env :=
  {| time_Now := fun _ => 0;
     UpgradeErr := None;
     ExecCreateRes := fun _ => ("exec1", None);
     ExecAttachErr := fun _ => None;
     ExecResizeErr := fun _ => None;
     ContainerResizeErr := fun _ _ _ => None;
     WriteMessageErr := fun _ => None;
     ConnWriteErr := fun _ => None;
     ReadResults := [];
     ReadMessageResults :=
       [(-1, [], Some (CloseError websocket.CloseGoingAway
                                  "websocket: close 1001 (going away)"))];
     schedule := sched |}.

(** Scenario D: [POST /resize?id=abc123&w=0&h=40]. *)
Definition scenarioD : Request :=
  mkRequest "POST" (query [("id", "abc123"); ("w", "0"); ("h", "40")]).

(** [GET /attach?id=abc123]. *)
Definition attachRequest : Request := mkRequest "GET" (query [("id", "abc123")]).

(** * The rest of the handler package, cmd and internal/fs *)

(** The results [ws.ReadMessage] has returned so far. *)
Definition ws_reads (tr : trace) : list (Z * bytes * option error) :=
  flat_map (fun e => match e with
                     | WsReadMessage mt p err => [(mt, p, err)]
                     | _ => []
                     end) tr.

(** The payloads among the messages read that the inbound loop passes on
    to the exec input: those of the messages read without an error, not in
    a close frame, not empty and not taken as a resize command. *)
Definition forwardedOf (U : bytes -> resizeMsg -> option resizeMsg)
           (reads : list (Z * bytes * option error)) : list bytes :=
  flat_map (fun r => match r with
                     | (_, _, Some _) => []
                     | (mt, payload, None) =>
                         if mt =? websocket.CloseMessage then []
                         else if len payload =? 0 then []
                         else match resizeCommand U payload with
                              | Some _ => []
                              | None => [payload]
                              end
                     end) reads.

(** The resize calls the messages read give rise to. *)
Definition resizedOf (U : bytes -> resizeMsg -> option resizeMsg) (execID : string)
           (reads : list (Z * bytes * option error)) : list (string * Z * Z) :=
  flat_map (fun r => match r with
                     | (_, _, Some _) => []
                     | (mt, payload, None) =>
                         if mt =? websocket.CloseMessage then []
                         else if len payload =? 0 then []
                         else match resizeCommand U payload with
                              | Some msg => [(execID, Rows msg, Cols msg)]
                              | None => []
                              end
                     end) reads.

(** The calls of a stretch of trace answer its reads: the frames written
    to the client are those of the reads from the exec, the payloads
    written to the exec and the resize calls are those of the messages
    read from the client. *)
Definition paired (U : bytes -> resizeMsg -> option resizeMsg) (execID : string)
           (evs : trace) : Prop :=
  ws_frames evs = framesOf (exec_reads evs)
  /\ conn_writes evs = forwardedOf U (ws_reads evs)
  /\ exec_resizes evs = resizedOf U execID (ws_reads evs).

(** A stretch of trace with no read and no call to either side. *)
Definition silent (evs : trace) : Prop :=
  ws_frames evs = [] /\ exec_reads evs = [] /\ conn_writes evs = []
  /\ exec_resizes evs = [] /\ ws_reads evs = [].

(** The reads a goroutine has still to make. *)
Definition outPending (o : outboundState) : list (bytes * option error) :=
  match o with OutRunning results _ => results | OutDone => [] end.

Definition inPending (i : inboundState) : list (Z * bytes * option error) :=
  match i with InRunning results => results | InDone => [] end.

(** A string of decimal digits. *)
Fixpoint allDigits (s : string) : bool :=
  match s with
  | EmptyString => true
  | String c s' => (48 <=? ascii_val c) && (ascii_val c <=? 57) && allDigits s'
  end.

(** The number a string of decimal digits writes, after the digits that
    gave [n]. *)
Fixpoint decimalFrom (n : Z) (s : string) : Z :=
  match s with
  | EmptyString => n
  | String c s' => decimalFrom (n * 10 + (ascii_val c - 48)) s'
  end.

Definition decimal (s : string) : Z := decimalFrom 0 s.

(** The status codes of the responses a handler has started. *)
Definition responses (tr : trace) : list Z :=
  flat_map (fun e => match e with
                     | HttpError _ code => [code]
                     | RespWriteHeader code => [code]
                     | _ => []
                     end) tr.

(** The calls of [ContainerResize] made. *)
Definition container_resizes (tr : trace) : list (string * Z * Z) :=
  flat_map (fun e => match e with
                     | ContainerResize id h w => [(id, h, w)]
                     | _ => []
                     end) tr.

(** The calls to the Docker client in a trace. *)
Definition docker_calls (tr : trace) : trace :=
  List.filter (fun e => match e with
                        | ContainerExecCreate _ _ | ContainerExecAttach _
                        | ContainerExecResize _ _ _ | ContainerResize _ _ _ => true
                        | _ => false
                        end) tr.

(** An environment whose upgrade to a WebSocket fails. *)
Definition upgradeFailEnv : Env :=
  {| time_Now := fun _ => 0;
     UpgradeErr := Some (errorString "websocket: the client is not using the websocket protocol");
     ExecCreateRes := fun _ => ("exec1", None);
     ExecAttachErr := fun _ => None;
     ExecResizeErr := fun _ => None;
     ContainerResizeErr := fun _ _ _ => None;
     WriteMessageErr := fun _ => None;
     ConnWriteErr := fun _ => None;
     ReadResults := [(bytes_of_string "$ ", None)];
     ReadMessageResults := [(websocket.TextMessage, bytes_of_string "ls", None)];
     schedule := [Outbound; Inbound] |}.

(** ** cmd/main.go: the two loops of its [attachHandler]

    The earlier entry point attaches to the container itself and copies
    with two loops of its own, one in a goroutine and one in the handler.
    A [break] leaves the loop, as [Return] does in the loops above. *)
Module main.

Section Loops.

Variable env : Env.

(** The body of the loop of the goroutine, for one result of [Read]. *)
Definition dockerToWsBody (result : bytes * option error) (buf : bytes)
  : M (flow * bytes) :=
  r <- hijack_Reader_Read result buf ;;
  let '(n, err, buf) := r in
  match err with
  | Some e =>
      (match e with
       | io_EOF => ret tt
       | _ => log_Printf "read from docker failed: %v" [Error e]
       end) ;;;
      ret (Return, buf)
  | None =>
      if 0 <? n then
        now <- time_Now_ env ;;
        ws_SetWriteDeadline (now + 10 * time_Second) ;;;
        writeErr <- ws_WriteMessage env websocket.BinaryMessage (firstn (Z.to_nat n) buf) ;;
        match writeErr with
        | Some e =>
            log_Printf "write to websocket failed: %v" [Error e] ;;;
            ret (Return, buf)
        | None => ret (Continue, buf)
        end
      else ret (Continue, buf)
  end.

Fixpoint dockerToWsLoop (results : list (bytes * option error)) (buf : bytes)
  : M status :=
  match results with
  | [] => ret Waiting
  | result :: results' =>
      r <- dockerToWsBody result buf ;;
      match r with
      | (Continue, buf') => dockerToWsLoop results' buf'
      | (Return, _) => ret Returned
      end
  end.

(** The body of the loop of the handler, for one result of
    [ReadMessage]. *)
Definition wsToDockerBody (result : Z * bytes * option error) : M flow :=
  r <- ws_ReadMessage result ;;
  let '(mt, p, err) := r in
  match err with
  | Some e =>
      log_Printf "read from websocket failed: %v" [Error e] ;;;
      ret Return
  | None =>
      if mt =? websocket.CloseMessage then ret Return
      else if len p =? 0 then ret Continue
      else
        writeErr <- hijack_Conn_Write env p ;;
        match writeErr with
        | Some e =>
            log_Printf "write to docker failed: %v" [Error e] ;;;
            ret Return
        | None => ret Continue
        end
  end.

Fixpoint wsToDockerLoop (results : list (Z * bytes * option error)) : M status :=
  match results with
  | [] => ret Waiting
  | result :: results' =>
      f <- wsToDockerBody result ;;
      match f with
      | Continue => wsToDockerLoop results'
      | Return => ret Returned
      end
  end.

End Loops.

End main.

(** The reads that returned no error. *)
Definition cleanReads (reads : list (bytes * option error))
  : list (bytes * option error) :=
  List.filter (fun r => match snd r with None => true | Some _ => false end) reads.

(** The payloads among the messages read that the loop of [cmd/main.go]
    passes on: those read without an error, not in a close frame and not
    empty. *)
Definition plainForwardedOf (reads : list (Z * bytes * option error)) : list bytes :=
  flat_map (fun r => match r with
                     | (_, _, Some _) => []
                     | (mt, p, None) =>
                         if mt =? websocket.CloseMessage then []
                         else if len p =? 0 then []
                         else [p]
                     end) reads.

(** ** cmd/server/main.go: corsMiddleware *)

Definition StatusNoContent : Z := 204.

(** [w.Header().Set(key, value)] on the header map of the response, for a
    key that is written in its canonical form as all keys here are. *)
Definition Header_Set (h : gmap string (list string)) (key value : string)
  : gmap string (list string) :=
  <[key := [value]]> h.

(** [w.WriteHeader(code)]: the status line goes out with the header map
    as it stands, which is the result; what is set in the map later is
    not sent. *)
Definition w_WriteHeader (h : gmap string (list string)) (code : Z)
  : M (gmap string (list string)) :=
  call (RespWriteHeader code) ;;; ret h.

(** The handler [corsMiddleware(next)].  The result is the header map
    the response is sent with: on the preflight path the map
    [w.WriteHeader] sends, otherwise what [next] makes of the map it is
    given. *)
Definition corsMiddleware
           (next : Request -> gmap string (list string) -> M (gmap string (list string)))
           (r : Request) (h : gmap string (list string))
  : M (gmap string (list string)) :=
  let h := Header_Set h "Access-Control-Allow-Origin" "*" in
  let h := Header_Set h "Access-Control-Allow-Methods" "GET, POST, OPTIONS" in
  let h := Header_Set h "Access-Control-Allow-Headers" "Content-Type" in
  if String.eqb (Method r) "OPTIONS" then w_WriteHeader h StatusNoContent
  else next r h.

(** ** internal/fs: escapeForShell *)

(** [strings.ReplaceAll(s, old, new)] for an [old] of one byte. *)
Fixpoint ReplaceAll1 (s : string) (old : ascii) (new : string) : string :=
  match s with
  | EmptyString => EmptyString
  | String c s' =>
      if Ascii.eqb c old then String.append new (ReplaceAll1 s' old new)
      else String c (ReplaceAll1 s' old new)
  end.

(** The apostrophe and the backslash. *)
Definition apostrophe : ascii := ascii_of_nat 39.
Definition backslash : ascii := ascii_of_nat 92.

(** [escapeForShell]: every apostrophe becomes the four bytes apostrophe,
    backslash, apostrophe, apostrophe. *)
Definition escapeForShell (s : string) : string :=
  ReplaceAll1 s apostrophe
    (String apostrophe (String backslash (String apostrophe (String apostrophe "")))).

(** The word [sh] reads from a command line, for the two ways of quoting
    that [SearchFiles] relies on: between apostrophes every byte stands
    for itself up to the next apostrophe, and outside them a backslash
    makes the next byte stand for itself.  A blank outside quotes ends the
    word; any other byte outside quotes is none of this model's business.
    The result is the word and the rest of the line. *)
Fixpoint shWord (quoted : bool) (s : string) : option (string * string) :=
  match s with
  | EmptyString => if quoted then None else Some (EmptyString, EmptyString)
  | String c s' =>
      if quoted then
        if Ascii.eqb c apostrophe then shWord false s'
        else match shWord true s' with
             | Some (w, rest) => Some (String c w, rest)
             | None => None
             end
      else if Ascii.eqb c apostrophe then shWord true s'
      else if Ascii.eqb c backslash then
        match s' with
        | String c' s'' =>
            match shWord false s'' with
            | Some (w, rest) => Some (String c' w, rest)
            | None => None
            end
        | EmptyString => None
        end
      else if Ascii.eqb c " " then Some (EmptyString, s)
      else None
  end.

(** The command line [SearchFiles] gives to [sh -c]. *)
Definition searchCommand (query : string) : string :=
  String.append "grep -rn -i --exclude-dir='.*' --exclude-dir='node_modules' '"
    (String.append (escapeForShell query) "' . 2>/dev/null || true").

(** ** path.Clean *)
Module path.

Definition slash : ascii := ascii_of_nat 47.
Definition dot : ascii := ascii_of_nat 46.

(** The output buffer of [Clean] is kept last byte first.  A [..] element
    that can backtrack drops the last byte, and goes on dropping while
    more than [dotdot] bytes are left and the byte just dropped is not a
    slash. *)
Fixpoint dropElem (dotdot : nat) (rout : list ascii) : list ascii :=
  match rout with
  | [] => []
  | c :: r =>
      if (dotdot <? List.length r)%nat && negb (Ascii.eqb c slash)
      then dropElem dotdot r
      else r
  end.

(** Whether an element ends here: at the end of the path or at a slash. *)
Definition elementEnds (s : list ascii) : bool :=
  match s with
  | [] => true
  | c :: _ => Ascii.eqb c slash
  end.

(** The loop of [Clean] over the rest [s] of the path; [inElem] says that
    the bytes of an element are being copied. *)
Fixpoint cleanLoop (rooted inElem : bool) (s : list ascii)
         (rout : list ascii) (dotdot : nat) : list ascii :=
  match s with
  | [] => rout
  | c :: s' =>
      if Ascii.eqb c slash then cleanLoop rooted false s' rout dotdot
      else if inElem then cleanLoop rooted true s' (c :: rout) dotdot
      else if Ascii.eqb c dot && elementEnds s' then
        cleanLoop rooted false s' rout dotdot
      else
        match s' with
        | c' :: s'' =>
            if Ascii.eqb c dot && Ascii.eqb c' dot && elementEnds s'' then
              if (dotdot <? List.length rout)%nat then
                cleanLoop rooted false s'' (dropElem dotdot rout) dotdot
              else if negb rooted then
                let r1 := if (0 <? List.length rout)%nat then slash :: rout else rout in
                let r2 := dot :: dot :: r1 in
                cleanLoop rooted false s'' r2 (List.length r2)
              else cleanLoop rooted false s'' rout dotdot
            else
              let r1 := if (rooted && negb (List.length rout =? 1)%nat)
                           || (negb rooted && negb (List.length rout =? 0)%nat)
                        then slash :: rout else rout in
              cleanLoop rooted true s' (c :: r1) dotdot
        | [] =>
            let r1 := if (rooted && negb (List.length rout =? 1)%nat)
                         || (negb rooted && negb (List.length rout =? 0)%nat)
                      then slash :: rout else rout in
            cleanLoop rooted true s' (c :: r1) dotdot
        end
  end.

(** [path.Clean]. *)
Definition Clean (p : string) : string :=
  match list_ascii_of_string p with
  | [] => "."
  | c :: s' =>
      let rout :=
        if Ascii.eqb c slash then cleanLoop true false s' [slash] 1
        else cleanLoop false false (c :: s') [] 0 in
      match rout with
      | [] => "."
      | _ :: _ => string_of_list_ascii (rev rout)
      end
  end.

(** The bytes of a path from its last slash on, last byte first, and the
    bytes after its last slash, last byte first. *)
Fixpoint uptoLastSlash (r : list ascii) : list ascii :=
  match r with
  | [] => []
  | c :: r' => if Ascii.eqb c slash then r else uptoLastSlash r'
  end.

Fixpoint afterLastSlash (r : list ascii) : list ascii :=
  match r with
  | [] => []
  | c :: r' => if Ascii.eqb c slash then [] else c :: afterLastSlash r'
  end.

Fixpoint stripSlashes (r : list ascii) : list ascii :=
  match r with
  | [] => []
  | c :: r' => if Ascii.eqb c slash then stripSlashes r' else r
  end.

(** [path.Dir]: [Clean] of the path up to and with its last slash. *)
Definition Dir (p : string) : string :=
  Clean (string_of_list_ascii (rev (uptoLastSlash (rev (list_ascii_of_string p))))).

(** [path.Base]: the last element, trailing slashes set aside. *)
Definition Base (p : string) : string :=
  match p with
  | EmptyString => "."
  | String _ _ =>
      match stripSlashes (rev (list_ascii_of_string p)) with
      | [] => "/"
      | r => string_of_list_ascii (rev (afterLastSlash r))
      end
  end.

End path.

(** ** internal/fs: validatePath *)

(** [strings.HasPrefix]. *)
Definition HasPrefix (s prefix : string) : bool := String.prefix prefix s.

(** [strings.ContainsRune(s, 0)]: some byte of [s] is zero. *)
Definition ContainsNul (s : string) : bool :=
  existsb (fun c => Ascii.eqb c zero) (list_ascii_of_string s).

Definition validatePath (p : string) : option error :=
  if String.eqb p "" then Some (errorString "path must not be empty")
  else if ContainsNul p then Some (errorString "path must not contain null bytes")
  else
    let cleaned := path.Clean p in
    if HasPrefix cleaned "/" then Some (errorString "path must be relative")
    else if HasPrefix cleaned ".."
    then Some (errorString "path must not traverse above workspace root")
    else None.

(** The path [ReadFile] asks the container for. *)
Definition absPath (filePath : string) : string := String.append "/workspace/" filePath.

(** The runs of [path.Clean] on a path and on the path below
    [/workspace], side by side. *)

(** The buffer holds [/workspace], last byte first. *)
Definition rW : list ascii := rev (list_ascii_of_string "/workspace").

(** The buffer of the run on [/workspace/p] that goes with the buffer
    [r] of the run on [p]. *)
Definition glue (r : list ascii) : list ascii :=
  match r with
  | [] => rW
  | _ :: _ => r ++ path.slash :: rW
  end.

(** The output does not start with a slash. *)
Definition unrooted (r : list ascii) : Prop := List.last r path.dot <> path.slash.

(** The output starts with two dots. *)
Definition dotted (r : list ascii) : Prop := exists z, r = z ++ [path.dot; path.dot].


(** ** internal/fs: ReadFile, WriteFile and the handler of /fs/file *)

(** [strings.Contains]. *)
Fixpoint Contains (s substr : string) : bool :=
  if String.prefix substr s then true
  else match s with
       | EmptyString => false
       | String _ s' => Contains s' substr
       end.

Definition maxFileSize : Z := 5 * 1024 * 1024.

Definition StatusNotFound : Z := 404.

(** What the container and the tar stream give to [ReadFile] once the
    path is accepted: the step that fails, with its error, or the bytes
    of the first entry of the archive. *)
Inductive readOutcome : Type :=
| CopyFromContainerErr (e : error)
| TarNextErr (e : error)
| ReadAllErr (e : error)
| FileContent (content : string).

(** What the tar writer and the container give to [WriteFile] once the
    path is accepted. *)
Inductive writeOutcome : Type :=
| TarWriteHeaderErr (e : error)
| TarWriteErr (e : error)
| TarCloseErr (e : error)
| CopyToContainerErr (e : error)
| Copied.

(** The two calls to the container, as the answers they get: for
    [CopyFromContainer] from the container and the path, for the archive
    and [CopyToContainer] from the container, the directory, the name of
    the entry and its content. *)
Record Container : Type := mkContainer {
  copyFrom : string -> string -> readOutcome;
  copyTo : string -> string -> string -> string -> writeOutcome
}.

(** The first [n] bytes of [s], all of it if it is shorter: what
    [io.ReadAll] gets through [io.LimitReader]. *)
Fixpoint limitRead (n : Z) (s : string) : string :=
  match s with
  | EmptyString => EmptyString
  | String c s' => if 0 <? n then String c (limitRead (n - 1) s') else EmptyString
  end.

(** [fmt.Errorf] with a message and a wrapped error. *)
Definition wrapError (msg : string) (e : error) : error :=
  errorString (String.append msg (Error e)).

Definition ReadFile (c : Container) (containerID filePath : string)
  : string * option error :=
  match validatePath filePath with
  | Some err => ("", Some err)
  | None =>
      match copyFrom c containerID (absPath filePath) with
      | CopyFromContainerErr e => ("", Some (wrapError "copy from container: " e))
      | TarNextErr e => ("", Some (wrapError "read tar header: " e))
      | ReadAllErr e => ("", Some (wrapError "read file content: " e))
      | FileContent content =>
          (limitRead maxFileSize content, None)
      end
  end.

(** The directory [WriteFile] copies the archive to. *)
Definition destDir (filePath : string) : string :=
  let d := String.append "/workspace/" (path.Dir filePath) in
  if String.eqb d "/workspace/." then "/workspace" else d.

Definition WriteFile (c : Container) (containerID filePath content : string)
  : option error :=
  match validatePath filePath with
  | Some err => Some err
  | None =>
      match copyTo c containerID (destDir filePath) (path.Base filePath) content with
      | TarWriteHeaderErr e => Some (wrapError "write tar header: " e)
      | TarWriteErr e => Some (wrapError "write tar content: " e)
      | TarCloseErr e => Some (wrapError "close tar writer: " e)
      | CopyToContainerErr e => Some (wrapError "copy to container: " e)
      | Copied => None
      end
  end.

(** [io.ReadAll(io.LimitReader(r.Body, maxFileSize))] for a body that
    delivers [sent] and whose next read then returns [last], [io_EOF] at
    its regular end: once [maxFileSize] bytes are read the limited reader
    answers [io_EOF] itself and the body is not read again; [io.ReadAll]
    reports [io_EOF] as no error. *)
Definition readBody (sent : string) (last : error) : string * option error :=
  if maxFileSize <=? Z.of_nat (String.length sent)
  then (limitRead maxFileSize sent, None)
  else (sent, match last with io_EOF => None | e => Some e end).

(** [fileHandler]; the request comes with what its body delivers, and the
    result is the header map as the handler has set it. *)
Definition fileHandler (c : Container) (r : Request)
           (sent : string) (last : error)
           (h : gmap string (list string)) : M (gmap string (list string)) :=
  let containerID := Get (Query r) "id" in
  if String.eqb containerID "" then
    http_Error (dq "missing 'id' query parameter") StatusBadRequest ;;; ret h
  else
    let filePath := Get (Query r) "path" in
    if String.eqb filePath "" then
      http_Error (dq "missing 'path' query parameter") StatusBadRequest ;;; ret h
    else if String.eqb (Method r) "GET" then
      let (content, err) := ReadFile c containerID filePath in
      match err with
      | Some e =>
          log_Printf "[fs/file] read error for %s in %s: %v"
                     [filePath; containerID; Error e] ;;;
          (if Contains (Error e) "No such container" || Contains (Error e) "not found"
           then http_Error "file not found" StatusNotFound
           else http_Error "failed to read file" StatusInternalServerError) ;;;
          ret h
      | None =>
          let h := Header_Set h "Content-Type" "text/plain; charset=utf-8" in
          call (RespWrite (bytes_of_string content)) ;;;
          ret h
      end
    else if String.eqb (Method r) "POST" then
      let (body, err) := readBody sent last in
      match err with
      | Some _ => http_Error "failed to read request body" StatusBadRequest ;;; ret h
      | None =>
          match WriteFile c containerID filePath body with
          | Some e =>
              log_Printf "[fs/file] write error for %s in %s: %v"
                         [filePath; containerID; Error e] ;;;
              http_Error "failed to write file" StatusInternalServerError ;;;
              ret h
          | None => call (RespWriteHeader StatusNoContent) ;;; ret h
          end
      end
    else http_Error "method not allowed" StatusMethodNotAllowed ;;; ret h.

(** A container that holds one small file at every path and takes every
    copy. *)
Definition plainContainer : Container :=
  {| copyFrom := fun _ _ => FileContent "package main";
     copyTo := fun _ _ _ _ => Copied |}.

(** [GET /fs/file?id=abc123&path=../etc/passwd]. *)
Definition traversalRequest : Request :=
  mkRequest "GET" (query [("id", "abc123"); ("path", "../etc/passwd")]).

(** [POST /resize?id=abc123&w=120&h=40]. *)
Definition resizeRequest : Request :=
  mkRequest "POST" (query [("id", "abc123"); ("w", "120"); ("h", "40")]).

(** ** internal/fs: buildTree *)

(** The white space [strings.TrimSpace] trims: the six white space bytes
    of ASCII and the encodings in UTF-8 of U+0085, U+00A0, U+1680,
    U+2000 to U+200A, U+2028, U+2029, U+202F, U+205F and U+3000. *)
Definition asciiSpace (c : ascii) : bool :=
  ((9 <=? ascii_val c) && (ascii_val c <=? 13)) || (ascii_val c =? 32).

Definition isSpace2 (c1 c2 : ascii) : bool :=
  (ascii_val c1 =? 194) && ((ascii_val c2 =? 133) || (ascii_val c2 =? 160)).

Definition isSpace3 (c1 c2 c3 : ascii) : bool :=
  ((ascii_val c1 =? 225) && (ascii_val c2 =? 154) && (ascii_val c3 =? 128))
  || ((ascii_val c1 =? 226) && (ascii_val c2 =? 128)
      && (((128 <=? ascii_val c3) && (ascii_val c3 <=? 138))
          || (ascii_val c3 =? 168) || (ascii_val c3 =? 169) || (ascii_val c3 =? 175)))
  || ((ascii_val c1 =? 226) && (ascii_val c2 =? 129) && (ascii_val c3 =? 159))
  || ((ascii_val c1 =? 227) && (ascii_val c2 =? 128) && (ascii_val c3 =? 128)).

(** The bytes left when the white space at the start is dropped. *)
Fixpoint trimLeft (s : list ascii) : list ascii :=
  match s with
  | [] => []
  | c1 :: s1 =>
      if asciiSpace c1 then trimLeft s1
      else match s1 with
           | [] => s
           | c2 :: s2 =>
               if isSpace2 c1 c2 then trimLeft s2
               else match s2 with
                    | [] => s
                    | c3 :: s3 => if isSpace3 c1 c2 c3 then trimLeft s3 else s
                    end
           end
  end.

(** The same from the end, on the bytes last byte first. *)
Fixpoint trimRight (r : list ascii) : list ascii :=
  match r with
  | [] => []
  | c1 :: r1 =>
      if asciiSpace c1 then trimRight r1
      else match r1 with
           | [] => r
           | c2 :: r2 =>
               if isSpace2 c2 c1 then trimRight r2
               else match r2 with
                    | [] => r
                    | c3 :: r3 => if isSpace3 c3 c2 c1 then trimRight r3 else r
                    end
           end
  end.

(** [strings.TrimSpace]. *)
Definition TrimSpace (s : string) : string :=
  string_of_list_ascii (rev (trimRight (rev (trimLeft (list_ascii_of_string s))))).

(** [strings.Split(s, sep)] for a separator of one byte: the pieces
    between the separators, one more than there are separators. *)
Fixpoint Split (s : string) (sep : ascii) : list string :=
  match s with
  | EmptyString => [EmptyString]
  | String c s' =>
      if Ascii.eqb c sep then EmptyString :: Split s' sep
      else match Split s' sep with
           | piece :: pieces => String c piece :: pieces
           | [] => [String c EmptyString]
           end
  end.

(** [sort.Strings]: the strings in increasing order, byte by byte.  Equal
    strings cannot be told apart, so the order of the result does not
    depend on the way of sorting. *)
Fixpoint insertString (x : string) (sorted : list string) : list string :=
  match sorted with
  | [] => [x]
  | y :: sorted' =>
      if String.leb x y then x :: sorted else y :: insertString x sorted'
  end.

Definition sort_Strings (l : list string) : list string :=
  fold_right insertString [] l.

(** [strings.TrimPrefix]. *)
Fixpoint dropBytes (n : nat) (s : string) : string :=
  match n, s with
  | S n', String _ s' => dropBytes n' s'
  | _, _ => s
  end.

Definition TrimPrefix (s prefix : string) : string :=
  if HasPrefix s prefix then dropBytes (String.length prefix) s else s.

(** A node of the tree.  The nodes built are kept in a store in the
    order they are made, and a pointer to a node is its place there:
    [dirs], [topLevel] and the children of a folder hold pointers to the
    same nodes.  A list of children that is nil and one that is empty
    are not told apart. *)
Record FileNode : Type := mkFileNode {
  Name : string;
  Path : string;
  NodeType : string;
  Children : list nat
}.

Record treeState : Type := mkTreeState {
  nodes : list FileNode;
  dirs : gmap string nat;
  topLevel : list nat
}.

(** [parent.Children = append(parent.Children, node)]. *)
Definition appendChild (store : list FileNode) (parent node : nat) : list FileNode :=
  alter (fun p => mkFileNode (Name p) (Path p) (NodeType p) (Children p ++ [node]))
        parent store.

(** The body of the loop of [buildTree], for one line. *)
Definition buildLine (st : treeState) (line : string) : treeState :=
  if String.eqb line "" then st
  else
    match Split line ":" with
    | rawPath :: rawType :: _ =>
        let relPath := TrimPrefix rawPath "./" in
        if String.eqb relPath "." || String.eqb relPath "" then st
        else
          let node := length (nodes st) in
          let isDir := Contains rawType "directory" in
          let store :=
            nodes st ++ [mkFileNode (path.Base relPath) relPath
                                    (if isDir then "folder" else "file") []] in
          let dirs' := if isDir then <[relPath := node]> (dirs st) else dirs st in
          let parentPath := path.Dir relPath in
          if String.eqb parentPath "."
          then mkTreeState store dirs' (topLevel st ++ [node])
          else match dirs' !! parentPath with
               | Some parent => mkTreeState (appendChild store parent node) dirs' (topLevel st)
               | None => mkTreeState store dirs' (topLevel st ++ [node])
               end
    | _ => st
    end.

(** [buildTree]: the store of the nodes and the pointers returned; the
    error returned is always nil. *)
Definition buildTree (output : string) : list FileNode * list nat :=
  let lines := Split (TrimSpace output) (ascii_of_nat 10) in
  let st := fold_left buildLine (sort_Strings lines) (mkTreeState [] empty []) in
  (nodes st, topLevel st).

(** The lines [find] with [stat -c %n:%F] prints for the workspace: the
    root, or a path of names below it, then a colon and the type. *)
Definition goodName (n : string) : Prop :=
  n <> "" /\ n <> "." /\ n <> ".."
  /\ ~ In "/"%char (list_ascii_of_string n)
  /\ ~ In ":"%char (list_ascii_of_string n).

Fixpoint joinNames (names : list string) : string :=
  match names with
  | [] => ""
  | [n] => n
  | n :: names' => String.append n (String "/" (joinNames names'))
  end.

Definition findLine (line : string) : Prop :=
  line = ""
  \/ (exists t, line = String.append ".:" t)
  \/ (exists names t,
        names <> [] /\ Forall goodName names
        /\ line = String.append "./" (String.append (joinNames names) (String ":" t))).

(** The bytes of the names, each followed by a slash, and the buffer of
    [path.Clean] after it has copied the names. *)
Definition dirChars (names : list string) : list ascii :=
  concat (map (fun n => list_ascii_of_string n ++ [path.slash]) names).

Definition pushName (rout : list ascii) (n : string) : list ascii :=
  rev (list_ascii_of_string n)
  ++ match rout with [] => [] | _ :: _ => path.slash :: rout end.

(** A list in increasing order. *)
Fixpoint increasing (l : list string) : Prop :=
  match l with
  | [] => True
  | x :: l' => Forall (fun y => String.leb x y = true) l' /\ increasing l'
  end.

(** Every node built so far is returned at the top, and none has a
    child. *)
Definition flat (st : treeState) : Prop :=
  topLevel st = seq 0 (length (nodes st))
  /\ Forall (fun n => Children n = []) (nodes st).

(** The folders noted so far come from lines that are none of them after
    a line of [rest]. *)
Definition keysBelow (st : treeState) (rest : list string) : Prop :=
  forall k p,
    dirs st !! k = Some p ->
    exists t,
      Forall (fun y => String.leb (String.append "./" (String.append k (String ":" t))) y
                       = true) rest.

(** The node of the entry that [find] prints as the names [names] and
    the type [t]. *)
Definition entryNode (names : list string) (t : string) : FileNode :=
  mkFileNode (List.last names "") (joinNames names)
             (if Contains (hd "" (Split t ":")) "directory" then "folder" else "file")
             [].

(** The node the loop of [buildTree] makes for a line with two parts or
    more. *)
Definition lineNode (line : string) : FileNode :=
  match Split line ":" with
  | rawPath :: rawType :: _ =>
      mkFileNode (path.Base (TrimPrefix rawPath "./")) (TrimPrefix rawPath "./")
                 (if Contains rawType "directory" then "folder" else "file") []
  | _ => mkFileNode "" "" "" []
  end.

(** What [find] prints for a workspace with a folder and two files. *)
Definition findOutput : string :=
  String.append ".:directory"
 (String (ascii_of_nat 10) (String.append "./src:directory"
 (String (ascii_of_nat 10) (String.append "./src/main.go:regular file"
 (String (ascii_of_nat 10) (String.append "./README.md:regular file"
 (String (ascii_of_nat 10) ""))))))).

(** ** internal/fs: parseGrepOutput *)

(** [strings.Cut(s, sep)] for a separator of one byte: the text before
    the first separator and the text after it. *)
Fixpoint Cut (s : string) (sep : ascii) : option (string * string) :=
  match s with
  | EmptyString => None
  | String c s' =>
      if Ascii.eqb c sep then Some (EmptyString, s')
      else match Cut s' sep with
           | Some (before, after) => Some (String c before, after)
           | None => None
           end
  end.

(** [strings.SplitN(s, sep, n)] for a separator of one byte and [n] not
    negative: at most [n] pieces, the last one the rest of the text. *)
Fixpoint SplitN (s : string) (sep : ascii) (n : nat) : list string :=
  match n with
  | O => []
  | S O => [s]
  | S n' =>
      match Cut s sep with
      | Some (before, after) => before :: SplitN after sep n'
      | None => [s]
      end
  end.

(** [strconv.ParseInt] for an explicit base, on top of [ParseUint]. *)
Definition ParseInt (s : string) (base bitSize : Z) : Z * option strconv.NumError :=
  match s with
  | EmptyString => (0, Some strconv.ErrSyntax)
  | String c s' =>
      let neg := Ascii.eqb c "-" in
      let s1 := if Ascii.eqb c "+" || Ascii.eqb c "-" then s' else s in
      let (un, err) := strconv.ParseUint s1 base bitSize in
      let rangeOnly := match err with
                       | None | Some strconv.ErrRange => true
                       | Some _ => false
                       end in
      if negb rangeOnly then (0, err)
      else
        let bitSize := if bitSize =? 0 then 64 else bitSize in
        let cutoff := 2 ^ (bitSize - 1) in
        if negb neg && (cutoff <=? un) then (cutoff - 1, Some strconv.ErrRange)
        else if neg && (cutoff <? un) then (- cutoff, Some strconv.ErrRange)
        else (if neg then - un else un, None)
  end.

(** The white space the scanner of [fmt] skips before a number.  A
    newline there is an error, as the scanner of [Sscanf] does not take
    it for a space. *)
Fixpoint skipSpace (s : list ascii) : option (list ascii) :=
  match s with
  | [] => Some []
  | c1 :: s1 =>
      if ascii_val c1 =? 10 then None
      else if asciiSpace c1 then skipSpace s1
      else match s1 with
           | [] => Some s
           | c2 :: s2 =>
               if isSpace2 c1 c2 then skipSpace s2
               else match s2 with
                    | [] => Some s
                    | c3 :: s3 => if isSpace3 c1 c2 c3 then skipSpace s3 else Some s
                    end
           end
  end.

(** The decimal digits a text starts with. *)
Fixpoint leadingDigits (s : list ascii) : list ascii :=
  match s with
  | c :: s' =>
      if (48 <=? ascii_val c) && (ascii_val c <=? 57) then c :: leadingDigits s' else []
  | [] => []
  end.

(** [fmt.Sscanf] with the format [%d] and an [int] of 64 bits: the number
    stored when one item is scanned without an error, which is the case
    the caller looks for.  The scanner skips white space, takes a sign if
    there is one and then the digits that follow, at least one, and
    leaves the rest of the text unread. *)
Definition Sscanf_d (s : string) : option Z :=
  match skipSpace (list_ascii_of_string s) with
  | None => None
  | Some rest =>
      let (sign, rest') :=
        match rest with
        | c :: r => if Ascii.eqb c "+" || Ascii.eqb c "-" then ([c], r) else ([], rest)
        | [] => ([], rest)
        end in
      match leadingDigits rest' with
      | [] => None
      | ds =>
          match ParseInt (string_of_list_ascii (sign ++ ds)) 10 64 with
          | (n, None) => Some n
          | (_, Some _) => None
          end
      end
  end.

Record SearchResult : Type := mkSearchResult {
  File : string;
  Line : Z;
  Column : Z;
  Text : string
}.

(** The body of the loop of [parseGrepOutput], for one line. *)
Definition parseGrepLine (results : list SearchResult) (line : string)
  : list SearchResult :=
  if String.eqb line "" then results
  else
    match SplitN line ":" 3 with
    | [part0; part1; part2] =>
        let filePath := TrimPrefix part0 "./" in
        match Sscanf_d part1 with
        | Some lineNumber =>
            results ++ [mkSearchResult filePath lineNumber 1 (TrimSpace part2)]
        | None => results
        end
    | _ => results
    end.

Definition parseGrepOutput (output : string) : list SearchResult :=
  fold_left parseGrepLine (Split output (ascii_of_nat 10)) [].

(** The line [grep -n] prints for a match: the file below the current
    directory, the number of the line in decimal digits, and the text. *)
Definition grepLine (file digits text : string) : string :=
  String.append "./" (String.append file
    (String ":" (String.append digits (String ":" text)))).

(** The lines of an output, each ended by a newline. *)
Fixpoint unlines (lines : list string) : string :=
  match lines with
  | [] => ""
  | l :: lines' => String.append l (String (ascii_of_nat 10) (unlines lines'))
  end.

(** A match as [grep] reports it: the name of the file has no colon, the
    number is written in decimal digits and fits 63 bits, and neither
    the name nor the text has a newline. *)
Definition grepMatch (m : string * string * string) : Prop :=
  let '(file, digits, text) := m in
  ~ In ":"%char (list_ascii_of_string file)
  /\ ~ In (ascii_of_nat 10) (list_ascii_of_string file)
  /\ digits <> "" /\ allDigits digits = true /\ decimal digits < 2 ^ 63
  /\ ~ In (ascii_of_nat 10) (list_ascii_of_string text).

(** ** internal/fs: GetFileTree and SearchFiles *)

(** The exec [GetFileTree] creates. *)
Definition findExec : ExecOptions :=
  {| Cmd := ["find"; "."; "-maxdepth"; "4";
             "-not"; "-path"; "*/.*";
             "-not"; "-path"; "./node_modules*";
             "-exec"; "stat"; "-c"; "%n:%F"; "{}"; "+"];
     AttachStdin := false;
     AttachStdout := true;
     AttachStderr := true;
     Tty := false;
     Env_ := [];
     WorkingDir := "/workspace" |}.

(** The exec [SearchFiles] creates. *)
Definition searchExec (query : string) : ExecOptions :=
  {| Cmd := ["sh"; "-c"; searchCommand query];
     AttachStdin := false;
     AttachStdout := true;
     AttachStderr := true;
     Tty := false;
     Env_ := [];
     WorkingDir := "/workspace" |}.

(** [defer cleanup] before a body that returns a value. *)
Definition deferred {A} (cleanup : M unit) (body : M A) : M A :=
  a <- body ;; cleanup ;;; ret a.

Section Service.

Variable env : Env.

(** What [stdcopy.StdCopy] gives for the stream of the exec: the standard
    output, the standard error, and its error if it fails. *)
Variable copied : string * string * option error.

Definition GetFileTree (containerID : string)
  : M ((list FileNode * list nat) + error) :=
  r <- cli_ContainerExecCreate env containerID findExec ;;
  let (execID, err) := r in
  match err with
  | Some e => ret (inr (wrapError "exec create: " e))
  | None =>
      attachErr <- cli_ContainerExecAttach env execID ;;
      match attachErr with
      | Some e => ret (inr (wrapError "exec attach: " e))
      | None =>
          deferred hijack_Close
            (let '(stdout, stderr, copyErr) := copied in
             match copyErr with
             | Some e => ret (inr (wrapError "read exec output: " e))
             | None =>
                 (if (0 <? Z.of_nat (String.length stderr))
                  then log_Printf "[FileTree] stderr: %s" [stderr]
                  else ret tt) ;;;
                 ret (inl (buildTree stdout))
             end)
      end
  end.

Definition SearchFiles (containerID query : string)
  : M (list SearchResult + error) :=
  if String.eqb query "" then ret (inl [])
  else
    r <- cli_ContainerExecCreate env containerID (searchExec query) ;;
    let (execID, err) := r in
    match err with
    | Some e => ret (inr (wrapError "exec create: " e))
    | None =>
        attachErr <- cli_ContainerExecAttach env execID ;;
        match attachErr with
        | Some e => ret (inr (wrapError "exec attach: " e))
        | None =>
            deferred hijack_Close
              (let '(stdout, stderr, copyErr) := copied in
               match copyErr with
               | Some e => ret (inr (wrapError "read exec output: " e))
               | None =>
                   (if (0 <? Z.of_nat (String.length stderr))
                    then log_Printf "[Search] stderr: %s" [stderr]
                    else ret tt) ;;;
                   ret (inl (parseGrepOutput stdout))
               end)
        end
    end.

End Service.

(** * Theorems *)

(** ** strconv and json on the inputs of the scenarios *)

Example ParseUint_120 : strconv.ParseUint "120" 10 32 = (120, None).
Proof. reflexivity. Qed.

Example ParseUint_zero : strconv.ParseUint "0" 10 32 = (0, None).
Proof. reflexivity. Qed.

Example ParseUint_empty : strconv.ParseUint "" 10 32 = (0, Some strconv.ErrSyntax).
Proof. reflexivity. Qed.

Example ParseUint_signed : strconv.ParseUint "-1" 10 32 = (0, Some strconv.ErrSyntax).
Proof. reflexivity. Qed.

Example ParseUint_range :
  strconv.ParseUint "4294967296" 10 32 = (4294967295, Some strconv.ErrRange).
Proof. reflexivity. Qed.

Example Unmarshal_scenario_B :
  json.Unmarshal (frame "{'type':'resize','cols':120,'rows':40}") zeroMsg
  = Some (mkResizeMsg "resize" 120 40).
Proof. reflexivity. Qed.

Example Unmarshal_folded_names :
  json.Unmarshal (frame "{ 'TYPE' : 'resize', 'Cols' : 12, 'x' : [1, {'a': null}, -0.5e+3] }")
                 zeroMsg
  = Some (mkResizeMsg "resize" 12 0).
Proof. reflexivity. Qed.

Example Unmarshal_last_member_wins :
  json.Unmarshal (frame "{'type':'input','type':'resize'}") zeroMsg
  = Some (mkResizeMsg "resize" 0 0).
Proof. reflexivity. Qed.

Example Unmarshal_type_error :
  json.Unmarshal (frame "{'type':'resize','cols':'80'}") zeroMsg = None.
Proof. reflexivity. Qed.

Example Unmarshal_fraction :
  json.Unmarshal (frame "{'type':'resize','cols':80.0}") zeroMsg = None.
Proof. reflexivity. Qed.

Example Unmarshal_syntax_error :
  json.Unmarshal (frame "{'type':'resize',}") zeroMsg = None.
Proof. reflexivity. Qed.

Example Unmarshal_trailing_text :
  json.Unmarshal (frame "{'type':'resize'} ls") zeroMsg = None.
Proof. reflexivity. Qed.

(** ** resizeHandler *)

Lemma Get_missing (q : gmap string (list string)) (key : string) :
  q !! key = None -> Get q key = "".
Proof. intros H. unfold Get. now rewrite H. Qed.

Lemma badDimension_empty : badDimension "" = true.
Proof. reflexivity. Qed.

Lemma badDimension_zero : badDimension "0" = true.
Proof. reflexivity. Qed.

Lemma resizeHandler_bad_request (env : Env) (r : Request) (tr : trace) :
  Method r = "POST" ->
  Get (Query r) "id" = "" \/ badDimension (Get (Query r) "w") = true
  \/ badDimension (Get (Query r) "h") = true ->
  exists msg, resizeHandler env r tr = (tt, tr ++ [HttpError msg StatusBadRequest]).
Proof.
  intros HM H. unfold resizeHandler, badDimension in *. rewrite HM. simpl.
  destruct (String.eqb_spec (Get (Query r) "id") "") as [Hid | Hid].
  - eexists. reflexivity.
  - destruct (strconv.ParseUint (Get (Query r) "w") 10 32) as [cols ce].
    destruct ((match ce with Some _ => true | None => false end) || (cols =? 0)) eqn:Hw.
    + eexists. reflexivity.
    + destruct (strconv.ParseUint (Get (Query r) "h") 10 32) as [rows re].
      destruct ((match re with Some _ => true | None => false end) || (rows =? 0)) eqn:Hh.
      * eexists. reflexivity.
      * destruct H as [H | [H | H]]; congruence.
Qed.

Lemma resizeHandler_valid (env : Env) (r : Request) (tr : trace) :
  Method r = "POST" ->
  Get (Query r) "id" <> "" ->
  badDimension (Get (Query r) "w") = false ->
  badDimension (Get (Query r) "h") = false ->
  resizeHandler env r tr =
    (tt, tr ++ ContainerResize (Get (Query r) "id")
                               (dimension (Get (Query r) "h"))
                               (dimension (Get (Query r) "w"))
            :: match ContainerResizeErr env (Get (Query r) "id")
                       (dimension (Get (Query r) "h"))
                       (dimension (Get (Query r) "w")) with
               | Some e => [HttpError (String.append "resize failed: " (Error e))
                                      StatusInternalServerError]
               | None => [RespWriteHeader StatusOK; RespWrite (bytes_of_string "ok")]
               end).
Proof.
  intros HM Hid Hw Hh. unfold resizeHandler, badDimension, dimension in *.
  rewrite HM. simpl.
  destruct (String.eqb_spec (Get (Query r) "id") "") as [E | _]; [contradiction |].
  destruct (strconv.ParseUint (Get (Query r) "w") 10 32) as [cols ce].
  rewrite Hw.
  destruct (strconv.ParseUint (Get (Query r) "h") 10 32) as [rows re].
  rewrite Hh. simpl.
  cbv [bind ret call ask cli_ContainerResize http_Error].
  destruct (ContainerResizeErr env (Get (Query r) "id") rows cols);
    rewrite <- ?app_assoc; reflexivity.
Qed.

(** C7, as amended.  For every POST /resize request: the response is 400,
    and [ContainerResize] is not called, when [id] is missing or empty or
    when [w] or [h] is missing, is not an unsigned integer, or is zero;
    when [id] is not empty and both dimensions pass, [ContainerResize] is
    called once with them and the response is 200 with body [ok] when the
    call succeeds and 500 when it fails.  The only check on [id] is that
    it is not empty. *)
Theorem resizeHandler_post (env : Env) (r : Request) (tr : trace) :
  Method r = "POST" ->
  let id := Get (Query r) "id" in
  let w := Get (Query r) "w" in
  let h := Get (Query r) "h" in
  (id = "" \/ badDimension w = true \/ badDimension h = true ->
   exists msg, resizeHandler env r tr = (tt, tr ++ [HttpError msg StatusBadRequest]))
  /\ (Query r !! "id" = None \/ Query r !! "w" = None \/ Query r !! "h" = None ->
      exists msg, resizeHandler env r tr = (tt, tr ++ [HttpError msg StatusBadRequest]))
  /\ (w = "0" \/ h = "0" ->
      exists msg, resizeHandler env r tr = (tt, tr ++ [HttpError msg StatusBadRequest]))
  /\ (id <> "" -> badDimension w = false -> badDimension h = false ->
      resizeHandler env r tr =
        (tt, tr ++ ContainerResize id (dimension h) (dimension w)
                :: match ContainerResizeErr env id (dimension h) (dimension w) with
                   | Some e => [HttpError (String.append "resize failed: " (Error e))
                                          StatusInternalServerError]
                   | None => [RespWriteHeader StatusOK; RespWrite (bytes_of_string "ok")]
                   end)).
Proof.
  intros HM id w h. repeat split.
  - apply resizeHandler_bad_request; assumption.
  - intros H. apply resizeHandler_bad_request; [assumption |].
    destruct H as [H | [H | H]]; apply Get_missing in H; rewrite H; auto.
  - intros H. apply resizeHandler_bad_request; [assumption |].
    destruct H as [H | H]; fold w h; rewrite H; auto.
  - apply resizeHandler_valid; assumption.
Qed.

Lemma resizeHandler_post_witness :
  Method scenarioD = "POST"
  /\ exists msg,
       resizeHandler quietEnv scenarioD [] = (tt, [] ++ [HttpError msg StatusBadRequest]).
Proof.
  split; [reflexivity |].
  apply (proj1 (proj2 (proj2 (resizeHandler_post quietEnv scenarioD [] eq_refl)))).
  left. vm_compute. reflexivity.
Defined.

Example resizeHandler_scenario_D :
  resizeHandler quietEnv scenarioD []
  = (tt, [HttpError (dq "invalid 'w' (cols) parameter") 400]).
Proof. vm_compute. reflexivity. Qed.

(** C7, as the claim states it, asks for 400 when [id] is zero.  The
    request [POST /resize?id=0&w=80&h=24] is not turned down: the id goes
    to [ContainerResize] and the answer is 200. *)
Lemma resizeHandler_id_zero_accepted :
  let r := mkRequest "POST" (query [("id", "0"); ("w", "80"); ("h", "24")]) in
  Get (Query r) "id" = "0"
  /\ snd (resizeHandler quietEnv r [])
     = [ContainerResize "0" 24 80; RespWriteHeader 200; RespWrite (bytes_of_string "ok")]
  /\ forall msg, ~ In (HttpError msg StatusBadRequest) (snd (resizeHandler quietEnv r [])).
Proof.
  vm_compute. split; [reflexivity |]. split; [reflexivity |].
  intros msg [H | [H | [H | []]]]; discriminate H.
Qed.

(** ** The outbound loop *)


(** [buf[:n]] after a read of [n] bytes holds the bytes read, whatever the
    buffer held before. *)
Lemma buffer_prefix (data buf : bytes) :
  firstn (Z.to_nat (len data)) (data ++ skipn (List.length data) buf) = data.
Proof.
  unfold len. rewrite Nat2Z.id. apply take_app_length.
Qed.

Lemma outboundBody_eq (env : Env) (data : bytes) (readErr : option error)
      (buf : bytes) (tr : trace) :
  outboundBody env (data, readErr) buf tr =
    let buf' := data ++ skipn (List.length data) buf in
    let tr1 := tr ++ [ReaderRead data readErr] in
    if 0 <? len data then
      let tr2 := tr1 ++ writeEvents env tr1 data in
      match WriteMessageErr env (ws_frames tr2) with
      | Some e =>
          ((Return, buf'),
           tr2 ++ [Log "[attach] write to websocket failed: %v" [Error e]])
      | None => afterWrite readErr buf' tr2
      end
    else afterWrite readErr buf' tr1.
Proof.
  cbv [outboundBody hijack_Reader_Read bind ret call ask time_Now_
       ws_SetWriteDeadline ws_WriteMessage log_Printf writeEvents afterWrite].
  cbv zeta.
  destruct (0 <? len data) eqn:Hn.
  - rewrite buffer_prefix.
    replace ((tr ++ [ReaderRead data readErr])
               ++ [WsSetWriteDeadline (time_Now env (tr ++ [ReaderRead data readErr])
                                       + writeDeadline);
                   WsWriteMessage websocket.BinaryMessage data])
      with (((tr ++ [ReaderRead data readErr])
               ++ [WsSetWriteDeadline (time_Now env (tr ++ [ReaderRead data readErr])
                                       + writeDeadline)])
              ++ [WsWriteMessage websocket.BinaryMessage data])
      by (rewrite <- !app_assoc; reflexivity).
    destruct (WriteMessageErr env _); [reflexivity |].
    destruct readErr as [[] |]; reflexivity.
  - destruct readErr as [[] |]; reflexivity.
Qed.

Lemma outboundLoop_cons (env : Env) (r : bytes * option error)
      (rest : list (bytes * option error)) (buf : bytes) (tr : trace) :
  outboundLoop env (r :: rest) buf tr =
    match outboundBody env r buf tr with
    | ((Continue, buf'), tr') => outboundLoop env rest buf' tr'
    | ((Return, _), tr') => (Returned, tr')
    end.
Proof.
  simpl. unfold bind at 1.
  destruct (outboundBody env r buf tr) as [[[] buf'] tr']; reflexivity.
Qed.

Lemma framesOf_app (a b : list (bytes * option error)) :
  framesOf (a ++ b) = framesOf a ++ framesOf b.
Proof. unfold framesOf. now rewrite map_app, List.filter_app, map_app. Qed.




(** The loop at any point, when the next read returns [data] and
    [readErr]: the whole of what it does with that result. *)
Lemma outboundLoop_turn (env : Env) (data : bytes) (readErr : option error)
      (rest : list (bytes * option error)) (buf : bytes) (tr : trace) :
  let tr1 := tr ++ [ReaderRead data readErr] in
  let tr2 := tr1 ++ writeEvents env tr1 data in
  let wrote := 0 <? len data in
  let writeErr := if wrote then WriteMessageErr env (ws_frames tr2) else None in
  let trw := if wrote then tr2 else tr1 in
  outboundLoop env ((data, readErr) :: rest) buf tr =
    match writeErr, readErr with
    | Some e, _ =>
        (Returned, tr2 ++ [Log "[attach] write to websocket failed: %v" [Error e]])
    | None, Some io_EOF => (Returned, trw)
    | None, Some e =>
        (Returned, trw ++ [Log "[attach] read from docker failed: %v" [Error e]])
    | None, None => outboundLoop env rest (data ++ skipn (List.length data) buf) trw
    end.
Proof.
  cbv zeta. rewrite outboundLoop_cons, outboundBody_eq. cbv zeta.
  unfold afterWrite.
  destruct (0 <? len data).
  - destruct (WriteMessageErr env _); [reflexivity |].
    destruct readErr as [[] |]; reflexivity.
  - destruct readErr as [[] |]; reflexivity.
Qed.

Lemma logs_app (a b : trace) : logs (a ++ b) = logs a ++ logs b.
Proof. apply flat_map_app. Qed.

Lemma ws_frames_app (a b : trace) : ws_frames (a ++ b) = ws_frames a ++ ws_frames b.
Proof. apply flat_map_app. Qed.

Lemma exec_reads_app (a b : trace) : exec_reads (a ++ b) = exec_reads a ++ exec_reads b.
Proof. apply flat_map_app. Qed.

Lemma conn_writes_app (a b : trace) :
  conn_writes (a ++ b) = conn_writes a ++ conn_writes b.
Proof. apply flat_map_app. Qed.

Lemma exec_resizes_app (a b : trace) :
  exec_resizes (a ++ b) = exec_resizes a ++ exec_resizes b.
Proof. apply flat_map_app. Qed.

Lemma app_eq_self {A} (l k : list A) : l = l ++ k -> k = [].
Proof.
  intros H. apply (f_equal (@List.length A)) in H.
  rewrite length_app in H. destruct k; [reflexivity | simpl in H; lia].
Qed.



(** Scenario A: the runtime emits [hello] and a line feed in one read of
    six bytes, then the stream ends. *)
Example outbound_scenario_A :
  let hello := bytes_of_string "hello" ++ [x0a] in
  outboundLoop quietEnv [(hello, None); ([], Some io_EOF)]
               (repeat x00 (Z.to_nat readBufSize)) []
  = (Returned,
     [ReaderRead hello None;
      WsSetWriteDeadline 10000000000;
      WsWriteMessage websocket.BinaryMessage hello;
      ReaderRead [] (Some io_EOF)]).
Proof. vm_compute. reflexivity. Qed.

Lemma logs_snoc_ne (tr : trace) (f : string) (a : list string) :
  logs (tr ++ [Log f a]) <> logs tr.
Proof.
  rewrite logs_app. simpl. intros H. symmetry in H.
  apply app_eq_self in H. discriminate H.
Qed.

(** C5, as amended.  The loop stands at any point and its next read returns
    [data] and [readErr]; [writeErr] is what the write of [data] returns
    when there is one.  The loop returns without a log line exactly when
    the read returned [io.EOF] and the write, if any, did not fail; another
    read error, the write not having failed, is logged and the loop
    returns; a failed write is logged and the loop returns at once, having
    called [WriteMessage] once, whatever the read returned and whatever
    later reads would return; the loop goes on to its next read exactly
    when neither failed.  Every write comes after a deadline of ten seconds
    from the clock. *)
Theorem outboundLoop_exit (env : Env) (data : bytes) (readErr : option error)
        (buf : bytes) (tr : trace) :
  let tr1 := tr ++ [ReaderRead data readErr] in
  let tr2 := tr1 ++ [WsSetWriteDeadline (time_Now env tr1 + 10 * 1000000000);
                     WsWriteMessage websocket.BinaryMessage data] in
  let writeErr := if 0 <? len data then WriteMessageErr env (ws_frames tr2) else None in
  let run := outboundLoop env [(data, readErr)] buf tr in
  ((fst run = Returned /\ logs (snd run) = logs tr)
   <-> (readErr = Some io_EOF /\ writeErr = None))
  /\ (forall e, readErr = Some e -> e <> io_EOF -> writeErr = None ->
      fst run = Returned
      /\ logs (snd run) = logs tr ++ [("[attach] read from docker failed: %v", [Error e])])
  /\ (forall e, writeErr = Some e ->
      run = (Returned, tr2 ++ [Log "[attach] write to websocket failed: %v" [Error e]])
      /\ forall rest, outboundLoop env ((data, readErr) :: rest) buf tr = run)
  /\ (fst run = Waiting <-> (readErr = None /\ writeErr = None)).
Proof.
  cbv zeta.
  pose proof (fun rest => outboundLoop_turn env data readErr rest buf tr) as Hrun.
  cbv zeta in Hrun. unfold writeEvents in Hrun.
  change writeDeadline with (10 * 1000000000) in Hrun.
  rewrite (Hrun []).
  set (tr1 := tr ++ [ReaderRead data readErr]) in *.
  set (tr2 := tr1 ++ _) in *.
  assert (L1 : logs tr1 = logs tr)
    by (subst tr1; rewrite logs_app; simpl; apply app_nil_r).
  assert (L2 : logs tr2 = logs tr)
    by (subst tr2; rewrite logs_app, L1; simpl; apply app_nil_r).
  set (trw := if 0 <? len data then tr2 else tr1) in *.
  assert (Lw : logs trw = logs tr) by (subst trw; destruct (0 <? len data); assumption).
  set (writeErr := if 0 <? len data then WriteMessageErr env (ws_frames tr2) else None) in *.
  clearbody trw tr1 tr2.
  destruct writeErr as [we |] eqn:Hw.
  - split; [| split; [| split]].
    + split; [intros [_ H] | intros [_ H]; discriminate H].
      simpl in H. rewrite logs_app, L2 in H. symmetry in H.
      apply app_eq_self in H. discriminate H.
    + intros e _ _ H. discriminate H.
    + intros e H. injection H as <-. split; [reflexivity |].
      intros rest. apply Hrun.
    + split; [intros H; discriminate H | intros [_ H]; discriminate H].
  - destruct readErr as [e |].
    + assert (Hret : fst (match e with
                          | io_EOF => (Returned, trw)
                          | _ => (Returned,
                                  trw ++ [Log "[attach] read from docker failed: %v" [Error e]])
                          end) = Returned) by (destruct e; reflexivity).
      split; [| split; [| split]].
      * split.
        -- intros [_ H]. split; [| reflexivity]. destruct e; [reflexivity | |];
             simpl in H; rewrite <- Lw in H; apply logs_snoc_ne in H; contradiction.
        -- intros [H _]. injection H as ->. split; [reflexivity | exact Lw].
      * intros e' H Hne _. injection H as <-. split; [exact Hret |].
        destruct e; [contradiction | |]; simpl; now rewrite logs_app, Lw.
      * intros e' H. discriminate H.
      * rewrite Hret. split; [intros H; discriminate H | intros [H _]; discriminate H].
    + simpl. unfold ret. simpl.
      split; [| split; [| split]].
      * split; [intros [H _]; discriminate H | intros [H _]; discriminate H].
      * intros e H. discriminate H.
      * intros e H. discriminate H.
      * split; auto.
Qed.

Lemma outboundLoop_exit_witness :
  outboundLoop timeoutEnv [(bytes_of_string "x", Some io_EOF)] [] []
  = (Returned,
     [ReaderRead (bytes_of_string "x") (Some io_EOF);
      WsSetWriteDeadline 10000000000;
      WsWriteMessage websocket.BinaryMessage (bytes_of_string "x");
      Log "[attach] write to websocket failed: %v" ["i/o timeout"]]).
Proof.
  apply (proj1 (proj1 (proj2 (proj2
           (outboundLoop_exit timeoutEnv (bytes_of_string "x") (Some io_EOF) [] [])))
         (errorString "i/o timeout") eq_refl)).
Defined.

(** C5, as the claim states it, has the loop return without a log line
    whenever the read returns [io.EOF], and has every other read error
    logged.  When the bytes that came with the read cannot be written, the
    loop logs the failed write and returns before it looks at the read
    error: after a read of one byte with [io.EOF] it has logged an error,
    and after a read of one byte with another error that error is not in
    the log. *)
Lemma outbound_failed_write_hides_read_error :
  let x := bytes_of_string "x" in
  let eof := outboundLoop timeoutEnv [(x, Some io_EOF)] [] [] in
  let reset := outboundLoop timeoutEnv [(x, Some (errorString "connection reset"))] [] [] in
  (fst eof = Returned
   /\ exec_reads (snd eof) = [(x, Some io_EOF)]
   /\ logs (snd eof) = [("[attach] write to websocket failed: %v", ["i/o timeout"])])
  /\ (fst reset = Returned
      /\ exec_reads (snd reset) = [(x, Some (errorString "connection reset"))]
      /\ logs (snd reset) = [("[attach] write to websocket failed: %v", ["i/o timeout"])]).
Proof. vm_compute. repeat split. Qed.

(** ** The inbound loop *)

Section Inbound.

Variable U : bytes -> resizeMsg -> option resizeMsg.
Variable env : Env.
Variable execID : string.

Lemma inboundBody_eq (mt : Z) (payload : bytes) (readErr : option error) (tr : trace) :
  inboundBody U env execID (mt, payload, readErr) tr =
    let tr1 := tr ++ [WsReadMessage mt payload readErr] in
    match readErr with
    | Some e =>
        (Return,
         if websocket.IsUnexpectedCloseError e
              [websocket.CloseGoingAway; websocket.CloseNormalClosure]
         then tr1 ++ [Log "[attach] read from websocket failed: %v" [Error e]]
         else tr1)
    | None =>
        if mt =? websocket.CloseMessage then (Return, tr1)
        else if len payload =? 0 then (Continue, tr1)
        else match resizeCommand U payload with
             | Some msg => (Continue, resizeTurn env execID tr1 msg)
             | None => dataTurn env tr1 payload
             end
    end.
Proof.
  cbv [inboundBody ws_ReadMessage bind ret call ask log_Printf
       cli_ContainerExecResize hijack_Conn_Write resizeCommand resizeTurn dataTurn].
  cbv zeta.
  destruct readErr as [e |].
  - destruct (websocket.IsUnexpectedCloseError e _); reflexivity.
  - destruct (mt =? websocket.CloseMessage); [reflexivity |].
    destruct (len payload =? 0); [reflexivity |].
    destruct (startsWithBrace payload).
    + destruct (U payload zeroMsg) as [msg |].
      * destruct (String.eqb (Type_ msg) "resize").
        -- destruct (ExecResizeErr env _); reflexivity.
        -- destruct (ConnWriteErr env _); reflexivity.
      * destruct (ConnWriteErr env _); reflexivity.
    + destruct (ConnWriteErr env _); reflexivity.
Qed.

Lemma inboundLoop_cons (r : Z * bytes * option error)
      (rest : list (Z * bytes * option error)) (tr : trace) :
  inboundLoop U env execID (r :: rest) tr =
    match inboundBody U env execID r tr with
    | (Continue, tr') => inboundLoop U env execID rest tr'
    | (Return, tr') => (Returned, tr')
    end.
Proof.
  simpl. unfold bind at 1.
  destruct (inboundBody U env execID r tr) as [[] tr']; reflexivity.
Qed.

Lemma inboundLoop_app (a b : list (Z * bytes * option error)) :
  forall tr,
    inboundLoop U env execID (a ++ b) tr =
      match inboundLoop U env execID a tr with
      | (Waiting, tr') => inboundLoop U env execID b tr'
      | (Returned, tr') => (Returned, tr')
      end.
Proof.
  induction a as [| r a IH]; intros tr; [reflexivity |].
  rewrite <- app_comm_cons, !inboundLoop_cons.
  destruct (inboundBody U env execID r tr) as [[] tr']; [apply IH | reflexivity].
Qed.

(** The loop at any point, when the next message is a payload that is
    not empty, in a frame that is not a close frame. *)
Lemma inboundLoop_turn (mt : Z) (b : byte) (body : bytes)
      (rest : list (Z * bytes * option error)) (tr : trace) :
  mt <> websocket.CloseMessage ->
  let payload := b :: body in
  let tr1 := tr ++ [WsReadMessage mt payload None] in
  inboundLoop U env execID ((mt, payload, None) :: rest) tr =
    match resizeCommand U payload with
    | Some msg => inboundLoop U env execID rest (resizeTurn env execID tr1 msg)
    | None =>
        match dataTurn env tr1 payload with
        | (Continue, tr') => inboundLoop U env execID rest tr'
        | (Return, tr') => (Returned, tr')
        end
    end.
Proof.
  intros Hmt. cbv zeta. rewrite inboundLoop_cons, inboundBody_eq. cbv zeta.
  apply Z.eqb_neq in Hmt. rewrite Hmt.
  change (len (b :: body) =? 0) with false. cbv iota.
  destruct (resizeCommand U (b :: body)); reflexivity.
Qed.

Lemma resizeCommand_resize (payload : bytes) (msg : resizeMsg) :
  startsWithBrace payload = true ->
  U payload zeroMsg = Some msg ->
  Type_ msg = "resize" ->
  resizeCommand U payload = Some msg.
Proof.
  intros Hb HU Ht. unfold resizeCommand. rewrite Hb, HU, Ht. reflexivity.
Qed.

(** What a resize turn adds after the read: the call, and a log line
    when the call failed. *)
Lemma resizeTurn_events (tr1 : trace) (msg : resizeMsg) :
  exists l,
    resizeTurn env execID tr1 msg
    = tr1 ++ [ContainerExecResize execID (Rows msg) (Cols msg)] ++ l
    /\ exec_resizes l = [] /\ conn_writes l = [] /\ ws_frames l = [].
Proof.
  unfold resizeTurn. cbv zeta. destruct (ExecResizeErr env _).
  - eexists. rewrite <- app_assoc. split; [reflexivity |]. now repeat split.
  - exists []. now repeat split.
Qed.

Lemma dataTurn_events (tr1 : trace) (payload : bytes) :
  exists l,
    snd (dataTurn env tr1 payload) = tr1 ++ [ConnWrite payload] ++ l
    /\ exec_resizes l = [] /\ conn_writes l = [] /\ ws_frames l = [].
Proof.
  unfold dataTurn. cbv zeta. destruct (ConnWriteErr env _); simpl.
  - eexists. rewrite <- app_assoc. split; [reflexivity |]. now repeat split.
  - exists []. now repeat split.
Qed.

(** A resize frame at any point of the loop: one call, nothing for the
    exec input, and on to the next message. *)
Lemma inboundLoop_resize_turn (mt : Z) (body : bytes) (msg : resizeMsg)
      (rest : list (Z * bytes * option error)) (tr : trace) :
  mt <> websocket.CloseMessage ->
  U ("{"%byte :: body) zeroMsg = Some msg ->
  Type_ msg = "resize" ->
  exists l,
    inboundLoop U env execID ((mt, "{"%byte :: body, None) :: rest) tr
    = inboundLoop U env execID rest
        (tr ++ [WsReadMessage mt ("{"%byte :: body) None;
                ContainerExecResize execID (Rows msg) (Cols msg)] ++ l)
    /\ exec_resizes l = [] /\ conn_writes l = [].
Proof.
  intros Hmt HU Ht.
  rewrite (inboundLoop_turn mt "{"%byte body rest tr Hmt). cbv zeta.
  rewrite (resizeCommand_resize ("{"%byte :: body) msg eq_refl HU Ht).
  destruct (resizeTurn_events (tr ++ [WsReadMessage mt ("{"%byte :: body) None]) msg)
    as (l & Hl & Hr & Hc & _).
  exists l. rewrite Hl, <- !app_assoc. simpl. now repeat split.
Qed.

(** C1, as amended.  The loop stands at any point and reads a payload
    that starts with a brace, in a frame that is not a close frame,
    which [json.Unmarshal] decodes into the struct without an error and
    with type [resize].  It calls
    [ContainerExecResize] once, with the rows and columns of the
    payload, writes nothing to the exec input, and goes on to the next
    message. *)
Theorem inbound_resize_frame (mt : Z) (body : bytes) (msg : resizeMsg)
        (rest : list (Z * bytes * option error)) (tr : trace) :
  let payload := "{"%byte :: body in
  let run := inboundLoop U env execID [(mt, payload, None)] tr in
  mt <> websocket.CloseMessage ->
  U payload zeroMsg = Some msg ->
  Type_ msg = "resize" ->
  (exists l,
      inboundLoop U env execID ((mt, payload, None) :: rest) tr
      = inboundLoop U env execID rest
          (tr ++ [WsReadMessage mt payload None;
                  ContainerExecResize execID (Rows msg) (Cols msg)] ++ l)
      /\ exec_resizes l = [] /\ conn_writes l = [])
  /\ exec_resizes (snd run) = exec_resizes tr ++ [(execID, Rows msg, Cols msg)]
  /\ conn_writes (snd run) = conn_writes tr.
Proof.
  intros payload run Hmt HU Ht. subst run payload.
  split; [now apply inboundLoop_resize_turn |].
  destruct (inboundLoop_resize_turn mt body msg [] tr Hmt HU Ht) as (l & -> & Hr & Hc).
  cbn [inboundLoop ret snd].
  rewrite !exec_resizes_app, !conn_writes_app, Hr, Hc. simpl.
  now rewrite !app_nil_r.
Qed.


(** The trace of the loop after one payload and no further message. *)
Lemma inboundLoop_single (mt : Z) (b : byte) (body : bytes) (tr : trace) :
  mt <> websocket.CloseMessage ->
  let payload := b :: body in
  let tr1 := tr ++ [WsReadMessage mt payload None] in
  snd (inboundLoop U env execID [(mt, payload, None)] tr) =
    match resizeCommand U payload with
    | Some msg => resizeTurn env execID tr1 msg
    | None => snd (dataTurn env tr1 payload)
    end.
Proof.
  intros Hmt. cbv zeta. rewrite (inboundLoop_turn mt b body [] tr Hmt). cbv zeta.
  destruct (resizeCommand U (b :: body)); [reflexivity |].
  destruct (dataTurn _ _ _) as [[] tr']; reflexivity.
Qed.

(** C4.  The loop stands at any point and reads a payload that is not
    empty, in a frame that is not a close frame.  The payload is written
    to the exec input, as it is and once, exactly when it is not taken
    as a resize command, that is exactly when no resize call is made for
    it.  A payload that does not start with a brace is written whatever
    [json.Unmarshal] would say of it; one that starts with a brace is
    written when [json.Unmarshal] fails and when it succeeds with a type
    that is not [resize]. *)
Theorem inbound_data_frame (mt : Z) (b : byte) (body : bytes) (tr : trace) :
  mt <> websocket.CloseMessage ->
  let payload := b :: body in
  let run := inboundLoop U env execID [(mt, payload, None)] tr in
  let forwarded :=
    exists l, snd run = tr ++ [WsReadMessage mt payload None; ConnWrite payload] ++ l
              /\ exec_resizes l = [] /\ conn_writes l = [] in
  (forwarded <-> resizeCommand U payload = None)
  /\ (forwarded <-> exec_resizes (snd run) = exec_resizes tr)
  /\ (forwarded \/ conn_writes (snd run) = conn_writes tr)
  /\ (byte_val b <> 123 ->
      forwarded
      /\ run = match dataTurn env (tr ++ [WsReadMessage mt payload None]) payload with
               | (Continue, tr') => (Waiting, tr')
               | (Return, tr') => (Returned, tr')
               end)
  /\ (U payload zeroMsg = None -> forwarded)
  /\ (forall msg, U payload zeroMsg = Some msg -> Type_ msg <> "resize" -> forwarded).
Proof.
  intros Hmt payload run forwarded.
  assert (Hrun : snd run = _) by (apply inboundLoop_single; exact Hmt).
  cbv zeta in Hrun. fold payload in Hrun.
  assert (Hdata : resizeCommand U payload = None -> forwarded).
  { intros Hc. rewrite Hc in Hrun.
    destruct (dataTurn_events (tr ++ [WsReadMessage mt payload None]) payload)
      as (l & Hl & Hr & Hw & _).
    exists l. rewrite Hrun, Hl, <- !app_assoc. now repeat split. }
  assert (Hres : forall msg, resizeCommand U payload = Some msg ->
                   ~ forwarded
                   /\ exec_resizes (snd run) <> exec_resizes tr
                   /\ conn_writes (snd run) = conn_writes tr).
  { intros msg Hc. rewrite Hc in Hrun.
    destruct (resizeTurn_events (tr ++ [WsReadMessage mt payload None]) msg)
      as (l & Hl & Hr & Hw & _).
    rewrite Hl, <- !app_assoc in Hrun. split; [| split].
    - intros (l' & Hl' & _). rewrite Hrun in Hl'.
      apply app_inv_head in Hl'. simpl in Hl'. discriminate Hl'.
    - rewrite Hrun, !exec_resizes_app, Hr. simpl. intros H.
      symmetry in H. apply app_eq_self in H. discriminate H.
    - rewrite Hrun, !conn_writes_app, Hw. simpl. now rewrite app_nil_r. }
  assert (Hfwd : forwarded -> exec_resizes (snd run) = exec_resizes tr).
  { intros (l & Hl & Hr & _). rewrite Hl, !exec_resizes_app, Hr. simpl.
    now rewrite app_nil_r. }
  split; [| split; [| split; [| split; [| split]]]].
  - split; [| exact Hdata].
    intros Hf. destruct (resizeCommand U payload) as [msg |] eqn:Hc; [| reflexivity].
    destruct (Hres msg eq_refl) as [Hn _]. contradiction.
  - split; [exact Hfwd |].
    intros He. destruct (resizeCommand U payload) as [msg |] eqn:Hc; [| now apply Hdata].
    destruct (Hres msg eq_refl) as (_ & Hn & _). contradiction.
  - destruct (resizeCommand U payload) as [msg |] eqn:Hc; [| left; now apply Hdata].
    right. now destruct (Hres msg eq_refl) as (_ & _ & Hw).
  - intros Hb. apply Z.eqb_neq in Hb. split.
    + apply Hdata. unfold resizeCommand, payload, startsWithBrace. now rewrite Hb.
    + subst run payload.
      rewrite (inboundLoop_turn mt b body [] tr Hmt). cbv zeta.
      unfold resizeCommand, startsWithBrace. rewrite Hb.
      destruct (dataTurn _ _ _) as [[] tr']; reflexivity.
  - intros HU. apply Hdata. unfold resizeCommand. rewrite HU.
    now destruct (startsWithBrace payload).
  - intros msg HU Ht. apply Hdata. unfold resizeCommand. rewrite HU.
    apply String.eqb_neq in Ht. rewrite Ht.
    now destruct (startsWithBrace payload).
Qed.

(** Whether a turn of the loop goes on, and what it writes to the exec
    input, depend on the trace only through what has been written to
    the exec input before. *)
Lemma inboundBody_conn (r : Z * bytes * option error) (tr tr' : trace) :
  conn_writes tr = conn_writes tr' ->
  fst (inboundBody U env execID r tr) = fst (inboundBody U env execID r tr')
  /\ conn_writes (snd (inboundBody U env execID r tr))
     = conn_writes (snd (inboundBody U env execID r tr')).
Proof.
  intros H. destruct r as [[mt payload] readErr]. rewrite !inboundBody_eq. cbv zeta.
  assert (H1 : conn_writes (tr ++ [WsReadMessage mt payload readErr])
               = conn_writes (tr' ++ [WsReadMessage mt payload readErr]))
    by (rewrite !conn_writes_app, H; reflexivity).
  destruct readErr as [e |].
  - destruct (websocket.IsUnexpectedCloseError e _); simpl;
      rewrite ?conn_writes_app, ?H; auto.
  - destruct (mt =? websocket.CloseMessage); [now split |].
    destruct (len payload =? 0); [now split |].
    destruct (resizeCommand U payload) as [msg |].
    + split; [reflexivity |]. simpl.
      destruct (resizeTurn_events (tr ++ [WsReadMessage mt payload None]) msg)
        as (l & -> & _ & Hl & _).
      destruct (resizeTurn_events (tr' ++ [WsReadMessage mt payload None]) msg)
        as (l' & -> & _ & Hl' & _).
      rewrite !conn_writes_app, Hl, Hl', H. reflexivity.
    + unfold dataTurn. cbv zeta. rewrite !conn_writes_app, H.
      destruct (ConnWriteErr env _); simpl;
        rewrite ?conn_writes_app, ?H; simpl; auto.
Qed.

Lemma inboundLoop_conn (results : list (Z * bytes * option error)) :
  forall tr tr',
    conn_writes tr = conn_writes tr' ->
    fst (inboundLoop U env execID results tr) = fst (inboundLoop U env execID results tr')
    /\ conn_writes (snd (inboundLoop U env execID results tr))
       = conn_writes (snd (inboundLoop U env execID results tr')).
Proof.
  induction results as [| r results IH]; intros tr tr' H; [now split |].
  rewrite !inboundLoop_cons.
  destruct (inboundBody_conn r tr tr' H) as [Hf Hc].
  destruct (inboundBody U env execID r tr) as [f1 t1],
           (inboundBody U env execID r tr') as [f2 t2].
  simpl in Hf, Hc. subst f2. destruct f1; [now apply IH | now split].
Qed.

(** The inbound goroutine writes no frame to the transport. *)
Lemma inboundBody_ws_frames (r : Z * bytes * option error) (tr : trace) :
  ws_frames (snd (inboundBody U env execID r tr)) = ws_frames tr.
Proof.
  destruct r as [[mt payload] readErr]. rewrite inboundBody_eq. cbv zeta.
  destruct readErr as [e |].
  - destruct (websocket.IsUnexpectedCloseError e _); simpl;
      rewrite !ws_frames_app; simpl; now rewrite ?app_nil_r.
  - destruct (mt =? websocket.CloseMessage);
      [simpl; rewrite ws_frames_app; simpl; now rewrite app_nil_r |].
    destruct (len payload =? 0);
      [simpl; rewrite ws_frames_app; simpl; now rewrite app_nil_r |].
    destruct (resizeCommand U payload) as [msg |].
    + simpl.
      destruct (resizeTurn_events (tr ++ [WsReadMessage mt payload None]) msg)
        as (l & -> & _ & _ & Hl).
      rewrite !ws_frames_app, Hl. simpl. now rewrite !app_nil_r.
    + destruct (dataTurn_events (tr ++ [WsReadMessage mt payload None]) payload)
        as (l & -> & _ & _ & Hl).
      rewrite !ws_frames_app, Hl. simpl. now rewrite !app_nil_r.
Qed.

Lemma inboundStep_ws_frames (g : inboundState) (tr : trace) :
  ws_frames (snd (inboundStep U env execID g tr)) = ws_frames tr.
Proof.
  destruct g as [[| r rest] |]; try reflexivity.
  unfold inboundStep, bind.
  pose proof (inboundBody_ws_frames r tr) as H.
  destruct (inboundBody U env execID r tr) as [[] tr1]; simpl in *; [exact H |].
  unfold cancel, wg_Done, call, ret. simpl.
  rewrite !ws_frames_app, H. simpl. now rewrite !app_nil_r.
Qed.

(** What the outbound goroutine does next, and the frames it has written
    after that, depend on the trace only through the frames written
    before. *)
Lemma outboundStep_ws_frames (g : outboundState) (tr tr' : trace) :
  ws_frames tr = ws_frames tr' ->
  fst (outboundStep env g tr) = fst (outboundStep env g tr')
  /\ ws_frames (snd (outboundStep env g tr)) = ws_frames (snd (outboundStep env g tr')).
Proof.
  intros H. destruct g as [[| [data readErr] rest] buf |]; try (now split).
  unfold outboundStep, bind. rewrite !outboundBody_eq. cbv zeta.
  unfold writeEvents, afterWrite, cancel, wg_Done, call, ret.
  assert (H1 : ws_frames (tr ++ [ReaderRead data readErr])
               = ws_frames (tr' ++ [ReaderRead data readErr]))
    by (rewrite !ws_frames_app, H; reflexivity).
  destruct (0 <? len data).
  - rewrite !(ws_frames_app (_ ++ [ReaderRead data readErr])), H1. simpl.
    destruct (WriteMessageErr env _); simpl.
    + rewrite !ws_frames_app, H. simpl. now split.
    + destruct readErr as [[] |]; simpl; rewrite !ws_frames_app, ?H; simpl; now split.
  - destruct readErr as [[] |]; simpl; rewrite !ws_frames_app, ?H; simpl; now split.
Qed.

(** The frames the transport is given do not depend on what the inbound
    goroutine has to read. *)
Lemma pipes_ws_frames (sched : list goroutine) :
  forall (o : outboundState) (i i' : inboundState) (tr tr' : trace),
    ws_frames tr = ws_frames tr' ->
    ws_frames (snd (pipes U env execID sched o i tr))
    = ws_frames (snd (pipes U env execID sched o i' tr')).
Proof.
  induction sched as [| [] sched IH]; intros o i i' tr tr' H; [exact H | |].
  - simpl. unfold bind.
    destruct (outboundStep_ws_frames o tr tr' H) as [Ho Hf].
    destruct (outboundStep env o tr) as [o1 t1], (outboundStep env o tr') as [o2 t2].
    simpl in Ho, Hf. subst o2. now apply IH.
  - simpl. unfold bind.
    pose proof (inboundStep_ws_frames i tr) as H1.
    pose proof (inboundStep_ws_frames i' tr') as H2.
    destruct (inboundStep U env execID i tr) as [i1 t1],
             (inboundStep U env execID i' tr') as [i2 t2].
    simpl in H1, H2. apply IH. congruence.
Qed.


End Inbound.

Lemma inbound_resize_frame_witness :
  let run := inboundLoop json.Unmarshal quietEnv "exec1"
                         [(websocket.TextMessage, scenarioB, None)] [] in
  exec_resizes (snd run) = exec_resizes [] ++ [("exec1", 40, 120)]
  /\ conn_writes (snd run) = conn_writes [].
Proof.
  refine (proj2 (inbound_resize_frame json.Unmarshal quietEnv "exec1"
                   websocket.TextMessage (tl scenarioB) (mkResizeMsg "resize" 120 40)
                   [] [] _ _ _)).
  - discriminate.
  - vm_compute. reflexivity.
  - reflexivity.
Defined.

(** C1, as the claim states it, asks only that the payload parse as JSON
    with the type [resize].  The frame with type resize, rows 24 and
    cols the string 80 is a JSON object with that type, and
    [json.Unmarshal] returns an error for it, the string being no
    [uint]: the test of the loop fails, no resize call is made and the
    bytes of the frame are written to the exec input. *)
Lemma inbound_resize_quoted_dimension :
  let payload := frame "{'type':'resize','cols':'80','rows':24}" in
  let run := inboundLoop json.Unmarshal quietEnv "exec1"
                         [(websocket.TextMessage, payload, None)] [] in
  hd_error payload = Some "{"%byte
  /\ json.parse payload
     = Some (json.Object
               [(bytes_of_string "type", json.Str (bytes_of_string "resize"));
                (bytes_of_string "cols", json.Str (bytes_of_string "80"));
                (bytes_of_string "rows", json.Number (bytes_of_string "24"))])
  /\ json.Unmarshal payload zeroMsg = None
  /\ run = (Waiting,
            [WsReadMessage websocket.TextMessage payload None; ConnWrite payload])
  /\ exec_resizes (snd run) = []
  /\ conn_writes (snd run) = [payload].
Proof. vm_compute. repeat split. Qed.

Example inbound_scenario_B :
  inboundLoop json.Unmarshal quietEnv "exec1"
              [(websocket.TextMessage, scenarioB, None)] []
  = (Waiting,
     [WsReadMessage websocket.TextMessage scenarioB None;
      ContainerExecResize "exec1" 40 120]).
Proof. vm_compute. reflexivity. Qed.


Example inbound_resize_failure_run :
  inboundLoop json.Unmarshal resizeFailEnv "exec1"
              [(websocket.TextMessage, scenarioB, None);
               (websocket.TextMessage, bytes_of_string "ls", None)] []
  = (Waiting,
     [WsReadMessage websocket.TextMessage scenarioB None;
      ContainerExecResize "exec1" 40 120;
      Log "[attach] resize failed: %v" ["no such exec"];
      WsReadMessage websocket.TextMessage (bytes_of_string "ls") None;
      ConnWrite (bytes_of_string "ls")]).
Proof. vm_compute. reflexivity. Qed.

Lemma inbound_data_frame_witness :
  let payload := frame "{'type':'input','data':'ls'}" in
  exists l,
    snd (inboundLoop json.Unmarshal quietEnv "exec1"
                     [(websocket.TextMessage, payload, None)] [])
    = [] ++ [WsReadMessage websocket.TextMessage payload None; ConnWrite payload] ++ l
    /\ exec_resizes l = [] /\ conn_writes l = [].
Proof.
  refine (proj2 (proj2 (proj2 (proj2 (proj2
           (inbound_data_frame json.Unmarshal quietEnv "exec1" websocket.TextMessage
              "{"%byte (tl (frame "{'type':'input','data':'ls'}")) [] _)))))
           (mkResizeMsg "input" 0 0) _ _).
  - discriminate.
  - vm_compute. reflexivity.
  - discriminate.
Defined.

Example inbound_malformed_json_forwarded :
  let payload := frame "{'type':'resize','cols':80" in
  inboundLoop json.Unmarshal quietEnv "exec1"
              [(websocket.TextMessage, payload, None)] []
  = (Waiting, [WsReadMessage websocket.TextMessage payload None; ConnWrite payload]).
Proof. vm_compute. reflexivity. Qed.

Example resize_twice_run :
  let f := (websocket.TextMessage, scenarioB, @None error) in
  let a := (websocket.TextMessage, bytes_of_string "a", @None error) in
  let b := (websocket.TextMessage, bytes_of_string "b", @None error) in
  snd (inboundLoop json.Unmarshal quietEnv "exec1" [a; f; f; b] [])
  = [WsReadMessage websocket.TextMessage (bytes_of_string "a") None;
     ConnWrite (bytes_of_string "a");
     WsReadMessage websocket.TextMessage scenarioB None;
     ContainerExecResize "exec1" 40 120;
     WsReadMessage websocket.TextMessage scenarioB None;
     ContainerExecResize "exec1" 40 120;
     WsReadMessage websocket.TextMessage (bytes_of_string "b") None;
     ConnWrite (bytes_of_string "b")].
Proof. vm_compute. reflexivity. Qed.

(** C10.  The inline path does not check the dimensions.  The frame
    with type resize and cols and rows zero, and the frame with type
    resize and neither cols nor rows, both decode, the second with the
    zero its missing members leave in the struct.  The loop that stands
    at any point and reads either of them calls [ContainerExecResize]
    once, with height and width zero, logs the error if the call fails,
    writes nothing to the exec input and goes on to the next message.
    The /resize endpoint turns a zero down, with no call. *)
Theorem inline_resize_unvalidated (env : Env) (execID : string)
        (rest : list (Z * bytes * option error)) (tr : trace) :
  let zeros := frame "{'type':'resize','cols':0,'rows':0}" in
  let bare := frame "{'type':'resize'}" in
  let taken (payload : bytes) :=
    let tr2 := tr ++ [WsReadMessage websocket.TextMessage payload None;
                      ContainerExecResize execID 0 0] in
    let tr3 := match ExecResizeErr env (exec_resizes tr2) with
               | Some e => tr2 ++ [Log "[attach] resize failed: %v" [Error e]]
               | None => tr2
               end in
    let run := inboundLoop json.Unmarshal env execID
                           [(websocket.TextMessage, payload, None)] tr in
    run = (Waiting, tr3)
    /\ exec_resizes (snd run) = exec_resizes tr ++ [(execID, 0, 0)]
    /\ conn_writes (snd run) = conn_writes tr
    /\ inboundLoop json.Unmarshal env execID
                   ((websocket.TextMessage, payload, None) :: rest) tr
       = inboundLoop json.Unmarshal env execID rest tr3 in
  json.Unmarshal zeros zeroMsg = Some (mkResizeMsg "resize" 0 0)
  /\ json.Unmarshal bare zeroMsg = Some (mkResizeMsg "resize" 0 0)
  /\ taken zeros
  /\ taken bare
  /\ badDimension "0" = true
  /\ (forall tr0 : trace,
        resizeHandler env scenarioD tr0
        = (tt, tr0 ++ [HttpError (dq "invalid 'w' (cols) parameter") StatusBadRequest])).
Proof.
  cbv zeta.
  assert (Hz : json.Unmarshal (frame "{'type':'resize','cols':0,'rows':0}") zeroMsg
               = Some (mkResizeMsg "resize" 0 0)) by (vm_compute; reflexivity).
  assert (Hb : json.Unmarshal (frame "{'type':'resize'}") zeroMsg
               = Some (mkResizeMsg "resize" 0 0)) by (vm_compute; reflexivity).
  assert (Htaken : forall body : bytes,
            json.Unmarshal ("{"%byte :: body) zeroMsg = Some (mkResizeMsg "resize" 0 0) ->
            forall rest' : list (Z * bytes * option error),
              inboundLoop json.Unmarshal env execID
                          ((websocket.TextMessage, "{"%byte :: body, None) :: rest') tr
              = inboundLoop json.Unmarshal env execID rest'
                  (match ExecResizeErr env
                           (exec_resizes
                              (tr ++ [WsReadMessage websocket.TextMessage
                                        ("{"%byte :: body) None;
                                      ContainerExecResize execID 0 0])) with
                   | Some e =>
                       (tr ++ [WsReadMessage websocket.TextMessage ("{"%byte :: body) None;
                               ContainerExecResize execID 0 0])
                         ++ [Log "[attach] resize failed: %v" [Error e]]
                   | None =>
                       tr ++ [WsReadMessage websocket.TextMessage ("{"%byte :: body) None;
                              ContainerExecResize execID 0 0]
                   end)).
  { intros body HU rest'.
    rewrite (inboundLoop_turn json.Unmarshal env execID websocket.TextMessage
               "{"%byte body rest' tr ltac:(discriminate)).
    cbv zeta.
    rewrite (resizeCommand_resize json.Unmarshal ("{"%byte :: body)
               (mkResizeMsg "resize" 0 0) eq_refl HU eq_refl).
    unfold resizeTurn. cbv zeta. cbn [Rows Cols].
    now rewrite <- !app_assoc. }
  assert (Hall : forall body : bytes,
            json.Unmarshal ("{"%byte :: body) zeroMsg = Some (mkResizeMsg "resize" 0 0) ->
            let payload := "{"%byte :: body in
            let tr2 := tr ++ [WsReadMessage websocket.TextMessage payload None;
                              ContainerExecResize execID 0 0] in
            let tr3 := match ExecResizeErr env (exec_resizes tr2) with
                       | Some e => tr2 ++ [Log "[attach] resize failed: %v" [Error e]]
                       | None => tr2
                       end in
            let run := inboundLoop json.Unmarshal env execID
                                   [(websocket.TextMessage, payload, None)] tr in
            run = (Waiting, tr3)
            /\ exec_resizes (snd run) = exec_resizes tr ++ [(execID, 0, 0)]
            /\ conn_writes (snd run) = conn_writes tr
            /\ inboundLoop json.Unmarshal env execID
                           ((websocket.TextMessage, payload, None) :: rest) tr
               = inboundLoop json.Unmarshal env execID rest tr3).
  { intros body HU. cbv zeta. rewrite !(Htaken body HU). cbn [inboundLoop ret snd].
    split; [reflexivity |].
    destruct (ExecResizeErr env _);
      rewrite !exec_resizes_app, !conn_writes_app; cbn; rewrite ?app_nil_r;
      now repeat split. }
  split; [exact Hz |]. split; [exact Hb |].
  split; [exact (Hall (tl (frame "{'type':'resize','cols':0,'rows':0}")) Hz) |].
  split; [exact (Hall (tl (frame "{'type':'resize'}")) Hb) |].
  split; [reflexivity |].
  intros tr0. vm_compute. reflexivity.
Qed.

(** ** attachHandler: set-up and tear-down *)

Lemma closes_app (a b : trace) : closes (a ++ b) = closes a ++ closes b.
Proof. apply List.filter_app. Qed.

Lemma wg_dones_app (a b : trace) : wg_dones (a ++ b) = (wg_dones a + wg_dones b)%nat.
Proof. unfold wg_dones. now rewrite List.filter_app, length_app. Qed.

Section Attach.

Variable U : bytes -> resizeMsg -> option resizeMsg.
Variable env : Env.

(** A turn of either loop closes nothing and calls no [wg.Done()]. *)
Lemma outboundBody_quiet (r : bytes * option error) (buf : bytes) (tr : trace) :
  closes (snd (outboundBody env r buf tr)) = closes tr
  /\ wg_dones (snd (outboundBody env r buf tr)) = wg_dones tr.
Proof.
  destruct r as [data readErr]. rewrite outboundBody_eq. cbv zeta.
  unfold writeEvents, afterWrite.
  destruct (0 <? len data).
  - destruct (WriteMessageErr env _); [| destruct readErr as [[] |]]; simpl;
      unfold closes, wg_dones; rewrite ?List.filter_app, ?length_app; simpl;
      rewrite ?app_nil_r; split; try reflexivity; lia.
  - destruct readErr as [[] |]; simpl;
      unfold closes, wg_dones; rewrite ?List.filter_app, ?length_app; simpl;
      rewrite ?app_nil_r; split; try reflexivity; lia.
Qed.

Lemma inboundBody_quiet (execID : string) (r : Z * bytes * option error) (tr : trace) :
  closes (snd (inboundBody U env execID r tr)) = closes tr
  /\ wg_dones (snd (inboundBody U env execID r tr)) = wg_dones tr.
Proof.
  destruct r as [[mt payload] readErr]. rewrite inboundBody_eq. cbv zeta.
  unfold resizeTurn, dataTurn.
  destruct readErr as [e |].
  - destruct (websocket.IsUnexpectedCloseError e _); simpl;
      unfold closes, wg_dones; rewrite ?List.filter_app, ?length_app; simpl;
      rewrite ?app_nil_r; split; try reflexivity; lia.
  - destruct (mt =? websocket.CloseMessage);
      [| destruct (len payload =? 0);
         [| destruct (resizeCommand U payload);
            [destruct (ExecResizeErr env _) | destruct (ConnWriteErr env _)]]];
      simpl; unfold closes, wg_dones; rewrite ?List.filter_app, ?length_app; simpl;
      rewrite ?app_nil_r; split; try reflexivity; lia.
Qed.

(** A goroutine calls [wg.Done()] once, as it returns, and closes
    nothing. *)
Lemma outboundStep_done (o : outboundState) (tr : trace) :
  let (o', tr') := outboundStep env o tr in
  closes tr' = closes tr
  /\ (wg_dones tr' + outDone o = wg_dones tr + outDone o')%nat.
Proof.
  destruct o as [[| r rest] buf |]; simpl; try (split; [reflexivity | lia]).
  unfold bind. destruct (outboundBody_quiet r buf tr) as [Hc Hd].
  destruct (outboundBody env r buf tr) as [[[] buf'] tr1]; simpl in *.
  - split; [exact Hc | lia].
  - unfold cancel, wg_Done, call, ret. simpl.
    rewrite !closes_app, !wg_dones_app, Hc, Hd. unfold closes, wg_dones. simpl.
    rewrite !app_nil_r. split; [reflexivity | lia].
Qed.

Lemma inboundStep_done (execID : string) (i : inboundState) (tr : trace) :
  let (i', tr') := inboundStep U env execID i tr in
  closes tr' = closes tr
  /\ (wg_dones tr' + inDone i = wg_dones tr + inDone i')%nat.
Proof.
  destruct i as [[| r rest] |]; simpl; try (split; [reflexivity | lia]).
  unfold bind. destruct (inboundBody_quiet execID r tr) as [Hc Hd].
  destruct (inboundBody U env execID r tr) as [[] tr1]; simpl in *.
  - split; [exact Hc | lia].
  - unfold cancel, wg_Done, call, ret. simpl.
    rewrite !closes_app, !wg_dones_app, Hc, Hd. unfold closes, wg_dones. simpl.
    rewrite !app_nil_r. split; [reflexivity | lia].
Qed.

(** While the goroutines run nothing is closed, and the calls of
    [wg.Done()] count the goroutines that have returned. *)
Lemma pipes_done (execID : string) (sched : list goroutine) :
  forall (o : outboundState) (i : inboundState) (tr : trace),
    let '((o', i'), tr') := pipes U env execID sched o i tr in
    closes tr' = closes tr
    /\ (wg_dones tr' + outDone o + inDone i
        = wg_dones tr + outDone o' + inDone i')%nat.
Proof.
  induction sched as [| [] sched IH]; intros o i tr; simpl.
  - split; [reflexivity | lia].
  - unfold bind. pose proof (outboundStep_done o tr) as H.
    destruct (outboundStep env o tr) as [o1 tr1]. destruct H as [Hc Hd].
    specialize (IH o1 i tr1).
    destruct (pipes U env execID sched o1 i tr1) as [[o' i'] tr'].
    destruct IH as [Hc' Hd']. split; [congruence | lia].
  - unfold bind. pose proof (inboundStep_done execID i tr) as H.
    destruct (inboundStep U env execID i tr) as [i1 tr1]. destruct H as [Hc Hd].
    specialize (IH o i1 tr1).
    destruct (pipes U env execID sched o i1 tr1) as [[o' i'] tr'].
    destruct IH as [Hc' Hd']. split; [congruence | lia].
Qed.

(** The handler once the exec is created and attached: it starts the
    goroutines, waits for both and then runs its deferred calls. *)
Lemma attachHandler_attached (r : Request) (execID : string) :
  Get (Query r) "id" <> "" ->
  UpgradeErr env = None ->
  ExecCreateRes env (Get (Query r) "id") = (execID, None) ->
  ExecAttachErr env execID = None ->
  attachHandler U env r [] =
    match pipes U env execID (schedule env)
                (OutRunning (ReadResults env) (repeat x00 (Z.to_nat readBufSize)))
                (InRunning (ReadMessageResults env))
                (attached (Get (Query r) "id") execID) with
    | ((OutDone, InDone), tr) =>
        (Returned,
         tr ++ [WgWait;
                Log "[attach] session ended for container %s (exec %s)"
                    [Get (Query r) "id"; execID];
                HijackClose; Cancel; WsClose])
    | (_, tr) => (Waiting, tr)
    end.
Proof.
  intros Hid Hup Hcreate Hattach. unfold attachHandler.
  apply String.eqb_neq in Hid. rewrite Hid.
  cbv [bind upgrader_Upgrade ask defer log_Printf call cli_ContainerExecCreate
       cli_ContainerExecAttach ret].
  rewrite Hup, Hcreate, Hattach. simpl app. fold (attached (Get (Query r) "id") execID).
  destruct (pipes U env execID _ _ _ _) as [[[] []] tr]; try reflexivity.
  cbv [wg_Wait bind call ret hijack_Close cancel ws_Close]. 
  rewrite <- !app_assoc. reflexivity.
Qed.


(** C6.  When the exec cannot be created, and when it is created but
    cannot be attached, the handler writes one text frame that says so
    and returns: it has made each Docker call once, it has read nothing
    from either side, and its only clean-up is [cancel()] and
    [ws.Close()]; in the first case no call but the failed
    [ContainerExecCreate] was made to Docker.  This is so whatever the
    rest of the environment holds. *)
Theorem attach_start_failure (r : Request) :
  Get (Query r) "id" <> "" ->
  UpgradeErr env = None ->
  let id := Get (Query r) "id" in
  (forall execID e,
      ExecCreateRes env id = (execID, Some e) ->
      attachHandler U env r [] =
        (Returned,
         [Upgrade;
          Log "[attach] creating exec in container %s" [id];
          ContainerExecCreate id shellExec;
          Log "[attach] exec create error: %v" [Error e];
          WsWriteMessage websocket.TextMessage
            (bytes_of_string (String.append "exec create error: " (Error e)));
          Cancel; WsClose]))
  /\ (forall execID e,
        ExecCreateRes env id = (execID, None) ->
        ExecAttachErr env execID = Some e ->
        attachHandler U env r [] =
          (Returned,
           [Upgrade;
            Log "[attach] creating exec in container %s" [id];
            ContainerExecCreate id shellExec;
            ContainerExecAttach execID;
            Log "[attach] exec attach error: %v" [Error e];
            WsWriteMessage websocket.TextMessage
              (bytes_of_string (String.append "exec attach error: " (Error e)));
            Cancel; WsClose])).
Proof.
  intros Hid Hup id. subst id. apply String.eqb_neq in Hid. split.
  - intros execID e Hcreate. unfold attachHandler. rewrite Hid.
    cbv [bind upgrader_Upgrade ask defer log_Printf call cli_ContainerExecCreate
         ws_WriteMessage cancel ws_Close ret].
    rewrite Hup, Hcreate. reflexivity.
  - intros execID e Hcreate Hattach. unfold attachHandler. rewrite Hid.
    cbv [bind upgrader_Upgrade ask defer log_Printf call cli_ContainerExecCreate
         cli_ContainerExecAttach ws_WriteMessage cancel ws_Close ret].
    rewrite Hup, Hcreate, Hattach. reflexivity.
Qed.

End Attach.

Example attach_session_run :
  attachHandler json.Unmarshal sessionEnv attachRequest []
  = (Returned,
     [Upgrade;
      Log "[attach] creating exec in container %s" ["abc123"];
      ContainerExecCreate "abc123" shellExec;
      ContainerExecAttach "exec1";
      Log "[attach] attached to exec %s in container %s, starting bidirectional pipe"
          ["exec1"; "abc123"];
      ReaderRead (bytes_of_string "$ ") None;
      WsSetWriteDeadline 10000000000;
      WsWriteMessage websocket.BinaryMessage (bytes_of_string "$ ");
      WsReadMessage websocket.TextMessage (bytes_of_string "ls") None;
      ConnWrite (bytes_of_string "ls");
      WsReadMessage websocket.TextMessage scenarioB None;
      ContainerExecResize "exec1" 40 120;
      ReaderRead [] (Some io_EOF);
      Cancel; WgDone;
      WsReadMessage (-1) []
        (Some (CloseError websocket.CloseNormalClosure "websocket: close 1000 (normal)"));
      Cancel; WgDone;
      WgWait;
      Log "[attach] session ended for container %s (exec %s)" ["abc123"; "exec1"];
      HijackClose; Cancel; WsClose]).
Proof. vm_compute. reflexivity. Qed.

Lemma attach_start_failure_witness :
  attachHandler json.Unmarshal createFailEnv attachRequest [] =
    (Returned,
     [Upgrade;
      Log "[attach] creating exec in container %s" ["abc123"];
      ContainerExecCreate "abc123" shellExec;
      Log "[attach] exec create error: %v" ["No such container: abc123"];
      WsWriteMessage websocket.TextMessage
        (bytes_of_string "exec create error: No such container: abc123");
      Cancel; WsClose]).
Proof.
  refine (proj1 (attach_start_failure json.Unmarshal createFailEnv attachRequest _ _)
                "" (errorString "No such container: abc123") _).
  - vm_compute. discriminate.
  - reflexivity.
  - reflexivity.
Defined.

(** Scenario C: [GET /attach] without an id is answered 400 before any
    upgrade. *)
Example attach_scenario_C :
  attachHandler json.Unmarshal sessionEnv (mkRequest "GET" (query [])) []
  = (Returned, [HttpError (dq "missing 'id' query parameter") 400]).
Proof. vm_compute. reflexivity. Qed.

Section Returns.

Variable U : bytes -> resizeMsg -> option resizeMsg.
Variable env : Env.

Lemma outboundBody_error (data : bytes) (e : error) (buf : bytes) (tr : trace) :
  fst (fst (outboundBody env (data, Some e) buf tr)) = Return.
Proof.
  rewrite outboundBody_eq. cbv zeta. unfold afterWrite.
  destruct (0 <? len data); [destruct (WriteMessageErr env _) |];
    destruct e; reflexivity.
Qed.

Lemma inboundBody_error (execID : string) (a : Z * bytes) (e : error) (tr : trace) :
  fst (inboundBody U env execID (a, Some e) tr) = Return.
Proof. destruct a as [mt payload]. rewrite inboundBody_eq. reflexivity. Qed.

Lemma outboundStep_ends (o : outboundState) (n : nat) (tr : trace) :
  outboundEnds o (S n) -> outboundEnds (fst (outboundStep env o tr)) n.
Proof.
  destruct o as [[| [data readErr] rest] buf |]; simpl; auto.
  - intros [H _]. discriminate H.
  - intros [He Hn]. unfold bind.
    destruct rest as [| r' rest'].
    + destruct readErr as [e |]; [| discriminate He].
      pose proof (outboundBody_error data e buf tr) as Hr.
      destruct (outboundBody env (data, Some e) buf tr) as [[f buf'] tr'].
      simpl in Hr. subst f. exact I.
    + destruct (outboundBody env (data, readErr) buf tr) as [[[] buf'] tr']; simpl.
      * split; [exact He | simpl in *; lia].
      * exact I.
Qed.

Lemma inboundStep_ends (execID : string) (i : inboundState) (n : nat) (tr : trace) :
  inboundEnds i (S n) -> inboundEnds (fst (inboundStep U env execID i tr)) n.
Proof.
  destruct i as [[| [a readErr] rest] |]; simpl; auto.
  - intros [H _]. discriminate H.
  - intros [He Hn]. unfold bind.
    destruct rest as [| r' rest'].
    + destruct readErr as [e |]; [| discriminate He].
      pose proof (inboundBody_error execID a e tr) as Hr.
      destruct (inboundBody U env execID (a, Some e) tr) as [f tr'].
      simpl in Hr. subst f. exact I.
    + destruct (inboundBody U env execID (a, readErr) tr) as [[] tr']; simpl.
      * split; [exact He | simpl in *; lia].
      * exact I.
Qed.

Lemma outboundEnds_zero (o : outboundState) : outboundEnds o 0 -> o = OutDone.
Proof.
  destruct o as [[| r rest] buf |]; simpl; auto.
  - intros [H _]. discriminate H.
  - intros [_ H]. lia.
Qed.

Lemma inboundEnds_zero (i : inboundState) : inboundEnds i 0 -> i = InDone.
Proof.
  destruct i as [[| r rest] |]; simpl; auto.
  - intros [H _]. discriminate H.
  - intros [_ H]. lia.
Qed.

Lemma outboundEnds_more (o : outboundState) (n m : nat) :
  (n <= m)%nat -> outboundEnds o n -> outboundEnds o m.
Proof. destruct o; simpl; [intros H [He Hn]; split; [exact He | lia] | auto]. Qed.

Lemma inboundEnds_more (i : inboundState) (n m : nat) :
  (n <= m)%nat -> inboundEnds i n -> inboundEnds i m.
Proof. destruct i; simpl; [intros H [He Hn]; split; [exact He | lia] | auto]. Qed.

(** Both goroutines return under a schedule that gives each the turns it
    needs, in whatever order. *)
Lemma pipes_ends (execID : string) (sched : list goroutine) :
  forall (o : outboundState) (i : inboundState) (tr : trace),
    outboundEnds o (turns Outbound sched) ->
    inboundEnds i (turns Inbound sched) ->
    fst (pipes U env execID sched o i tr) = (OutDone, InDone).
Proof.
  induction sched as [| g sched IH]; intros o i tr Ho Hi.
  - simpl. now rewrite (outboundEnds_zero o Ho), (inboundEnds_zero i Hi).
  - destruct g; simpl; unfold bind.
    + pose proof (outboundStep_ends o (turns Outbound sched) tr Ho) as Ho'.
      destruct (outboundStep env o tr) as [o' tr']. now apply IH.
    + pose proof (inboundStep_ends execID i (turns Inbound sched) tr Hi) as Hi'.
      destruct (inboundStep U env execID i tr) as [i' tr']. now apply IH.
Qed.

(** The handler returns when both streams are known to end and the
    schedule gives each goroutine a turn for each of its reads. *)
Lemma attachHandler_returns (r : Request) (execID : string) :
  Get (Query r) "id" <> "" ->
  UpgradeErr env = None ->
  ExecCreateRes env (Get (Query r) "id") = (execID, None) ->
  ExecAttachErr env execID = None ->
  endsInError (ReadResults env) = true ->
  endsInError (ReadMessageResults env) = true ->
  (List.length (ReadResults env) <= turns Outbound (schedule env))%nat ->
  (List.length (ReadMessageResults env) <= turns Inbound (schedule env))%nat ->
  fst (attachHandler U env r []) = Returned.
Proof.
  intros Hid Hup Hcreate Hattach Ho Hi Hno Hni.
  rewrite (attachHandler_attached U env r execID Hid Hup Hcreate Hattach).
  pose proof (pipes_ends execID (schedule env)
                (OutRunning (ReadResults env) (repeat x00 (Z.to_nat readBufSize)))
                (InRunning (ReadMessageResults env))
                (attached (Get (Query r) "id") execID)
                (conj Ho Hno) (conj Hi Hni)) as H.
  destruct (pipes U env execID _ _ _ _) as [[o i] tr].
  simpl in H. injection H as -> ->. reflexivity.
Qed.

(** C3, as amended.  For a session whose exec is created and attached,
    whatever the schedule and whatever the reads and calls return: as
    long as the handler waits for its goroutines nothing is closed and
    fewer than two of them have returned; when it returns, the last
    things it did are [hijack.Close()], [cancel()] and [ws.Close()],
    before which nothing was closed and both goroutines had called
    [wg.Done()], so that each of the two resources is closed once, after
    both loops have returned.  And it does return when each stream ends
    in a read that returns an error and the schedule gives each
    goroutine a turn for each of its reads. *)
Theorem attach_teardown (r : Request) (execID : string) :
  Get (Query r) "id" <> "" ->
  UpgradeErr env = None ->
  ExecCreateRes env (Get (Query r) "id") = (execID, None) ->
  ExecAttachErr env execID = None ->
  let run := attachHandler U env r [] in
  match fst run with
  | Returned =>
      closes (snd run) = [HijackClose; WsClose]
      /\ exists pre,
           snd run = pre ++ [HijackClose; Cancel; WsClose]
           /\ closes pre = []
           /\ wg_dones pre = 2%nat
  | Waiting =>
      closes (snd run) = [] /\ (wg_dones (snd run) < 2)%nat
  end
  /\ (endsInError (ReadResults env) = true ->
      endsInError (ReadMessageResults env) = true ->
      (List.length (ReadResults env) <= turns Outbound (schedule env))%nat ->
      (List.length (ReadMessageResults env) <= turns Inbound (schedule env))%nat ->
      fst run = Returned).
Proof.
  intros Hid Hup Hcreate Hattach. cbv zeta.
  split; [| now apply (attachHandler_returns r execID)].
  rewrite (attachHandler_attached U env r execID Hid Hup Hcreate Hattach).
  pose proof (pipes_done U env execID (schedule env)
                (OutRunning (ReadResults env) (repeat x00 (Z.to_nat readBufSize)))
                (InRunning (ReadMessageResults env))
                (attached (Get (Query r) "id") execID)) as H.
  destruct (pipes U env execID _ _ _ _) as [[o i] tr].
  destruct H as [Hc Hd].
  change (closes (attached (Get (Query r) "id") execID)) with (@nil event) in Hc.
  change (wg_dones (attached (Get (Query r) "id") execID)) with 0%nat in Hd.
  destruct o as [ro bo |], i as [ri |]; simpl in *; try (split; [exact Hc | lia]).
  split.
  - rewrite closes_app, Hc. reflexivity.
  - exists (tr ++ [WgWait;
                   Log "[attach] session ended for container %s (exec %s)"
                       [Get (Query r) "id"; execID]]).
    rewrite <- app_assoc. split; [reflexivity |].
    rewrite closes_app, wg_dones_app, Hc. split; [reflexivity |].
    change (wg_dones [WgWait; _]) with 0%nat. lia.
Qed.

(** A goroutine whose read does not return stays where it is, whatever
    the other one does. *)
Lemma pipes_silent_exec (execID : string) (sched : list goroutine) :
  forall (buf : bytes) (i : inboundState) (tr : trace),
    fst (fst (pipes U env execID sched (OutRunning [] buf) i tr)) = OutRunning [] buf.
Proof.
  induction sched as [| [] sched IH]; intros buf i tr; [reflexivity | |].
  - simpl. unfold bind. simpl. apply IH.
  - simpl. unfold bind. destruct (inboundStep U env execID i tr) as [i' tr']. apply IH.
Qed.

End Returns.

Lemma attach_teardown_witness :
  closes (snd (attachHandler json.Unmarshal sessionEnv attachRequest []))
  = [HijackClose; WsClose]
  /\ exists pre,
       snd (attachHandler json.Unmarshal sessionEnv attachRequest [])
       = pre ++ [HijackClose; Cancel; WsClose]
       /\ closes pre = []
       /\ wg_dones pre = 2%nat.
Proof.
  refine (proj1 (attach_teardown json.Unmarshal sessionEnv attachRequest "exec1" _ _ _ _)).
  - vm_compute. discriminate.
  - reflexivity.
  - reflexivity.
  - reflexivity.
Defined.

(** C3, as the claim states it, has both resources closed in every
    session.  When the client goes away while the shell prints nothing,
    the goroutine that reads from the transport returns and calls
    [cancel()], which does not make the read from the exec return: the
    other goroutine stays in it, [wg.Wait()] does not return, and under
    every schedule the handler waits with neither resource closed. *)
Lemma attach_silent_exec_never_closed :
  attachHandler json.Unmarshal (goneEnv [Inbound; Outbound; Inbound; Outbound])
                attachRequest []
  = (Waiting,
     attached "abc123" "exec1"
       ++ [WsReadMessage (-1) []
             (Some (CloseError websocket.CloseGoingAway
                               "websocket: close 1001 (going away)"));
           Cancel; WgDone])
  /\ forall sched : list goroutine,
       fst (attachHandler json.Unmarshal (goneEnv sched) attachRequest []) = Waiting
       /\ closes (snd (attachHandler json.Unmarshal (goneEnv sched) attachRequest [])) = [].
Proof.
  split; [vm_compute; reflexivity |].
  intros sched.
  rewrite (attachHandler_attached json.Unmarshal (goneEnv sched) attachRequest "exec1");
    [| vm_compute; discriminate | reflexivity | reflexivity | reflexivity].
  pose proof (pipes_silent_exec json.Unmarshal (goneEnv sched) "exec1" sched
                (repeat x00 (Z.to_nat readBufSize))
                (InRunning (ReadMessageResults (goneEnv sched)))
                (attached (Get (Query attachRequest) "id") "exec1")) as Ho.
  pose proof (pipes_done json.Unmarshal (goneEnv sched) "exec1" sched
                (OutRunning [] (repeat x00 (Z.to_nat readBufSize)))
                (InRunning (ReadMessageResults (goneEnv sched)))
                (attached (Get (Query attachRequest) "id") "exec1")) as Hd.
  change (schedule (goneEnv sched)) with sched.
  change (ReadResults (goneEnv sched)) with (@nil (bytes * option error)).
  destruct (pipes json.Unmarshal (goneEnv sched) "exec1" sched _ _ _) as [[o i] tr].
  cbn [fst] in Ho. subst o. destruct Hd as [Hc _].
  split; [reflexivity |]. cbn [snd]. rewrite Hc. reflexivity.
Qed.


(** * Properties of the rest of the code *)

(** ** Order and pairing of what the loops pass on *)

Lemma ws_reads_app (a b : trace) : ws_reads (a ++ b) = ws_reads a ++ ws_reads b.
Proof. apply flat_map_app. Qed.

Lemma forwardedOf_app U (a b : list (Z * bytes * option error)) :
  forwardedOf U (a ++ b) = forwardedOf U a ++ forwardedOf U b.
Proof. apply flat_map_app. Qed.

Lemma resizedOf_app U execID (a b : list (Z * bytes * option error)) :
  resizedOf U execID (a ++ b) = resizedOf U execID a ++ resizedOf U execID b.
Proof. apply flat_map_app. Qed.

Lemma paired_app U execID (a b : trace) :
  paired U execID a -> paired U execID b -> paired U execID (a ++ b).
Proof.
  intros (A1 & A2 & A3) (B1 & B2 & B3). unfold paired.
  rewrite !ws_frames_app, !exec_reads_app, !conn_writes_app, !exec_resizes_app,
    !ws_reads_app, framesOf_app, forwardedOf_app, resizedOf_app.
  now rewrite A1, A2, A3, B1, B2, B3.
Qed.

Lemma silent_paired U execID (evs : trace) : silent evs -> paired U execID evs.
Proof. intros (A & B & C & D & E). unfold paired. now rewrite A, B, C, D, E. Qed.

Section Pairing.

Variable U : bytes -> resizeMsg -> option resizeMsg.
Variable env : Env.
Variable execID : string.

Lemma outboundBody_paired (r : bytes * option error) (buf : bytes) (tr : trace) :
  exists evs,
    snd (outboundBody env r buf tr) = tr ++ evs
    /\ exec_reads evs = [r] /\ ws_reads evs = []
    /\ paired U execID evs.
Proof.
  destruct r as [data readErr]. rewrite outboundBody_eq. cbv zeta.
  unfold writeEvents, afterWrite, paired, framesOf.
  destruct (0 <? len data) eqn:Hn;
    [destruct (WriteMessageErr env _) |];
    try destruct readErr as [[] |]; simpl;
    eexists; rewrite <- ?app_assoc; (split; [reflexivity |]);
    simpl; rewrite ?Hn; repeat split.
Qed.

Lemma inboundBody_paired (r : Z * bytes * option error) (tr : trace) :
  exists evs,
    snd (inboundBody U env execID r tr) = tr ++ evs
    /\ ws_reads evs = [r] /\ exec_reads evs = []
    /\ paired U execID evs.
Proof.
  destruct r as [[mt payload] readErr]. rewrite inboundBody_eq. cbv zeta.
  unfold resizeTurn, dataTurn, paired, framesOf, forwardedOf, resizedOf.
  destruct readErr as [e |].
  - destruct (websocket.IsUnexpectedCloseError e _); simpl;
      eexists; rewrite <- ?app_assoc; (split; [reflexivity |]); simpl; repeat split.
  - destruct (mt =? websocket.CloseMessage) eqn:Hmt.
    { eexists. split; [reflexivity |]. simpl. rewrite Hmt. repeat split. }
    destruct (len payload =? 0) eqn:Hl.
    { eexists. split; [reflexivity |]. simpl. rewrite Hmt, Hl. repeat split. }
    destruct (resizeCommand U payload) as [msg |] eqn:Hc.
    + destruct (ExecResizeErr env _); simpl;
        eexists; rewrite <- ?app_assoc; (split; [reflexivity |]);
        simpl; rewrite Hmt, Hl, Hc; repeat split.
    + destruct (ConnWriteErr env _); simpl;
        eexists; rewrite <- ?app_assoc; (split; [reflexivity |]);
        simpl; rewrite Hmt, Hl, Hc; repeat split.
Qed.

(** X1.  The inbound loop reads the messages of the client in order and
    answers each at once: whatever the results of [ReadMessage] and
    whatever fails, the payloads written to the exec are, in order, the
    payloads of the messages read so far that are read without error,
    are no close frame, are not empty and are no resize command; the
    resizes of the exec are, in order, those of the resize commands read;
    and the loop writes no frame to the client. *)
Theorem inbound_order (results : list (Z * bytes * option error)) :
  forall tr : trace,
  exists evs,
    snd (inboundLoop U env execID results tr) = tr ++ evs
    /\ conn_writes evs = forwardedOf U (ws_reads evs)
    /\ exec_resizes evs = resizedOf U execID (ws_reads evs)
    /\ ws_frames evs = []
    /\ exists rest, results = ws_reads evs ++ rest.
Proof.
  induction results as [| r results IH]; intros tr.
  - exists []. simpl. rewrite app_nil_r. repeat split. now exists [].
  - rewrite inboundLoop_cons.
    destruct (inboundBody_paired r tr) as (evs & Htr & Hr & He & Hf & Hc & Hz).
    assert (Hw : ws_frames evs = []) by (rewrite Hf, He; reflexivity).
    destruct (inboundBody U env execID r tr) as [[] tr']; simpl in Htr; subst tr'.
    + destruct (IH (tr ++ evs)) as (evs' & Htr' & Hc' & Hz' & Hw' & rest & Hrest).
      exists (evs ++ evs'). rewrite Htr', app_assoc. split; [reflexivity |].
      rewrite !conn_writes_app, !exec_resizes_app, !ws_reads_app, !ws_frames_app,
        forwardedOf_app, resizedOf_app, Hc, Hz, Hc', Hz', Hw', Hr, Hw.
      repeat split. exists rest. simpl. now rewrite Hrest.
    + exists evs. simpl. split; [reflexivity |].
      rewrite Hc, Hz, Hr. repeat split; [exact Hw |]. now exists results.
Qed.

Lemma outboundStep_paired (o : outboundState) (tr : trace) :
  exists evs rest,
    snd (outboundStep env o tr) = tr ++ evs
    /\ paired U execID evs /\ ws_reads evs = []
    /\ outPending o = exec_reads evs ++ rest
    /\ (fst (outboundStep env o tr) = OutDone
        \/ outPending (fst (outboundStep env o tr)) = rest).
Proof.
  destruct o as [[| r rs] buf |].
  - exists [], []. simpl. rewrite app_nil_r.
    repeat split; auto.
  - simpl. unfold bind.
    destruct (outboundBody_paired r buf tr) as (evs & Htr & Hr & Hw & Hp).
    destruct (outboundBody env r buf tr) as [[[] buf'] tr']; simpl in Htr; subst tr'.
    + exists evs, rs. simpl. rewrite Hr. repeat split; auto. apply Hp. apply Hp. apply Hp.
    + exists (evs ++ [Cancel; WgDone]), rs. unfold cancel, wg_Done, call, ret. simpl.
      rewrite <- !app_assoc, exec_reads_app, ws_reads_app, Hr, Hw. simpl.
      split; [reflexivity |]. split; [| auto].
      apply paired_app; [exact Hp | now apply silent_paired].
  - exists [], []. simpl. rewrite app_nil_r. repeat split; auto.
Qed.

Lemma inboundStep_paired (i : inboundState) (tr : trace) :
  exists evs rest,
    snd (inboundStep U env execID i tr) = tr ++ evs
    /\ paired U execID evs /\ exec_reads evs = []
    /\ inPending i = ws_reads evs ++ rest
    /\ (fst (inboundStep U env execID i tr) = InDone
        \/ inPending (fst (inboundStep U env execID i tr)) = rest).
Proof.
  destruct i as [[| r rs] |].
  - exists [], []. simpl. rewrite app_nil_r. repeat split; auto.
  - simpl. unfold bind.
    destruct (inboundBody_paired r tr) as (evs & Htr & Hr & Hw & Hp).
    destruct (inboundBody U env execID r tr) as [[] tr']; simpl in Htr; subst tr'.
    + exists evs, rs. simpl. rewrite Hr. repeat split; auto. apply Hp. apply Hp. apply Hp.
    + exists (evs ++ [Cancel; WgDone]), rs. unfold cancel, wg_Done, call, ret. simpl.
      rewrite <- !app_assoc, exec_reads_app, ws_reads_app, Hr, Hw. simpl.
      split; [reflexivity |]. split; [| auto].
      apply paired_app; [exact Hp | now apply silent_paired].
  - exists [], []. simpl. rewrite app_nil_r. repeat split; auto.
Qed.

(** Under any schedule the two goroutines read their streams in order,
    and the calls they make answer the reads they have made. *)
Lemma pipes_paired (sched : list goroutine) :
  forall (o : outboundState) (i : inboundState) (tr : trace),
  exists evs,
    snd (pipes U env execID sched o i tr) = tr ++ evs
    /\ paired U execID evs
    /\ (exists rest, outPending o = exec_reads evs ++ rest)
    /\ (exists rest, inPending i = ws_reads evs ++ rest).
Proof.
  induction sched as [| g sched IH]; intros o i tr.
  - exists []. simpl. rewrite app_nil_r. split; [reflexivity |].
    split; [now apply silent_paired |]. split; eexists; reflexivity.
  - destruct g; simpl; unfold bind.
    + destruct (outboundStep_paired o tr) as (e1 & rest1 & Htr & Hp & Hw & Hpend & Hnext).
      destruct (outboundStep env o tr) as [o' tr']. simpl in Htr, Hnext. subst tr'.
      destruct (IH o' i (tr ++ e1)) as (e2 & Htr2 & Hp2 & [r2 Ho2] & [r3 Hi2]).
      exists (e1 ++ e2). rewrite Htr2, app_assoc. split; [reflexivity |].
      split; [now apply paired_app |].
      rewrite exec_reads_app, ws_reads_app, Hw. simpl. split; [| now exists r3].
      destruct Hnext as [-> | Hn].
      * simpl in Ho2. symmetry in Ho2. apply app_eq_nil in Ho2. destruct Ho2 as [-> _].
        exists rest1. now rewrite app_nil_r.
      * exists r2. rewrite Hpend, <- Hn, Ho2. now rewrite app_assoc.
    + destruct (inboundStep_paired i tr) as (e1 & rest1 & Htr & Hp & Hw & Hpend & Hnext).
      destruct (inboundStep U env execID i tr) as [i' tr']. simpl in Htr, Hnext. subst tr'.
      destruct (IH o i' (tr ++ e1)) as (e2 & Htr2 & Hp2 & [r2 Ho2] & [r3 Hi2]).
      exists (e1 ++ e2). rewrite Htr2, app_assoc. split; [reflexivity |].
      split; [now apply paired_app |].
      rewrite exec_reads_app, ws_reads_app, Hw. simpl. split; [now exists r2 |].
      destruct Hnext as [-> | Hn].
      * simpl in Hi2. symmetry in Hi2. apply app_eq_nil in Hi2. destruct Hi2 as [-> _].
        exists rest1. now rewrite app_nil_r.
      * exists r3. rewrite Hpend, <- Hn, Hi2. now rewrite app_assoc.
Qed.

(** X2.  For a session whose exec is created and attached, under every
    schedule of the two goroutines and whatever fails later: the frames
    written to the client are the non-empty reads from the exec, in
    order; the payloads written to the exec and the resizes of the exec
    are those of the messages read from the client, in order; and each
    stream is read from its start, with nothing skipped. *)
Theorem attach_session_pairing (r : Request) :
  Get (Query r) "id" <> "" ->
  UpgradeErr env = None ->
  ExecCreateRes env (Get (Query r) "id") = (execID, None) ->
  ExecAttachErr env execID = None ->
  let tr := snd (attachHandler U env r []) in
  ws_frames tr = framesOf (exec_reads tr)
  /\ conn_writes tr = forwardedOf U (ws_reads tr)
  /\ exec_resizes tr = resizedOf U execID (ws_reads tr)
  /\ (exists rest, ReadResults env = exec_reads tr ++ rest)
  /\ (exists rest, ReadMessageResults env = ws_reads tr ++ rest).
Proof.
  intros Hid Hup Hcreate Hattach. cbv zeta.
  rewrite (attachHandler_attached U env r execID Hid Hup Hcreate Hattach).
  destruct (pipes_paired (schedule env)
              (OutRunning (ReadResults env) (repeat x00 (Z.to_nat readBufSize)))
              (InRunning (ReadMessageResults env))
              (attached (Get (Query r) "id") execID))
    as (evs & Htr & Hp & [r1 Ho] & [r2 Hi]).
  simpl in Ho, Hi.
  assert (Hpre : silent (attached (Get (Query r) "id") execID)) by (repeat split).
  assert (Hall : forall tl, silent tl ->
            let tr := attached (Get (Query r) "id") execID ++ evs ++ tl in
            ws_frames tr = framesOf (exec_reads tr)
            /\ conn_writes tr = forwardedOf U (ws_reads tr)
            /\ exec_resizes tr = resizedOf U execID (ws_reads tr)
            /\ (exists rest, ReadResults env = exec_reads tr ++ rest)
            /\ (exists rest, ReadMessageResults env = ws_reads tr ++ rest)).
  { intros tl Htl.
    pose proof (paired_app U execID _ _ (silent_paired U execID _ Hpre)
                  (paired_app U execID _ _ Hp (silent_paired U execID _ Htl)))
      as (P1 & P2 & P3).
    cbv zeta. split; [exact P1 |]. split; [exact P2 |]. split; [exact P3 |].
    destruct Hpre as (_ & A2 & _ & _ & A5). destruct Htl as (_ & B2 & _ & _ & B5).
    rewrite !exec_reads_app, !ws_reads_app, A2, A5, B2, B5. simpl.
    rewrite !app_nil_r. split; [now exists r1 | now exists r2]. }
  destruct (pipes U env execID _ _ _ _) as [[o i] tr]. cbn [snd] in Htr. subst tr.
  destruct o, i; cbn [snd];
    try (specialize (Hall [] ltac:(repeat split)); cbv zeta in Hall;
         rewrite !app_nil_r in Hall; exact Hall).
  rewrite <- app_assoc. apply Hall. repeat split.
Qed.

(** C9.  The same resize frame read twice in a row makes two calls to
    [ContainerExecResize] with the same arguments and nothing else but
    the two reads and a log line for a call that failed: the loop that
    stands at any point and reads the two frames then waits for the next
    message, and the exec has been resized twice more, with those
    arguments, and written to no more than before.  With the two frames
    anywhere among the messages, the loop ends as it does without them
    and writes the same payloads to the exec input.  Whatever the
    schedule, the frames written to the client are the reads from the
    exec, one frame for each non-empty read, and so those written
    without the two frames; the payloads written to the exec are those
    of the messages read that are no resize command, to which the two
    frames add nothing; and the resizes are those of the resize commands
    read, to which the two frames add two. *)
Theorem resize_twice (mt : Z) (body : bytes) (msg : resizeMsg)
        (pre post : list (Z * bytes * option error)) :
  let payload := "{"%byte :: body in
  let f := (mt, payload, @None error) in
  let call := ContainerExecResize execID (Rows msg) (Cols msg) in
  mt <> websocket.CloseMessage ->
  U payload zeroMsg = Some msg ->
  Type_ msg = "resize" ->
  (forall tr, exists l1 l2,
      inboundLoop U env execID [f; f] tr
      = (Waiting,
         tr ++ [WsReadMessage mt payload None; call] ++ l1
            ++ [WsReadMessage mt payload None; call] ++ l2)
      /\ (l1 = [] \/ exists e, l1 = [Log "[attach] resize failed: %v" [Error e]])
      /\ (l2 = [] \/ exists e, l2 = [Log "[attach] resize failed: %v" [Error e]]))
  /\ (forall tr,
        exec_resizes (snd (inboundLoop U env execID [f; f] tr))
        = exec_resizes tr ++ [(execID, Rows msg, Cols msg); (execID, Rows msg, Cols msg)]
        /\ conn_writes (snd (inboundLoop U env execID [f; f] tr)) = conn_writes tr
        /\ ws_frames (snd (inboundLoop U env execID [f; f] tr)) = ws_frames tr)
  /\ (forall tr, exists l1 l2,
      inboundLoop U env execID (f :: f :: post) tr
      = inboundLoop U env execID post
          (tr ++ [WsReadMessage mt payload None; call] ++ l1
              ++ [WsReadMessage mt payload None; call] ++ l2)
      /\ exec_resizes l1 = [] /\ exec_resizes l2 = []
      /\ conn_writes l1 = [] /\ conn_writes l2 = [])
  /\ (forall tr,
        fst (inboundLoop U env execID (pre ++ f :: f :: post) tr)
        = fst (inboundLoop U env execID (pre ++ post) tr)
        /\ conn_writes (snd (inboundLoop U env execID (pre ++ f :: f :: post) tr))
           = conn_writes (snd (inboundLoop U env execID (pre ++ post) tr)))
  /\ (forall sched o tr,
        ws_frames (snd (pipes U env execID sched o (InRunning (pre ++ f :: f :: post)) tr))
        = ws_frames (snd (pipes U env execID sched o (InRunning (pre ++ post)) tr)))
  /\ (forall sched o tr, exists evs,
        snd (pipes U env execID sched o (InRunning (pre ++ f :: f :: post)) tr) = tr ++ evs
        /\ ws_frames evs = framesOf (exec_reads evs)
        /\ conn_writes evs = forwardedOf U (ws_reads evs)
        /\ exec_resizes evs = resizedOf U execID (ws_reads evs)
        /\ exists unread, pre ++ f :: f :: post = ws_reads evs ++ unread)
  /\ forwardedOf U (pre ++ f :: f :: post) = forwardedOf U (pre ++ post)
  /\ resizedOf U execID (pre ++ f :: f :: post)
     = resizedOf U execID pre
         ++ [(execID, Rows msg, Cols msg); (execID, Rows msg, Cols msg)]
         ++ resizedOf U execID post.
Proof.
  intros payload f call Hmt HU Ht.
  assert (Hone : forall rest tr,
            inboundLoop U env execID (f :: rest) tr
            = inboundLoop U env execID rest
                (resizeTurn env execID (tr ++ [WsReadMessage mt payload None]) msg)).
  { intros rest tr. subst f payload.
    rewrite (inboundLoop_turn U env execID mt "{"%byte body rest tr Hmt). cbv zeta.
    now rewrite (resizeCommand_resize U ("{"%byte :: body) msg eq_refl HU Ht). }
  assert (Hlog : forall tr1, exists l,
            resizeTurn env execID tr1 msg = tr1 ++ [call] ++ l
            /\ (l = [] \/ exists e, l = [Log "[attach] resize failed: %v" [Error e]])).
  { intros tr1. unfold resizeTurn. cbv zeta. destruct (ExecResizeErr env _) as [e |].
    - exists [Log "[attach] resize failed: %v" [Error e]]. rewrite <- app_assoc.
      split; [reflexivity |]. right. now exists e.
    - exists []. split; [now rewrite app_nil_r |]. now left. }
  assert (Hquiet : forall l,
            l = [] \/ (exists e, l = [Log "[attach] resize failed: %v" [Error e]]) ->
            exec_resizes l = [] /\ conn_writes l = [] /\ ws_frames l = []).
  { intros l [-> | [e ->]]; now repeat split. }
  assert (Hexact : forall tr, exists l1 l2,
            inboundLoop U env execID [f; f] tr
            = (Waiting,
               tr ++ [WsReadMessage mt payload None; call] ++ l1
                  ++ [WsReadMessage mt payload None; call] ++ l2)
            /\ (l1 = [] \/ exists e, l1 = [Log "[attach] resize failed: %v" [Error e]])
            /\ (l2 = [] \/ exists e, l2 = [Log "[attach] resize failed: %v" [Error e]])).
  { intros tr. rewrite !Hone.
    destruct (Hlog (tr ++ [WsReadMessage mt payload None])) as (l1 & E1 & L1).
    rewrite E1.
    destruct (Hlog (((tr ++ [WsReadMessage mt payload None]) ++ [call] ++ l1)
                      ++ [WsReadMessage mt payload None])) as (l2 & E2 & L2).
    rewrite E2. exists l1, l2. cbn [inboundLoop ret]. rewrite <- !app_assoc.
    split; [reflexivity |]. now split. }
  assert (Htwo : forall tr, exists l1 l2,
      inboundLoop U env execID (f :: f :: post) tr
      = inboundLoop U env execID post
          (tr ++ [WsReadMessage mt payload None; call] ++ l1
              ++ [WsReadMessage mt payload None; call] ++ l2)
      /\ exec_resizes l1 = [] /\ exec_resizes l2 = []
      /\ conn_writes l1 = [] /\ conn_writes l2 = []).
  { intros tr.
    destruct (inboundLoop_resize_turn U env execID mt body msg (f :: post) tr Hmt HU Ht)
      as (l1 & E1 & R1 & C1).
    destruct (inboundLoop_resize_turn U env execID mt body msg post
                (tr ++ [WsReadMessage mt payload None;
                        ContainerExecResize execID (Rows msg) (Cols msg)] ++ l1)
                Hmt HU Ht)
      as (l2 & E2 & R2 & C2).
    exists l1, l2. subst f payload call. rewrite E1, E2, <- !app_assoc.
    now repeat split. }
  split; [exact Hexact |]. split; [| split; [exact Htwo | split]].
  - intros tr. destruct (Hexact tr) as (l1 & l2 & -> & L1 & L2).
    destruct (Hquiet l1 L1) as (R1 & C1 & F1), (Hquiet l2 L2) as (R2 & C2 & F2).
    cbn [snd].
    rewrite !exec_resizes_app, !conn_writes_app, !ws_frames_app,
      R1, R2, C1, C2, F1, F2.
    subst call. cbn. rewrite ?app_nil_r. now repeat split.
  - intros tr. rewrite !inboundLoop_app.
    destruct (inboundLoop U env execID pre tr) as [[] tr1]; [now split |].
    destruct (Htwo tr1) as (l1 & l2 & E & R1 & R2 & C1 & C2). rewrite E.
    apply inboundLoop_conn.
    rewrite !conn_writes_app, C1, C2. simpl. now rewrite !app_nil_r.
  - split; [intros sched o tr; now apply pipes_ws_frames |].
    assert (Hcmd : resizeCommand U payload = Some msg)
      by (subst payload; now apply resizeCommand_resize).
    assert (Hfw : forwardedOf U [f; f] = []).
    { subst f. cbn [forwardedOf flat_map]. apply Z.eqb_neq in Hmt. rewrite Hmt.
      subst payload. change (len ("{"%byte :: body) =? 0) with false. cbv iota.
      now rewrite Hcmd. }
    assert (Hrz : resizedOf U execID [f; f]
                  = [(execID, Rows msg, Cols msg); (execID, Rows msg, Cols msg)]).
    { subst f. cbn [resizedOf flat_map]. apply Z.eqb_neq in Hmt. rewrite Hmt.
      subst payload. change (len ("{"%byte :: body) =? 0) with false. cbv iota.
      now rewrite Hcmd. }
    split; [| split].
    + intros sched o tr.
      destruct (pipes_paired sched o (InRunning (pre ++ f :: f :: post)) tr)
        as (evs & Htr & (P1 & P2 & P3) & _ & [unread Hun]).
      exists evs. split; [exact Htr |]. split; [exact P1 |]. split; [exact P2 |].
      split; [exact P3 |]. exists unread. exact Hun.
    + change (f :: f :: post) with ([f; f] ++ post).
      now rewrite !forwardedOf_app, Hfw.
    + change (f :: f :: post) with ([f; f] ++ post).
      now rewrite !resizedOf_app, Hrz.
Qed.

End Pairing.

Lemma resize_twice_witness :
  let f := (websocket.TextMessage, scenarioB, @None error) in
  let a := (websocket.TextMessage, bytes_of_string "a", @None error) in
  let b := (websocket.TextMessage, bytes_of_string "b", @None error) in
  fst (inboundLoop json.Unmarshal quietEnv "exec1" ([a] ++ f :: f :: [b]) [])
  = fst (inboundLoop json.Unmarshal quietEnv "exec1" ([a] ++ [b]) [])
  /\ conn_writes (snd (inboundLoop json.Unmarshal quietEnv "exec1" ([a] ++ f :: f :: [b]) []))
     = conn_writes (snd (inboundLoop json.Unmarshal quietEnv "exec1" ([a] ++ [b]) [])).
Proof.
  refine (proj1 (proj2 (proj2 (proj2
           (resize_twice json.Unmarshal quietEnv "exec1" websocket.TextMessage
              (tl scenarioB) (mkResizeMsg "resize" 120 40)
              [(websocket.TextMessage, bytes_of_string "a", None)]
              [(websocket.TextMessage, bytes_of_string "b", None)] _ _ _)))) []).
  - discriminate.
  - vm_compute. reflexivity.
  - reflexivity.
Defined.


Lemma attach_session_pairing_witness :
  let tr := snd (attachHandler json.Unmarshal sessionEnv attachRequest []) in
  ws_frames tr = framesOf (exec_reads tr)
  /\ conn_writes tr = forwardedOf json.Unmarshal (ws_reads tr)
  /\ exec_resizes tr = resizedOf json.Unmarshal "exec1" (ws_reads tr)
  /\ (exists rest, ReadResults sessionEnv = exec_reads tr ++ rest)
  /\ (exists rest, ReadMessageResults sessionEnv = ws_reads tr ++ rest).
Proof.
  refine (attach_session_pairing json.Unmarshal sessionEnv "exec1" attachRequest _ _ _ _).
  - vm_compute. discriminate.
  - reflexivity.
  - reflexivity.
  - reflexivity.
Defined.

Example attach_session_streams :
  let tr := snd (attachHandler json.Unmarshal sessionEnv attachRequest []) in
  ws_frames tr = [(websocket.BinaryMessage, bytes_of_string "$ ")]
  /\ conn_writes tr = [bytes_of_string "ls"]
  /\ exec_resizes tr = [("exec1", 40, 120)].
Proof. vm_compute. repeat split. Qed.



(** ** How the inbound loop ends *)

Section InboundExit.

Variable U : bytes -> resizeMsg -> option resizeMsg.
Variable env : Env.
Variable execID : string.

(** X3.  When the inbound loop returns.  After one message is read the
    loop has returned exactly when the read failed, or the message is a
    close frame, or its payload is not empty, is no resize command, and
    the write to the exec failed.  In every other case (an empty payload,
    a resize command whether or not the resize fails, a payload written)
    the loop goes on to read again. *)
Theorem inbound_returns_when (mt : Z) (payload : bytes) (readErr : option error)
        (tr : trace) :
  let tr1 := tr ++ [WsReadMessage mt payload readErr] in
  fst (inboundLoop U env execID [(mt, payload, readErr)] tr) = Returned
  <-> (readErr <> None
       \/ mt = websocket.CloseMessage
       \/ (payload <> [] /\ resizeCommand U payload = None
           /\ ConnWriteErr env (conn_writes (tr1 ++ [ConnWrite payload])) <> None)).
Proof.
  cbv zeta. rewrite inboundLoop_cons, inboundBody_eq. cbv zeta. unfold dataTurn.
  destruct readErr as [e |].
  - simpl. split; [intros _; left; discriminate | reflexivity].
  - destruct (Z.eqb_spec mt websocket.CloseMessage) as [Hmt | Hmt].
    { simpl. split; [intros _; right; left; exact Hmt | reflexivity]. }
    destruct (Z.eqb_spec (len payload) 0) as [Hl | Hl].
    { simpl. split; [discriminate |].
      intros [H | [H | (H & _)]]; [now contradiction H | contradiction |].
      destruct payload; [now contradiction H | discriminate Hl]. }
    assert (Hne : payload <> []) by (intros ->; now apply Hl).
    destruct (resizeCommand U payload) as [msg |].
    + simpl. split; [discriminate |].
      intros [H | [H | (_ & H & _)]]; [now contradiction H | contradiction | discriminate H].
    + cbv zeta. destruct (ConnWriteErr env _) as [e |]; simpl.
      * split; [| reflexivity]. intros _. right; right. repeat split; auto; discriminate.
      * split; [discriminate |].
        intros [H | [H | (_ & _ & H)]]; [now contradiction H | contradiction | now contradiction H].
Qed.

(** X4.  A failed [ReadMessage] ends the inbound loop without any call
    after it, whatever is still to come.  The failure is logged exactly
    when it is a close error whose code is neither 1001 (going away) nor
    1000 (normal closure); every other error, a network error too, ends
    the loop with no log line. *)
Theorem inbound_read_error (mt : Z) (payload : bytes) (e : error)
        (rest : list (Z * bytes * option error)) (tr : trace) :
  let tr1 := tr ++ [WsReadMessage mt payload (Some e)] in
  let line := Log "[attach] read from websocket failed: %v" [Error e] in
  let run := inboundLoop U env execID ((mt, payload, Some e) :: rest) tr in
  (run = (Returned, tr1) \/ run = (Returned, tr1 ++ [line]))
  /\ (run = (Returned, tr1 ++ [line])
      <-> exists code text,
            e = CloseError code text
            /\ code <> websocket.CloseGoingAway
            /\ code <> websocket.CloseNormalClosure).
Proof.
  cbv zeta. rewrite inboundLoop_cons, inboundBody_eq. cbv zeta.
  destruct e as [| code text | msg]; simpl.
  - split; [now left |]. split.
    + intros H. injection H as H. apply app_eq_self in H. discriminate H.
    + intros (c & t & H & _). discriminate H.
  - destruct (Z.eqb_spec code websocket.CloseGoingAway) as [H1 | H1]; simpl.
    + split; [now left |]. split.
      * intros H. injection H as H. apply app_eq_self in H. discriminate H.
      * intros (c & t & H & Hc & _). injection H as <- <-. contradiction.
    + destruct (Z.eqb_spec code websocket.CloseNormalClosure) as [H2 | H2]; simpl.
      * split; [now left |]. split.
        -- intros H. injection H as H. apply app_eq_self in H. discriminate H.
        -- intros (c & t & H & _ & Hc). injection H as <- <-. contradiction.
      * split; [now right |]. split; [| reflexivity].
        intros _. now exists code, text.
  - split; [now left |]. split.
    + intros H. injection H as H. apply app_eq_self in H. discriminate H.
    + intros (c & t & H & _). discriminate H.
Qed.

(** X5.  The three turns of the inbound loop that pass nothing on: a
    message with an empty payload is skipped and the loop reads again; a
    close frame ends the loop with no call and no log line, whatever its
    payload; and a payload whose write to the exec fails is logged and
    ends the loop. *)
Theorem inbound_skips_and_stops (mt : Z) (payload : bytes)
        (rest : list (Z * bytes * option error)) (tr : trace) :
  (mt <> websocket.CloseMessage ->
   inboundLoop U env execID ((mt, [], None) :: rest) tr
   = inboundLoop U env execID rest (tr ++ [WsReadMessage mt [] None]))
  /\ inboundLoop U env execID ((websocket.CloseMessage, payload, None) :: rest) tr
     = (Returned, tr ++ [WsReadMessage websocket.CloseMessage payload None])
  /\ (forall b body e,
         mt <> websocket.CloseMessage ->
         resizeCommand U (b :: body) = None ->
         ConnWriteErr env (conn_writes tr ++ [b :: body]) = Some e ->
         inboundLoop U env execID ((mt, b :: body, None) :: rest) tr
         = (Returned,
            tr ++ [WsReadMessage mt (b :: body) None;
                   ConnWrite (b :: body);
                   Log "[attach] write to docker failed: %v" [Error e]])).
Proof.
  split; [| split].
  - intros Hmt. rewrite inboundLoop_cons, inboundBody_eq. cbv zeta.
    apply Z.eqb_neq in Hmt. now rewrite Hmt.
  - rewrite inboundLoop_cons, inboundBody_eq. reflexivity.
  - intros b body e Hmt Hc Hw.
    rewrite (inboundLoop_turn U env execID mt b body rest tr Hmt). cbv zeta.
    rewrite Hc. unfold dataTurn. cbv zeta.
    rewrite !conn_writes_app. simpl. rewrite app_nil_r, Hw.
    now rewrite <- !app_assoc.
Qed.

End InboundExit.


(** ** The dimensions /resize accepts *)

Lemma ascii_val_range (c : ascii) : 0 <= ascii_val c < 256.
Proof.
  unfold ascii_val. pose proof (N_ascii_bounded c) as H. lia.
Qed.

Lemma decimalFrom_ge (s : string) :
  forall n, 0 <= n -> allDigits s = true -> n <= decimalFrom n s.
Proof.
  induction s as [| c s IH]; intros n Hn Hd; simpl in *; [lia |].
  apply andb_true_iff in Hd as [Hc Hd]. apply andb_true_iff in Hc as [H1 H2].
  apply Z.leb_le in H1, H2.
  specialize (IH (n * 10 + (ascii_val c - 48)) ltac:(lia) Hd). lia.
Qed.

(** The digit loop on decimal digits: no error exactly when every byte
    is a digit and the number written fits, and the value is then that
    number. *)
Lemma digits_decimal (maxVal : Z) (s : string) :
  0 <= maxVal <= strconv.maxUint64 ->
  forall n n',
    0 <= n <= maxVal ->
    strconv.digits s 10 (strconv.maxUint64 / 10 + 1) maxVal n = (n', None)
    <-> (allDigits s = true /\ decimalFrom n s <= maxVal /\ n' = decimalFrom n s).
Proof.
  intros Hmax. unfold strconv.maxUint64 in *.
  change (2 ^ 64 - 1) with 18446744073709551615 in *.
  change (18446744073709551615 / 10 + 1) with 1844674407370955162 in *.
  induction s as [| c s IH]; intros n n' Hn; simpl.
  - split; [intros H; injection H as <-; repeat split; lia | intros (_ & _ & ->); reflexivity].
  - pose proof (ascii_val_range c) as Hc.
    destruct ((48 <=? ascii_val c) && (ascii_val c <=? 57)) eqn:Hdig; simpl.
    + apply andb_true_iff in Hdig as [H1 H2]. apply Z.leb_le in H1, H2.
      assert (Hb : (10 <=? ascii_val c - 48) = false) by (apply Z.leb_gt; lia).
      rewrite Hb.
      destruct (1844674407370955162 <=? n) eqn:Hcut.
      { apply Z.leb_le in Hcut. split; [discriminate |].
        intros (Hd & Hle & _).
        pose proof (decimalFrom_ge s (n * 10 + (ascii_val c - 48)) ltac:(lia) Hd). lia. }
      apply Z.leb_gt in Hcut.
      change (2 ^ 64) with 18446744073709551616.
      rewrite (Z.mod_small (n * 10)) by lia.
      destruct (Z_lt_ge_dec (n * 10 + (ascii_val c - 48)) 18446744073709551616) as [Hs | Hs].
      * rewrite (Z.mod_small (n * 10 + (ascii_val c - 48))) by lia.
        assert (Hlt : (n * 10 + (ascii_val c - 48) <? n * 10) = false)
          by (apply Z.ltb_ge; lia).
        rewrite Hlt. simpl.
        destruct (maxVal <? n * 10 + (ascii_val c - 48)) eqn:Hm.
        -- apply Z.ltb_lt in Hm. split; [discriminate |].
           intros (Hd & Hle & _).
           pose proof (decimalFrom_ge s (n * 10 + (ascii_val c - 48)) ltac:(lia) Hd). lia.
        -- apply Z.ltb_ge in Hm. apply IH. lia.
      * assert (Hw : (n * 10 + (ascii_val c - 48)) mod 18446744073709551616
                     = n * 10 + (ascii_val c - 48) - 18446744073709551616).
        { symmetry. apply Z.mod_unique with (q := 1); lia. }
        rewrite Hw.
        assert (Hlt : (n * 10 + (ascii_val c - 48) - 18446744073709551616 <? n * 10) = true)
          by (apply Z.ltb_lt; lia).
        rewrite Hlt. simpl. split; [discriminate |].
        intros (Hd & Hle & _).
        pose proof (decimalFrom_ge s (n * 10 + (ascii_val c - 48)) ltac:(lia) Hd). lia.
    + destruct ((97 <=? strconv.lower (ascii_val c)) && (strconv.lower (ascii_val c) <=? 122)) eqn:Hlet.
      * apply andb_true_iff in Hlet as [H1 H2]. apply Z.leb_le in H1, H2.
        assert (Hb : (10 <=? strconv.lower (ascii_val c) - 97 + 10) = true)
          by (apply Z.leb_le; lia).
        rewrite Hb. split; [discriminate | intros (H & _); discriminate H].
      * split; [discriminate | intros (H & _); discriminate H].
Qed.

(** [ParseUint(s, 10, 32)] succeeds exactly on the non-empty strings of
    decimal digits that write a number below [2^32], with that number. *)
Lemma ParseUint_decimal (s : string) (n : Z) :
  strconv.ParseUint s 10 32 = (n, None)
  <-> (s <> "" /\ allDigits s = true /\ decimal s <= 4294967295 /\ n = decimal s).
Proof.
  unfold strconv.ParseUint, decimal. destruct s as [| c s].
  - split; [discriminate | intros (H & _); now contradiction H].
  - change (negb ((2 <=? 10) && (10 <=? 36))) with false.
    change (32 =? 0) with false. cbv iota.
    change ((32 <? 0) || (64 <? 32)) with false. cbv iota zeta.
    change (2 ^ 32 - 1) with 4294967295.
    rewrite (digits_decimal 4294967295 (String c s)); [| unfold strconv.maxUint64; lia | lia].
    split; [intros (A & B & C); repeat split; auto; discriminate
           | intros (_ & A & B & C); auto].
Qed.

Lemma badDimension_false (s : string) :
  badDimension s = false
  <-> (s <> "" /\ allDigits s = true /\ 1 <= decimal s <= 4294967295).
Proof.
  unfold badDimension.
  destruct (strconv.ParseUint s 10 32) as [n [e |]] eqn:HP; simpl.
  - split; [discriminate |]. intros (H1 & H2 & H3).
    assert (strconv.ParseUint s 10 32 = (decimal s, None))
      by (apply ParseUint_decimal; repeat split; auto; lia).
    congruence.
  - apply ParseUint_decimal in HP as (H1 & H2 & H3 & ->).
    pose proof (decimalFrom_ge s 0 ltac:(lia) H2). fold (decimal s) in H.
    split.
    + intros Hz. apply Z.eqb_neq in Hz. repeat split; auto; lia.
    + intros (_ & _ & Hz). apply Z.eqb_neq. lia.
Qed.

Lemma dimension_decimal (s : string) :
  badDimension s = false -> dimension s = decimal s.
Proof.
  intros H. apply badDimension_false in H as (H1 & H2 & H3).
  unfold dimension.
  assert (HP : strconv.ParseUint s 10 32 = (decimal s, None))
    by (apply ParseUint_decimal; repeat split; auto; lia).
  now rewrite HP.
Qed.

(** X6.  What POST /resize passes to [ContainerResize].  The call is
    made exactly when [id] is not empty and [w] and [h] are each a
    non-empty string of decimal digits that writes a number from 1 to
    4294967295; there is then one call, with the id as given, the number
    [h] writes as height and the number [w] writes as width.  In every
    other case no call is made and the one response is 400. *)
Theorem resize_call_arguments (env : Env) (r : Request) :
  Method r = "POST" ->
  let id := Get (Query r) "id" in
  let w := Get (Query r) "w" in
  let h := Get (Query r) "h" in
  let valid (s : string) :=
    s <> "" /\ allDigits s = true /\ 1 <= decimal s <= 4294967295 in
  (id <> "" /\ valid w /\ valid h ->
   container_resizes (snd (resizeHandler env r [])) = [(id, decimal h, decimal w)])
  /\ (~ (id <> "" /\ valid w /\ valid h) ->
      container_resizes (snd (resizeHandler env r [])) = []
      /\ responses (snd (resizeHandler env r [])) = [StatusBadRequest]).
Proof.
  intros HM id w h valid. split.
  - intros (Hid & Hw & Hh).
    apply badDimension_false in Hw, Hh.
    rewrite (resizeHandler_valid env r [] HM Hid Hw Hh).
    fold id w h. rewrite (dimension_decimal w Hw), (dimension_decimal h Hh). simpl.
    now destruct (ContainerResizeErr env id (decimal h) (decimal w)).
  - intros Hn.
    assert (Hbad : id = "" \/ badDimension w = true \/ badDimension h = true).
    { destruct (String.eqb_spec id "") as [E | E]; [now left |]. right.
      destruct (badDimension w) eqn:Bw; [now left |]. right.
      destruct (badDimension h) eqn:Bh; [reflexivity |].
      exfalso. apply Hn. split; [exact E |].
      split; now apply badDimension_false. }
    destruct (resizeHandler_bad_request env r [] HM Hbad) as [msg ->].
    simpl. now split.
Qed.

Lemma resize_call_arguments_witness :
  container_resizes (snd (resizeHandler quietEnv resizeRequest []))
  = [("abc123", decimal "40", decimal "120")].
Proof.
  refine (proj1 (resize_call_arguments quietEnv resizeRequest _) _).
  - reflexivity.
  - vm_compute. repeat split; discriminate.
Defined.

(** X7.  Every request to /resize gets exactly one response.  Its code
    is 405 exactly when the method is not POST; it is 200 or 500 exactly
    when one call to [ContainerResize] was made, and 405 or 400 exactly
    when none was; and the body [ok] is written exactly when the code is
    200. *)
Theorem resize_one_response (env : Env) (r : Request) :
  let tr := snd (resizeHandler env r []) in
  exists code,
    responses tr = [code]
    /\ (code = StatusMethodNotAllowed <-> Method r <> "POST")
    /\ (code = StatusOK \/ code = StatusInternalServerError
        <-> exists call, container_resizes tr = [call])
    /\ (code = StatusMethodNotAllowed \/ code = StatusBadRequest
        <-> container_resizes tr = [])
    /\ (code = StatusOK <-> In (RespWrite (bytes_of_string "ok")) tr).
Proof.
  cbv zeta. destruct (String.eqb_spec (Method r) "POST") as [HM | HM].
  - destruct (String.eqb_spec (Get (Query r) "id") "") as [Hid | Hid];
      [| destruct (badDimension (Get (Query r) "w")) eqn:Hw;
         [| destruct (badDimension (Get (Query r) "h")) eqn:Hh]].
    1-3: (destruct (resizeHandler_bad_request env r [] HM) as [msg ->]; [tauto |];
          exists StatusBadRequest; simpl; unfold StatusBadRequest, StatusMethodNotAllowed,
            StatusOK, StatusInternalServerError;
          repeat split; try tauto; try lia; try discriminate;
          try (intros [H | H]; discriminate H);
          try (intros [c H]; discriminate H);
          try (intros [H | []]; discriminate H)).
    rewrite (resizeHandler_valid env r [] HM Hid Hw Hh).
    destruct (ContainerResizeErr env _ _ _) as [e |]; simpl.
    + exists StatusInternalServerError.
      unfold StatusBadRequest, StatusMethodNotAllowed, StatusOK, StatusInternalServerError.
      repeat split; try tauto; try lia; try discriminate; eauto;
        try (intros [H | H]; discriminate H);
        try (intros [H | [H | []]]; discriminate H).
    + exists StatusOK.
      unfold StatusBadRequest, StatusMethodNotAllowed, StatusOK, StatusInternalServerError.
      repeat split; try tauto; try lia; try discriminate; eauto;
        try (intros [H | H]; discriminate H).
  - unfold resizeHandler. apply String.eqb_neq in HM. rewrite HM. simpl.
    exists StatusMethodNotAllowed.
    unfold StatusBadRequest, StatusMethodNotAllowed, StatusOK, StatusInternalServerError.
    apply String.eqb_neq in HM.
    repeat split; try tauto; try lia; try discriminate; eauto;
      try (intros [H | H]; discriminate H);
      try (intros [c H]; discriminate H);
      try (intros [H | []]; discriminate H).
Qed.


(** ** attachHandler before the session *)

(** X8.  A request to /attach that is turned away before the session:
    without an [id] the only effect is the response 400, and the upgrade
    is not tried; when the upgrade fails the only effect after it is one
    log line.  Either way Docker is never called, nothing is closed and
    no frame is written. *)
Theorem attach_refused_early (U : bytes -> resizeMsg -> option resizeMsg)
        (env : Env) (r : Request) :
  (Get (Query r) "id" = "" ->
   attachHandler U env r []
   = (Returned, [HttpError (dq "missing 'id' query parameter") StatusBadRequest]))
  /\ (forall e,
        Get (Query r) "id" <> "" ->
        UpgradeErr env = Some e ->
        attachHandler U env r []
        = (Returned, [Upgrade; Log "[attach] websocket upgrade failed: %v" [Error e]]))
  /\ (Get (Query r) "id" = "" \/ UpgradeErr env <> None ->
      docker_calls (snd (attachHandler U env r [])) = []
      /\ closes (snd (attachHandler U env r [])) = []
      /\ ws_frames (snd (attachHandler U env r [])) = []).
Proof.
  assert (H1 : Get (Query r) "id" = "" ->
               attachHandler U env r []
               = (Returned, [HttpError (dq "missing 'id' query parameter") StatusBadRequest])).
  { intros Hid. unfold attachHandler. rewrite Hid. reflexivity. }
  assert (H2 : forall e, Get (Query r) "id" <> "" -> UpgradeErr env = Some e ->
               attachHandler U env r []
               = (Returned, [Upgrade; Log "[attach] websocket upgrade failed: %v" [Error e]])).
  { intros e Hid Hup. unfold attachHandler. apply String.eqb_neq in Hid. rewrite Hid.
    cbv [bind upgrader_Upgrade ask log_Printf call ret]. rewrite Hup. reflexivity. }
  split; [exact H1 |]. split; [exact H2 |].
  intros H. destruct (String.eqb_spec (Get (Query r) "id") "") as [Hid | Hid].
  - rewrite (H1 Hid). now repeat split.
  - destruct H as [H | H]; [contradiction |].
    destruct (UpgradeErr env) as [e |] eqn:Hup; [| now contradiction H].
    rewrite (H2 e Hid eq_refl). now repeat split.
Qed.


(** ** cmd/main.go *)

Section MainLoops.

Variable env : Env.

Lemma main_dockerToWsLoop_cons (r : bytes * option error)
      (rest : list (bytes * option error)) (buf : bytes) (tr : trace) :
  main.dockerToWsLoop env (r :: rest) buf tr =
    match main.dockerToWsBody env r buf tr with
    | ((Continue, buf'), tr') => main.dockerToWsLoop env rest buf' tr'
    | ((Return, _), tr') => (Returned, tr')
    end.
Proof.
  simpl. unfold bind at 1.
  destruct (main.dockerToWsBody env r buf tr) as [[[] buf'] tr']; reflexivity.
Qed.

Lemma main_dockerToWsBody_events (data : bytes) (readErr : option error)
      (buf : bytes) (tr : trace) :
  exists evs,
    snd (main.dockerToWsBody env (data, readErr) buf tr) = tr ++ evs
    /\ exec_reads evs = [(data, readErr)]
    /\ ws_frames evs = framesOf (cleanReads [(data, readErr)]).
Proof.
  cbv [main.dockerToWsBody hijack_Reader_Read bind ret call ask time_Now_
       ws_SetWriteDeadline ws_WriteMessage log_Printf].
  unfold framesOf, cleanReads.
  destruct readErr as [[] |]; simpl.
  1-3: eexists; rewrite <- ?app_assoc; (split; [reflexivity |]); now split.
  destruct (0 <? len data) eqn:Hn.
  - rewrite buffer_prefix. destruct (WriteMessageErr env _); simpl;
      eexists; rewrite <- ?app_assoc; (split; [reflexivity |]);
      simpl; rewrite ?Hn; now split.
  - simpl. eexists. split; [reflexivity |]. simpl. rewrite ?Hn. now split.
Qed.

(** X9.  The loop of the goroutine in cmd/main.go looks at the error of
    a read before its bytes.  The frames it writes are the non-empty
    reads that came without an error, in order; so bytes that come
    together with an error (the last output before the end of the
    stream, say) are read and never written to the client. *)
Theorem main_outbound_drops_final_bytes (results : list (bytes * option error))
        (buf : bytes) :
  (forall tr, exists evs,
      snd (main.dockerToWsLoop env results buf tr) = tr ++ evs
      /\ ws_frames evs = framesOf (cleanReads (exec_reads evs))
      /\ exists rest, results = exec_reads evs ++ rest)
  /\ forall (b : byte) (data : bytes) (e : error)
            (rest : list (bytes * option error)) (tr : trace),
       let final := main.dockerToWsLoop env ((b :: data, Some e) :: rest) buf tr in
       fst final = Returned
       /\ ws_frames (snd final) = ws_frames tr
       /\ exec_reads (snd final) = exec_reads tr ++ [(b :: data, Some e)].
Proof.
  split.
  - revert buf. induction results as [| [data readErr] results IH]; intros buf tr.
    + exists []. simpl. rewrite app_nil_r. repeat split. now exists [].
    + rewrite main_dockerToWsLoop_cons.
      destruct (main_dockerToWsBody_events data readErr buf tr) as (evs & Htr & Hr & Hf).
      destruct (main.dockerToWsBody env (data, readErr) buf tr) as [[[] buf'] tr'];
        simpl in Htr; subst tr'.
      * destruct (IH buf' (tr ++ evs)) as (evs' & Htr' & Hf' & rest & Hrest).
        exists (evs ++ evs'). rewrite Htr', app_assoc. split; [reflexivity |].
        rewrite ws_frames_app, exec_reads_app. unfold cleanReads in *.
        rewrite List.filter_app, framesOf_app, Hf, Hf', Hr. split; [reflexivity |].
        exists rest. simpl. now rewrite Hrest.
      * exists evs. simpl. split; [reflexivity |].
        rewrite Hf, Hr. split; [reflexivity |]. now exists results.
  - intros b data e rest tr. cbv zeta. rewrite main_dockerToWsLoop_cons.
    cbv [main.dockerToWsBody hijack_Reader_Read bind ret call ask log_Printf].
    destruct e; simpl; rewrite ?ws_frames_app, ?exec_reads_app; simpl;
      rewrite ?app_nil_r; repeat split; now rewrite ?app_nil_r.
Qed.

Lemma main_wsToDockerLoop_cons (r : Z * bytes * option error)
      (rest : list (Z * bytes * option error)) (tr : trace) :
  main.wsToDockerLoop env (r :: rest) tr =
    match main.wsToDockerBody env r tr with
    | (Continue, tr') => main.wsToDockerLoop env rest tr'
    | (Return, tr') => (Returned, tr')
    end.
Proof.
  simpl. unfold bind at 1.
  destruct (main.wsToDockerBody env r tr) as [[] tr']; reflexivity.
Qed.

Lemma main_wsToDockerBody_events (r : Z * bytes * option error) (tr : trace) :
  exists evs,
    snd (main.wsToDockerBody env r tr) = tr ++ evs
    /\ ws_reads evs = [r]
    /\ conn_writes evs = plainForwardedOf [r]
    /\ exec_resizes evs = [] /\ container_resizes evs = [].
Proof.
  destruct r as [[mt p] err].
  cbv [main.wsToDockerBody ws_ReadMessage bind ret call ask log_Printf hijack_Conn_Write].
  unfold plainForwardedOf.
  destruct err as [e |]; simpl.
  { eexists. rewrite <- ?app_assoc. split; [reflexivity |]. now repeat split. }
  destruct (mt =? websocket.CloseMessage) eqn:Hmt.
  { eexists. split; [reflexivity |]. simpl. rewrite ?Hmt. now repeat split. }
  destruct (len p =? 0) eqn:Hl.
  { eexists. split; [reflexivity |]. simpl. rewrite ?Hmt, ?Hl. now repeat split. }
  destruct (ConnWriteErr env _); simpl;
    eexists; rewrite <- ?app_assoc; (split; [reflexivity |]);
    simpl; rewrite ?Hmt, ?Hl; now repeat split.
Qed.

(** X10.  The loop of the handler in cmd/main.go has no resize path: it
    writes every non-empty payload it reads to the container, resize
    frames included, in order, and never calls a resize.  It also logs
    every failed read, a normal closure too, and then leaves the loop. *)
Theorem main_inbound_forwards_everything (results : list (Z * bytes * option error)) :
  (forall tr, exists evs,
      snd (main.wsToDockerLoop env results tr) = tr ++ evs
      /\ conn_writes evs = plainForwardedOf (ws_reads evs)
      /\ exec_resizes evs = [] /\ container_resizes evs = []
      /\ exists rest, results = ws_reads evs ++ rest)
  /\ forall (mt : Z) (p : bytes) (e : error)
            (rest : list (Z * bytes * option error)) (tr : trace),
       main.wsToDockerLoop env ((mt, p, Some e) :: rest) tr
       = (Returned,
          tr ++ [WsReadMessage mt p (Some e);
                 Log "read from websocket failed: %v" [Error e]]).
Proof.
  split.
  - induction results as [| r results IH]; intros tr.
    + exists []. simpl. rewrite app_nil_r. repeat split. now exists [].
    + rewrite main_wsToDockerLoop_cons.
      destruct (main_wsToDockerBody_events r tr) as (evs & Htr & Hr & Hc & Hz & Hk).
      destruct (main.wsToDockerBody env r tr) as [[] tr']; simpl in Htr; subst tr'.
      * destruct (IH (tr ++ evs)) as (evs' & Htr' & Hc' & Hz' & Hk' & rest & Hrest).
        exists (evs ++ evs'). rewrite Htr', app_assoc. split; [reflexivity |].
        unfold plainForwardedOf, container_resizes in *.
        rewrite conn_writes_app, exec_resizes_app, ws_reads_app, !flat_map_app,
          Hc, Hc', Hz, Hz', Hk, Hk', Hr.
        repeat split. exists rest. simpl. now rewrite Hrest.
      * exists evs. simpl. split; [reflexivity |].
        rewrite Hc, Hz, Hk, Hr. repeat split. now exists results.
  - intros mt p e rest tr. rewrite main_wsToDockerLoop_cons.
    cbv [main.wsToDockerBody ws_ReadMessage bind ret call ask log_Printf].
    now rewrite <- app_assoc.
Qed.

End MainLoops.


(** ** corsMiddleware *)

Lemma cors_headers (h : gmap string (list string)) :
  let h' := Header_Set (Header_Set (Header_Set h
              "Access-Control-Allow-Origin" "*")
              "Access-Control-Allow-Methods" "GET, POST, OPTIONS")
              "Access-Control-Allow-Headers" "Content-Type" in
  h' !! "Access-Control-Allow-Origin" = Some ["*"]
  /\ h' !! "Access-Control-Allow-Methods" = Some ["GET, POST, OPTIONS"]
  /\ h' !! "Access-Control-Allow-Headers" = Some ["Content-Type"]
  /\ (forall key,
        key <> "Access-Control-Allow-Origin" ->
        key <> "Access-Control-Allow-Methods" ->
        key <> "Access-Control-Allow-Headers" ->
        h' !! key = h !! key).
Proof.
  cbv zeta. unfold Header_Set. repeat split.
  - rewrite lookup_insert_ne by discriminate.
    rewrite lookup_insert_ne by discriminate.
    apply lookup_insert_eq.
  - rewrite lookup_insert_ne by discriminate. apply lookup_insert_eq.
  - apply lookup_insert_eq.
  - intros key H1 H2 H3.
    rewrite !lookup_insert_ne by congruence. reflexivity.
Qed.

(** X11.  [corsMiddleware] sets the three CORS headers on every
    response and leaves every other header as it was.  A preflight
    request (method OPTIONS) is answered 204 with the three headers and
    never reaches the wrapped handler; for every other request the
    wrapped handler is called, once, with the request as it came and a
    header map that holds the three headers, and the response is
    whatever it makes of that. *)
Theorem cors_preflight_and_headers
        (next : Request -> gmap string (list string) -> M (gmap string (list string)))
        (r : Request) (h : gmap string (list string)) (tr : trace) :
  let cors (sent : gmap string (list string)) :=
    sent !! "Access-Control-Allow-Origin" = Some ["*"]
    /\ sent !! "Access-Control-Allow-Methods" = Some ["GET, POST, OPTIONS"]
    /\ sent !! "Access-Control-Allow-Headers" = Some ["Content-Type"]
    /\ (forall key,
          key <> "Access-Control-Allow-Origin" ->
          key <> "Access-Control-Allow-Methods" ->
          key <> "Access-Control-Allow-Headers" ->
          sent !! key = h !! key) in
  (Method r = "OPTIONS" ->
   snd (corsMiddleware next r h tr) = tr ++ [RespWriteHeader StatusNoContent]
   /\ cors (fst (corsMiddleware next r h tr)))
  /\ (Method r <> "OPTIONS" ->
      exists given, corsMiddleware next r h tr = next r given tr /\ cors given)
  /\ (Method r <> "OPTIONS" ->
      cors (fst (corsMiddleware (fun _ given => ret given) r h tr))).
Proof.
  cbv zeta. pose proof (cors_headers h) as Hh. cbv zeta in Hh.
  unfold corsMiddleware. split; [| split].
  - intros ->. cbn [String.eqb Ascii.eqb Bool.eqb].
    cbv [w_WriteHeader bind call ret]. cbn [fst snd]. split; [reflexivity | exact Hh].
  - intros Hm. apply String.eqb_neq in Hm. rewrite Hm. eexists. split; [reflexivity |].
    exact Hh.
  - intros Hm. apply String.eqb_neq in Hm. rewrite Hm. exact Hh.
Qed.

(** The middleware around the handler of /fs/file: a preflight request
    with no parameter at all is answered 204, not 400. *)
Example cors_before_fileHandler :
  corsMiddleware (fun r h => fileHandler plainContainer r "" io_EOF h)
                 (mkRequest "OPTIONS" (query [])) empty []
  = (Header_Set (Header_Set (Header_Set empty
       "Access-Control-Allow-Origin" "*")
       "Access-Control-Allow-Methods" "GET, POST, OPTIONS")
       "Access-Control-Allow-Headers" "Content-Type",
     [RespWriteHeader StatusNoContent]).
Proof. reflexivity. Qed.

(** ** escapeForShell *)


Lemma append_String (c : ascii) (s t : string) :
  String.append (String c s) t = String c (String.append s t).
Proof. reflexivity. Qed.

Lemma append_empty (t : string) : String.append "" t = t.
Proof. reflexivity. Qed.

Lemma append_assoc (a b c : string) :
  String.append (String.append a b) c = String.append a (String.append b c).
Proof.
  induction a as [| x a IH]; [reflexivity |].
  now rewrite !append_String, IH.
Qed.

Lemma shWord_escaped_apostrophe (x : string) :
  shWord true (String apostrophe (String backslash (String apostrophe (String apostrophe x))))
  = match shWord true x with
    | Some (w, rest) => Some (String apostrophe w, rest)
    | None => None
    end.
Proof. reflexivity. Qed.

(** Inside apostrophes the escaped query reads back as the query. *)
Lemma shWord_escape (q rest : string) :
  shWord true (String.append (escapeForShell q) (String apostrophe (String " " rest)))
  = Some (q, String " " rest).
Proof.
  induction q as [| c q IH].
  - reflexivity.
  - unfold escapeForShell in *. cbn [ReplaceAll1].
    destruct (Ascii.eqb_spec c apostrophe) as [-> | Hc].
    + rewrite append_assoc, !append_String, append_empty.
      rewrite shWord_escaped_apostrophe, IH. reflexivity.
    + rewrite append_String. cbn [shWord].
      apply Ascii.eqb_neq in Hc. rewrite Hc, IH. reflexivity.
Qed.

(** X12.  The quoting of [SearchFiles] holds for every query: in the
    command line given to [sh -c], the shell reads the argument that
    follows the options of grep as one word, and that word is the query,
    byte for byte, apostrophes, blanks, backslashes and dollar signs
    included.  What follows the word is the rest of the command as
    written. *)
Theorem searchCommand_quotes_query (query : string) :
  exists line,
    searchCommand query
    = String.append "grep -rn -i --exclude-dir='.*' --exclude-dir='node_modules' " line
    /\ shWord false line = Some (query, " . 2>/dev/null || true").
Proof.
  exists (String apostrophe
            (String.append (escapeForShell query) "' . 2>/dev/null || true")).
  split; [reflexivity |].
  cbn [shWord]. change (Ascii.eqb apostrophe apostrophe) with true. cbv iota.
  apply (shWord_escape query ". 2>/dev/null || true").
Qed.


Example Clean_examples :
  map path.Clean ["a/b"; "a//b/./c/.."; "../a"; "/../a"; "a/../.."; ""; "/"; "a/.."; "..foo/bar"; "./"; "/a/b/../../.."; "abc/def/../../../ghi"]
  = ["a/b"; "a/b"; "../a"; "/a"; ".."; "."; "/"; "."; "..foo/bar"; "."; "/"; "../ghi"].
Proof. reflexivity. Qed.

Example Dir_Base_examples :
  map path.Dir ["/a/b"; "a/b/"; "a"; ""; "/"; "a/../b"; "a/.."]
  = ["/a"; "a/b"; "."; "."; "/"; "."; "a"]
  /\ map path.Base ["/a/b"; "a/b/"; "a"; ""; "/"; "//"; "a/.."]
     = ["b"; "b"; "a"; "."; "/"; "/"; ".."].
Proof. split; reflexivity. Qed.

Example validatePath_examples :
  map validatePath ["src/main.go"; "a/../b"; "a/.."; "."]
  = [None; None; None; None]
  /\ validatePath "../etc/passwd" <> None /\ validatePath "/etc/passwd" <> None
  /\ validatePath "a/../../b" <> None /\ validatePath "..foo" <> None.
Proof. vm_compute. repeat split; discriminate. Qed.

(** ** path.Clean below a root *)

Section CleanBelowRoot.

Import path.

Lemma unrooted_cons (c : ascii) (r : list ascii) :
  r <> [] -> unrooted r -> unrooted (c :: r).
Proof. intros Hr H. unfold unrooted in *. destruct r; [contradiction | exact H]. Qed.

Lemma dropElem_glue (r : list ascii) :
  r <> [] -> unrooted r ->
  dropElem 1 (r ++ slash :: rW) = glue (dropElem 0 r) /\ unrooted (dropElem 0 r).
Proof.
  induction r as [| c r IH]; intros Hne Hu; [contradiction |].
  cbn [dropElem app].
  assert (Hlen : (1 <? List.length (r ++ slash :: rW))%nat = true).
  { apply Nat.ltb_lt. rewrite length_app. simpl. lia. }
  rewrite Hlen. destruct r as [| c' r].
  - (* the last element of the output *)
    simpl in Hu. unfold unrooted in Hu. simpl in Hu.
    apply Ascii.eqb_neq in Hu. rewrite Hu. simpl.
    change (Ascii.eqb slash slash) with true. simpl.
    split; [reflexivity | unfold unrooted; simpl; discriminate].
  - assert (Hl0 : (0 <? List.length (c' :: r))%nat = true) by (apply Nat.ltb_lt; simpl; lia).
    rewrite Hl0. destruct (Ascii.eqb c slash) eqn:Hc; cbn [andb negb].
    + split; [reflexivity |]. unfold unrooted in *. exact Hu.
    + apply IH; [discriminate |]. unfold unrooted in *. exact Hu.
Qed.

Lemma dropElem_keeps (base z : list ascii) :
  z <> [] -> exists z', dropElem (List.length base) (z ++ base) = z' ++ base.
Proof.
  induction z as [| c z IH]; intros Hne; [contradiction |].
  cbn [dropElem app]. destruct z as [| c' z].
  - simpl. rewrite Nat.ltb_irrefl. simpl. now exists [].
  - destruct ((List.length base <? List.length ((c' :: z) ++ base))%nat
              && negb (Ascii.eqb c slash)).
    + apply IH. discriminate.
    + now exists (c' :: z).
Qed.

(** Once the output starts with a [..] that cannot be taken back, it
    starts with [..] to the end. *)
Lemma cleanLoop_dotted (n : nat) :
  forall (s : list ascii) (inElem : bool) (z base : list ascii),
    (List.length s <= n)%nat ->
    dotted base ->
    dotted (cleanLoop false inElem s (z ++ base) (List.length base)).
Proof.
  induction n as [| n IH]; intros s inElem z base Hn Hb.
  - destruct s; [| simpl in Hn; lia]. simpl.
    destruct Hb as [b ->]. exists (z ++ b). now rewrite app_assoc.
  - destruct s as [| c s']; [simpl; destruct Hb as [b ->]; exists (z ++ b); now rewrite app_assoc |].
    simpl in Hn. cbn [cleanLoop].
    destruct (Ascii.eqb c slash); [apply IH; [lia | exact Hb] |].
    destruct inElem; [apply (IH s' true (c :: z) base); [lia | exact Hb] |].
    destruct (Ascii.eqb c dot && elementEnds s'); [apply IH; [lia | exact Hb] |].
    assert (Hreal : forall r1,
               (r1 = z ++ base \/ r1 = slash :: z ++ base) ->
               dotted (cleanLoop false true s' (c :: r1) (List.length base))).
    { intros r1 [-> | ->].
      - apply (IH s' true (c :: z) base); [lia | exact Hb].
      - apply (IH s' true (c :: slash :: z) base); [lia | exact Hb]. }
    destruct s' as [| c' s''].
    + cbn [andb negb orb]. apply Hreal.
      destruct (negb (List.length (z ++ base) =? 0)%nat); auto.
    + destruct (Ascii.eqb c dot && Ascii.eqb c' dot && elementEnds s'').
      * simpl in Hn.
        destruct (List.length base <? List.length (z ++ base))%nat eqn:Hl.
        -- assert (Hz : z <> []).
           { intros ->. simpl in Hl. rewrite Nat.ltb_irrefl in Hl. discriminate. }
           destruct (dropElem_keeps base z Hz) as [z' ->].
           apply IH; [lia | exact Hb].
        -- cbn [negb].
           assert (Hz : z = []).
           { destruct z; [reflexivity |]. apply Nat.ltb_ge in Hl.
             rewrite length_app in Hl. simpl in Hl. lia. }
           subst z. cbn [app].
           set (r1 := if (0 <? List.length base)%nat then slash :: base else base).
           apply (IH s'' false [] (dot :: dot :: r1)); [lia |].
           destruct Hb as [b ->]. subst r1.
           destruct (0 <? List.length (b ++ [dot; dot]))%nat.
           ++ exists (dot :: dot :: slash :: b). reflexivity.
           ++ exists (dot :: dot :: b). reflexivity.
      * cbn [andb negb orb]. apply Hreal.
        destruct (negb (List.length (z ++ base) =? 0)%nat); auto.
Qed.

Lemma glue_cons (c : ascii) (r : list ascii) :
  r <> [] -> c :: glue r = glue (c :: r).
Proof. destruct r; [contradiction | reflexivity]. Qed.

Lemma glue_length (r : list ascii) : (1 <? List.length (glue r))%nat = true.
Proof.
  apply Nat.ltb_lt. destruct r; simpl; [lia |]. rewrite length_app. simpl. lia.
Qed.

Lemma glue_not_one (r : list ascii) : (List.length (glue r) =? 1)%nat = false.
Proof.
  apply Nat.eqb_neq. destruct r; simpl; [lia |]. rewrite length_app. simpl. lia.
Qed.

(** The run of [Clean] on [/workspace/p], once it has read [/workspace/],
    goes step by step with the run on [p]: its buffer is that of the run
    on [p] below [/workspace], unless the run on [p] has put a [..] at the
    start of its output. *)
Lemma cleanLoop_below (n : nat) :
  forall (s : list ascii) (inElem : bool) (r : list ascii),
    (List.length s <= n)%nat ->
    unrooted r ->
    (inElem = true -> r <> []) ->
    let fR := cleanLoop false inElem s r 0 in
    let fA := cleanLoop true inElem s (glue r) 1 in
    dotted fR \/ (fA = glue fR /\ unrooted fR).
Proof.
  induction n as [| n IH]; intros s inElem r Hn Hu Hin; cbv zeta.
  - destruct s; [| simpl in Hn; lia]. right. simpl. now split.
  - destruct s as [| c s']; [right; simpl; now split |].
    simpl in Hn. cbn [cleanLoop].
    destruct (Ascii.eqb c slash) eqn:Hc.
    { apply (IH s' false r); [lia | exact Hu | discriminate]. }
    assert (Hcs : c <> slash) by (now apply Ascii.eqb_neq).
    destruct inElem.
    { specialize (Hin eq_refl). rewrite (glue_cons c r Hin).
      apply (IH s' true (c :: r)); [lia | now apply unrooted_cons | discriminate]. }
    destruct (Ascii.eqb c dot && elementEnds s').
    { apply (IH s' false r); [lia | exact Hu | discriminate]. }
    assert (Hreal :
      dotted (cleanLoop false true s'
                (c :: (if (false && negb (List.length r =? 1)%nat)
                          || (negb false && negb (List.length r =? 0)%nat)
                       then slash :: r else r)) 0)
      \/ (cleanLoop true true s'
            (c :: (if (true && negb (List.length (glue r) =? 1)%nat)
                      || (negb true && negb (List.length (glue r) =? 0)%nat)
                   then slash :: glue r else glue r)) 1
          = glue (cleanLoop false true s'
                    (c :: (if (false && negb (List.length r =? 1)%nat)
                              || (negb false && negb (List.length r =? 0)%nat)
                           then slash :: r else r)) 0)
          /\ unrooted (cleanLoop false true s'
                         (c :: (if (false && negb (List.length r =? 1)%nat)
                                   || (negb false && negb (List.length r =? 0)%nat)
                                then slash :: r else r)) 0))).
    { rewrite glue_not_one. cbn [andb negb orb].
      destruct r as [| c0 r0].
      - cbn [List.length Nat.eqb negb glue].
        change (c :: slash :: rW) with (glue [c]).
        apply (IH s' true [c]); [lia | | discriminate].
        unfold unrooted. simpl. exact Hcs.
      - cbn [List.length Nat.eqb negb].
        change (c :: slash :: glue (c0 :: r0)) with (glue (c :: slash :: c0 :: r0)).
        apply (IH s' true (c :: slash :: c0 :: r0)); [lia | | discriminate].
        unfold unrooted in *. exact Hu. }
    destruct s' as [| c' s'']; [exact Hreal |].
    destruct (Ascii.eqb c dot && Ascii.eqb c' dot && elementEnds s''); [| exact Hreal].
    simpl in Hn. rewrite glue_length.
    destruct r as [| c0 r0].
    + (* nothing to take back: the output starts with [..] *)
      left. cbn [List.length Nat.ltb Nat.leb negb].
      apply (cleanLoop_dotted (List.length s'') s'' false [] [dot; dot]); [lia |].
      now exists [].
    + cbn [List.length]. change (0 <? S (List.length r0))%nat with true. cbv iota.
      destruct (dropElem_glue (c0 :: r0) ltac:(discriminate) Hu) as [Hd Hud].
      change (glue (c0 :: r0)) with ((c0 :: r0) ++ slash :: rW). rewrite Hd.
      apply (IH s'' false (dropElem 0 (c0 :: r0))); [lia | exact Hud | discriminate].
Qed.

Lemma list_ascii_of_append (a b : string) :
  list_ascii_of_string (String.append a b)
  = list_ascii_of_string a ++ list_ascii_of_string b.
Proof. induction a as [| c a IH]; [reflexivity |]. simpl. now rewrite IH. Qed.

Lemma string_of_list_app (a b : list ascii) :
  string_of_list_ascii (a ++ b)
  = String.append (string_of_list_ascii a) (string_of_list_ascii b).
Proof. induction a as [| c a IH]; [reflexivity |]. simpl. now rewrite IH. Qed.

Lemma dotted_prefix (r : list ascii) :
  dotted r -> HasPrefix (string_of_list_ascii (rev r)) ".." = true.
Proof.
  intros [z ->]. rewrite rev_app_distr. simpl. unfold HasPrefix. simpl.
  now destruct (string_of_list_ascii (rev z)).
Qed.

(** The output of [Clean] on a rooted path keeps its leading slash. *)
Lemma dropElem_rooted (x : list ascii) :
  x <> [] -> exists x', dropElem 1 (x ++ [slash]) = x' ++ [slash].
Proof. intros Hx. exact (dropElem_keeps [slash] x Hx). Qed.

Lemma cleanLoop_rooted (n : nat) :
  forall (s : list ascii) (inElem : bool) (x : list ascii),
    (List.length s <= n)%nat ->
    exists x', cleanLoop true inElem s (x ++ [slash]) 1 = x' ++ [slash].
Proof.
  induction n as [| n IH]; intros s inElem x Hn.
  - destruct s; [| simpl in Hn; lia]. now exists x.
  - destruct s as [| c s']; [now exists x |].
    simpl in Hn. cbn [cleanLoop].
    destruct (Ascii.eqb c slash); [apply IH; lia |].
    destruct inElem; [apply (IH s' true (c :: x)); lia |].
    destruct (Ascii.eqb c dot && elementEnds s'); [apply IH; lia |].
    assert (Hreal : forall r1,
               (r1 = x ++ [slash] \/ r1 = slash :: x ++ [slash]) ->
               exists x', cleanLoop true true s' (c :: r1) 1 = x' ++ [slash]).
    { intros r1 [-> | ->].
      - apply (IH s' true (c :: x)); lia.
      - apply (IH s' true (c :: slash :: x)); lia. }
    destruct s' as [| c' s''].
    + apply Hreal. destruct ((true && negb (List.length (x ++ [slash]) =? 1)%nat)
                             || (negb true && negb (List.length (x ++ [slash]) =? 0)%nat)); auto.
    + destruct (Ascii.eqb c dot && Ascii.eqb c' dot && elementEnds s'').
      * simpl in Hn. destruct (1 <? List.length (x ++ [slash]))%nat eqn:Hl.
        -- assert (Hx : x <> []).
           { intros ->. simpl in Hl. discriminate. }
           destruct (dropElem_rooted x Hx) as [x' ->]. apply IH. lia.
        -- cbn [negb]. apply IH. lia.
      * apply Hreal. destruct ((true && negb (List.length (x ++ [slash]) =? 1)%nat)
                               || (negb true && negb (List.length (x ++ [slash]) =? 0)%nat)); auto.
Qed.

Lemma Clean_rooted (s : string) :
  HasPrefix (Clean (String slash s)) "/" = true.
Proof.
  unfold Clean. cbn [list_ascii_of_string].
  change (Ascii.eqb slash slash) with true. cbv iota zeta.
  destruct (cleanLoop_rooted (List.length (list_ascii_of_string s))
              (list_ascii_of_string s) false [] (Nat.le_refl _)) as [x' Hx].
  cbn [app] in Hx. rewrite Hx.
  destruct (x' ++ [slash]) eqn:E; [now destruct x' |].
  rewrite <- E, rev_app_distr. unfold HasPrefix. simpl.
  now destruct (string_of_list_ascii (rev x')).
Qed.

(** What [validatePath] has checked when it returns [nil]. *)
Lemma validatePath_nil (p : string) :
  validatePath p = None ->
  exists c s,
    p = String c s /\ c <> slash
    /\ ~ dotted (cleanLoop false false (c :: list_ascii_of_string s) [] 0)
    /\ Clean p = match cleanLoop false false (c :: list_ascii_of_string s) [] 0 with
                 | [] => "."
                 | r => string_of_list_ascii (rev r)
                 end.
Proof.
  unfold validatePath. destruct p as [| c s]; [discriminate |].
  cbn [String.eqb]. destruct (ContainsNul (String c s)); [discriminate |].
  cbv zeta. destruct (Ascii.eqb_spec c slash) as [-> | Hc].
  { rewrite Clean_rooted. discriminate. }
  destruct (HasPrefix (Clean (String c s)) "/"); [discriminate |].
  destruct (HasPrefix (Clean (String c s)) "..") eqn:Hdd; [discriminate |].
  intros _. exists c, s. split; [reflexivity |]. split; [exact Hc |].
  unfold Clean in *. cbn [list_ascii_of_string] in *.
  apply Ascii.eqb_neq in Hc. rewrite Hc in *. cbv zeta in *.
  split.
  - intros Hd. pose proof (dotted_prefix _ Hd) as Hp.
    destruct (cleanLoop false false (c :: list_ascii_of_string s) [] 0) eqn:E.
    + destruct Hd as [z Hz]. now destruct z.
    + congruence.
  - now destruct (cleanLoop false false (c :: list_ascii_of_string s) [] 0).
Qed.

(** X13.  A path that [validatePath] accepts stays below the workspace:
    the path [ReadFile] asks the container for, once cleaned, is
    [/workspace] itself or [/workspace/] followed by the cleaned path,
    which is relative and does not start with two dots. *)
Theorem validatePath_keeps_below_workspace (p : string) :
  validatePath p = None ->
  Clean (absPath p) = "/workspace"
  \/ Clean (absPath p) = String.append "/workspace/" (Clean p).
Proof.
  intros Hv. destruct (validatePath_nil p Hv) as (c & s & -> & Hc & Hnd & HC).
  rewrite HC. clear HC.
  assert (HA : Clean (absPath (String c s))
               = match cleanLoop true false (c :: list_ascii_of_string s) rW 1 with
                 | [] => "."
                 | _ :: _ =>
                     string_of_list_ascii
                       (rev (cleanLoop true false (c :: list_ascii_of_string s) rW 1))
                 end) by reflexivity.
  rewrite HA. clear HA.
  destruct (cleanLoop_below (List.length (c :: list_ascii_of_string s))
              (c :: list_ascii_of_string s) false [] (Nat.le_refl _)
              ltac:(unfold unrooted; simpl; discriminate) ltac:(discriminate))
    as [Hd | [Hg _]]; [contradiction |].
  cbn [glue] in Hg. rewrite Hg.
  destruct (cleanLoop false false (c :: list_ascii_of_string s) [] 0) as [| c0 r0].
  - left. reflexivity.
  - right. cbn [glue]. remember (c0 :: r0) as r eqn:Er.
    destruct (r ++ slash :: rW) eqn:E; [subst r; discriminate E |]. rewrite <- E.
    rewrite rev_app_distr. cbn [rev]. unfold rW. rewrite rev_involutive.
    rewrite <- app_assoc, string_of_list_app.
    subst r. reflexivity.
Qed.

Lemma validatePath_keeps_below_workspace_witness :
  Clean (absPath "src/../main.go") = "/workspace"
  \/ Clean (absPath "src/../main.go")
     = String.append "/workspace/" (Clean "src/../main.go").
Proof.
  apply validatePath_keeps_below_workspace. vm_compute. reflexivity.
Defined.

(** X14.  [validatePath] turns down the empty path, a path with a zero
    byte, an absolute path, and a path that is [..] or starts with
    [../], whatever follows. *)
Theorem validatePath_rejects (p : string) :
  (p = "" -> validatePath p <> None)
  /\ (In zero (list_ascii_of_string p) -> validatePath p <> None)
  /\ (HasPrefix p "/" = true -> validatePath p <> None)
  /\ (p = ".." \/ HasPrefix p "../" = true -> validatePath p <> None).
Proof.
  split; [intros ->; discriminate |]. split; [| split].
  - intros Hz Hv. unfold validatePath in Hv.
    destruct (String.eqb p ""); [discriminate |].
    assert (Hn : ContainsNul p = true).
    { unfold ContainsNul. apply existsb_exists. exists zero. split; [exact Hz |].
      reflexivity. }
    rewrite Hn in Hv. discriminate.
  - intros Hp Hv. destruct (validatePath_nil p Hv) as (c & s & -> & Hc & _).
    unfold HasPrefix in Hp. cbn [String.prefix] in Hp.
    destruct (ascii_dec "/"%char c) as [E | E]; [apply Hc; symmetry; exact E | discriminate].
  - intros Hp Hv. destruct (validatePath_nil p Hv) as (c & s & -> & Hc & Hnd & _).
    apply Hnd. clear Hnd Hv.
    assert (Hs : exists s'', String c s = String dot (String dot s'')
                             /\ elementEnds (list_ascii_of_string s'') = true).
    { destruct Hp as [Hp | Hp].
      - injection Hp as -> ->. now exists "".
      - unfold HasPrefix in Hp. cbn [String.prefix] in Hp.
        destruct (ascii_dec "."%char c) as [<- |]; [| discriminate].
        destruct s as [| c1 s1]; cbn [String.prefix] in Hp; [discriminate |].
        destruct (ascii_dec "."%char c1) as [<- |]; [| discriminate].
        destruct s1 as [| c2 s2]; cbn [String.prefix] in Hp; [discriminate |].
        destruct (ascii_dec "/"%char c2) as [<- |]; [| discriminate].
        exists (String slash s2). split; reflexivity. }
    destruct Hs as (s'' & E & He). injection E as -> ->.
    cbn [list_ascii_of_string cleanLoop].
    change (Ascii.eqb dot slash) with false. cbv iota.
    change (Ascii.eqb dot dot) with true. rewrite He.
    cbn [andb elementEnds]. change (Ascii.eqb dot slash) with false. cbv iota.
    cbn [List.length Nat.ltb Nat.leb negb].
    apply (cleanLoop_dotted (List.length (list_ascii_of_string s''))
             (list_ascii_of_string s'') false [] [dot; dot] (Nat.le_refl _)).
    now exists [].
Qed.


End CleanBelowRoot.

(** ** /fs/file *)

Lemma validatePath_messages (p : string) (e : error) :
  validatePath p = Some e ->
  Contains (Error e) "No such container" || Contains (Error e) "not found" = false.
Proof.
  unfold validatePath.
  destruct (String.eqb p ""); [intros H; injection H as <-; reflexivity |].
  destruct (ContainsNul p); [intros H; injection H as <-; reflexivity |].
  cbv zeta.
  destruct (HasPrefix (path.Clean p) "/"); [intros H; injection H as <-; reflexivity |].
  destruct (HasPrefix (path.Clean p) ".."); [intros H; injection H as <-; reflexivity |].
  discriminate.
Qed.

Lemma limitRead_length (n : Z) (s : string) :
  Z.of_nat (String.length (limitRead n s)) <= Z.max 0 n.
Proof.
  revert n. induction s as [| c s IH]; intros n; cbn [limitRead String.length].
  - lia.
  - destruct (0 <? n) eqn:Hn; cbn [String.length]; [| lia].
    apply Z.ltb_lt in Hn. specialize (IH (n - 1)). lia.
Qed.

Lemma limitRead_all (n : Z) (s : string) :
  Z.of_nat (String.length s) <= n -> limitRead n s = s.
Proof.
  revert n. induction s as [| c s IH]; intros n Hn; cbn [limitRead String.length] in *.
  - reflexivity.
  - assert (H : (0 <? n) = true) by (apply Z.ltb_lt; lia).
    rewrite H, IH; [reflexivity | lia].
Qed.

Lemma limitRead_prefix (n : Z) (s : string) :
  String.prefix (limitRead n s) s = true.
Proof.
  revert n. induction s as [| c s IH]; intros n; cbn [limitRead].
  - reflexivity.
  - destruct (0 <? n); [| reflexivity].
    cbn [String.prefix]. destruct (ascii_dec c c); [apply IH | congruence].
Qed.

Lemma maxFileSize_pos : 0 < maxFileSize.
Proof. reflexivity. Qed.

(** X15.  A path that is not empty and that [validatePath] turns down
    never reaches the container and is never answered 404, whatever the
    container holds.  A GET is answered 500 with one log line.  A POST
    has its body read first: when that read fails it is answered 400
    and the path is not looked at; otherwise it is answered 500 with one
    log line.  (The empty path, which [validatePath] turns down too, is
    answered 400 before, as a missing parameter.) *)
Theorem fs_rejected_path (c : Container) (r : Request) (sent : string) (last : error)
        (e : error) (h : gmap string (list string)) (tr : trace) :
  Get (Query r) "id" <> "" ->
  Get (Query r) "path" <> "" ->
  validatePath (Get (Query r) "path") = Some e ->
  let id := Get (Query r) "id" in
  let p := Get (Query r) "path" in
  let failed := (Z.of_nat (String.length sent) <? maxFileSize)
                && match last with io_EOF => false | _ => true end in
  (Method r = "GET" ->
   fileHandler c r sent last h tr
   = (h, tr ++ [Log "[fs/file] read error for %s in %s: %v" [p; id; Error e];
                HttpError "failed to read file" StatusInternalServerError]))
  /\ (Method r = "POST" -> failed = false ->
      fileHandler c r sent last h tr
      = (h, tr ++ [Log "[fs/file] write error for %s in %s: %v" [p; id; Error e];
                   HttpError "failed to write file" StatusInternalServerError]))
  /\ (Method r = "POST" -> failed = true ->
      fileHandler c r sent last h tr
      = (h, tr ++ [HttpError "failed to read request body" StatusBadRequest]))
  /\ (validatePath "" <> None
      /\ forall r0 : Request,
           Get (Query r0) "id" <> "" -> Get (Query r0) "path" = "" ->
           fileHandler c r0 sent last h tr
           = (h, tr ++ [HttpError (dq "missing 'path' query parameter") StatusBadRequest])).
Proof.
  intros Hid Hp Hv id p failed. subst id p failed.
  apply String.eqb_neq in Hid, Hp. split; [| split; [| split]].
  - intros Hm.
    unfold fileHandler, ReadFile. rewrite Hid, Hp, Hm, Hv.
    rewrite (validatePath_messages _ e Hv).
    cbv [bind log_Printf http_Error call ret]. cbn [String.eqb Ascii.eqb Bool.eqb fst snd].
    now rewrite <- app_assoc.
  - intros Hm Hf.
    assert (Hbody : snd (readBody sent last) = None).
    { unfold readBody. destruct (Z.leb_spec maxFileSize (Z.of_nat (String.length sent)))
        as [Hl | Hl]; [reflexivity |].
      apply Z.ltb_lt in Hl. rewrite Hl in Hf. cbn [andb] in Hf.
      destruct last; [reflexivity | discriminate Hf | discriminate Hf]. }
    unfold fileHandler, WriteFile. rewrite Hid, Hp, Hm, Hv.
    cbn [String.eqb Ascii.eqb Bool.eqb].
    destruct (readBody sent last) as [body err]. cbn [snd] in Hbody. subst err.
    cbv [bind log_Printf http_Error call ret]. cbn [fst snd]. now rewrite <- app_assoc.
  - intros Hm Hf. apply andb_true_iff in Hf as [Hl Hlast]. apply Z.ltb_lt in Hl.
    unfold fileHandler, readBody. rewrite Hid, Hp, Hm.
    cbn [String.eqb Ascii.eqb Bool.eqb].
    rewrite (proj2 (Z.leb_gt _ _) Hl).
    destruct last; [discriminate Hlast | reflexivity | reflexivity].
  - split; [discriminate |].
    intros r0 Hid0 Hp0. apply String.eqb_neq in Hid0.
    unfold fileHandler. now rewrite Hid0, Hp0.
Qed.

Lemma fs_rejected_path_witness :
  fileHandler plainContainer traversalRequest "" io_EOF empty []
  = (empty, [Log "[fs/file] read error for %s in %s: %v"
             ["../etc/passwd"; "abc123"; "path must not traverse above workspace root"];
         HttpError "failed to read file" StatusInternalServerError]).
Proof.
  refine (proj1 (fs_rejected_path plainContainer traversalRequest "" io_EOF
                   (errorString "path must not traverse above workspace root")
                   empty [] _ _ _) _).
  - vm_compute. discriminate.
  - vm_compute. discriminate.
  - vm_compute. reflexivity.
  - reflexivity.
Defined.

(** A POST whose body read fails is answered 400 though its path would
    be turned down. *)
Example fs_rejected_path_failed_body :
  fileHandler plainContainer
              (mkRequest "POST" (query [("id", "abc123"); ("path", "../etc/passwd")]))
              "partial" (errorString "unexpected EOF") empty []
  = (empty, [HttpError "failed to read request body" StatusBadRequest]).
Proof. vm_compute. reflexivity. Qed.

(** X16.  [ReadFile] returns at most [maxFileSize] bytes, and no
    content with an error.  For an accepted path whose file is read, the
    result is the first [maxFileSize] bytes of the file with no error: a
    longer file is cut silently, a file within the limit comes back
    whole. *)
Theorem ReadFile_bounded (c : Container) (containerID filePath : string) :
  Z.of_nat (String.length (fst (ReadFile c containerID filePath))) <= maxFileSize
  /\ (snd (ReadFile c containerID filePath) <> None ->
      fst (ReadFile c containerID filePath) = "")
  /\ (forall content,
        validatePath filePath = None ->
        copyFrom c containerID (absPath filePath) = FileContent content ->
        ReadFile c containerID filePath = (limitRead maxFileSize content, None)
        /\ String.prefix (limitRead maxFileSize content) content = true
        /\ (Z.of_nat (String.length content) <= maxFileSize ->
            ReadFile c containerID filePath = (content, None))).
Proof.
  pose proof maxFileSize_pos as Hpos.
  unfold ReadFile. split; [| split].
  - destruct (validatePath filePath); [cbn [fst String.length]; lia |].
    destruct (copyFrom c containerID (absPath filePath)); cbn [fst String.length];
      try lia.
    pose proof (limitRead_length maxFileSize content). lia.
  - destruct (validatePath filePath); [reflexivity |].
    destruct (copyFrom c containerID (absPath filePath)); cbn [fst snd];
      try reflexivity.
    intros H. now contradiction H.
  - intros content Hv Hc. rewrite Hv, Hc. split; [reflexivity |].
    split; [apply limitRead_prefix |].
    intros Hl. now rewrite limitRead_all.
Qed.

(** X17.  The handler of /fs/file checks its parameters before the
    method: without [id] the response is 400, with [id] and without
    [path] it is 400, both whatever the method and the body; only with
    both does a method other than GET and POST get 405.  No log line is
    written in these cases. *)
Theorem fileHandler_checks_parameters_first (c : Container) (r : Request)
        (sent : string) (last : error)
        (h : gmap string (list string)) (tr : trace) :
  (Get (Query r) "id" = "" ->
   fileHandler c r sent last h tr
   = (h, tr ++ [HttpError (dq "missing 'id' query parameter") StatusBadRequest]))
  /\ (Get (Query r) "id" <> "" -> Get (Query r) "path" = "" ->
      fileHandler c r sent last h tr
      = (h, tr ++ [HttpError (dq "missing 'path' query parameter") StatusBadRequest]))
  /\ (Get (Query r) "id" <> "" -> Get (Query r) "path" <> "" ->
      Method r <> "GET" -> Method r <> "POST" ->
      fileHandler c r sent last h tr
      = (h, tr ++ [HttpError "method not allowed" StatusMethodNotAllowed])).
Proof.
  unfold fileHandler. repeat split.
  - intros ->. reflexivity.
  - intros Hid ->. apply String.eqb_neq in Hid. now rewrite Hid.
  - intros Hid Hp Hg Hpo.
    apply String.eqb_neq in Hid, Hp, Hg, Hpo. now rewrite Hid, Hp, Hg, Hpo.
Qed.

(** X18.  An upload to /fs/file longer than [maxFileSize] is cut, not
    refused: the handler behaves as for a body that ends after its first
    [maxFileSize] bytes.  What comes later is never read, an error there
    is not seen, and when the copy succeeds the answer is 204. *)
Theorem upload_truncated (c : Container) (r : Request)
        (sent : string) (last : error)
        (h : gmap string (list string)) (tr : trace) :
  let written := limitRead maxFileSize sent in
  let long := maxFileSize <=? Z.of_nat (String.length sent) in
  Z.of_nat (String.length written) <= maxFileSize
  /\ String.prefix written sent = true
  /\ fileHandler c r sent last h tr
     = fileHandler c r written (if long then io_EOF else last) h tr
  /\ (long = true ->
      Method r = "POST" ->
      Get (Query r) "id" <> "" ->
      validatePath (Get (Query r) "path") = None ->
      copyTo c (Get (Query r) "id") (destDir (Get (Query r) "path"))
             (path.Base (Get (Query r) "path")) written = Copied ->
      fileHandler c r sent last h tr = (h, tr ++ [RespWriteHeader StatusNoContent])).
Proof.
  cbv zeta.
  pose proof maxFileSize_pos as Hpos.
  pose proof (limitRead_length maxFileSize sent) as Hsub.
  assert (Hb : readBody sent last
               = readBody (limitRead maxFileSize sent)
                   (if maxFileSize <=? Z.of_nat (String.length sent)
                    then io_EOF else last)).
  { unfold readBody.
    destruct (maxFileSize <=? Z.of_nat (String.length sent)) eqn:Hlong.
    - destruct (maxFileSize <=? Z.of_nat (String.length (limitRead maxFileSize sent)));
        [| reflexivity].
      rewrite (limitRead_all maxFileSize (limitRead maxFileSize sent)); [reflexivity | lia].
    - apply Z.leb_gt in Hlong.
      rewrite (limitRead_all maxFileSize sent) by lia.
      rewrite (proj2 (Z.leb_gt _ _) Hlong). reflexivity. }
  split; [lia |]. split; [apply limitRead_prefix |]. split.
  - unfold fileHandler. now rewrite Hb.
  - intros Hlong Hm Hid Hv Hc.
    assert (Hp : Get (Query r) "path" <> "").
    { intros E. rewrite E in Hv. discriminate Hv. }
    apply String.eqb_neq in Hid, Hp.
    unfold fileHandler. rewrite Hid, Hp, Hm.
    unfold readBody. rewrite Hlong.
    cbn [String.eqb Ascii.eqb Bool.eqb].
    unfold WriteFile. rewrite Hv, Hc. reflexivity.
Qed.

Example buildTree_findOutput :
  buildTree findOutput
  = ([mkFileNode "README.md" "README.md" "file" [];
      mkFileNode "main.go" "src/main.go" "file" [];
      mkFileNode "src" "src" "folder" []],
     [0; 1; 2]%nat).
Proof. vm_compute. reflexivity. Qed.

(** Lines in another order than [sort.Strings] leaves them do nest. *)
Example buildLine_nests :
  let st := fold_left buildLine ["./src:directory"; "./src/main.go:regular file"]
                      (mkTreeState [] empty []) in
  (nodes st, topLevel st)
  = ([mkFileNode "src" "src" "folder" [1%nat];
      mkFileNode "main.go" "src/main.go" "file" []],
     [0%nat]).
Proof. vm_compute. reflexivity. Qed.

(** ** The order of strings *)

Lemma ascii_compare_refl (c : ascii) : Ascii.compare c c = Eq.
Proof. unfold Ascii.compare. apply N.compare_refl. Qed.

Lemma compare_trans_le (a : string) :
  forall b c,
    String.compare a b <> Gt -> String.compare b c <> Gt -> String.compare a c <> Gt.
Proof.
  induction a as [| x a IH]; intros [| y b] [| z c]; simpl; try congruence.
  unfold Ascii.compare.
  destruct (N.compare_spec (N_of_ascii x) (N_of_ascii y)) as [E1 | L1 | G1];
    destruct (N.compare_spec (N_of_ascii y) (N_of_ascii z)) as [E2 | L2 | G2];
    destruct (N.compare_spec (N_of_ascii x) (N_of_ascii z)) as [E3 | L3 | G3];
    try congruence; try lia.
  apply IH.
Qed.

Lemma leb_trans (a b c : string) :
  String.leb a b = true -> String.leb b c = true -> String.leb a c = true.
Proof.
  unfold String.leb. intros H1 H2.
  pose proof (compare_trans_le a b c) as H.
  destruct (String.compare a b); destruct (String.compare b c);
    destruct (String.compare a c); try reflexivity; try discriminate;
    exfalso; apply H; congruence.
Qed.

(** A line for a folder comes after the lines for what is in it: the
    colon is greater than the slash. *)
Lemma leb_colon_slash (a x y : string) :
  String.leb (String.append a (String ":" x)) (String.append a (String "/" y)) = false.
Proof.
  unfold String.leb. induction a as [| c a IH].
  - reflexivity.
  - rewrite !append_String. cbn [String.compare]. rewrite ascii_compare_refl. exact IH.
Qed.

(** ** sort.Strings *)

Lemma Forall_insertString (P : string -> Prop) (x : string) (l : list string) :
  P x -> Forall P l -> Forall P (insertString x l).
Proof.
  intros Hx Hl. induction Hl as [| y l Hy Hl IH]; simpl.
  - now constructor.
  - destruct (String.leb x y); repeat constructor; assumption.
Qed.

Lemma Forall_sort_Strings (P : string -> Prop) (l : list string) :
  Forall P l -> Forall P (sort_Strings l).
Proof.
  intros H. induction H as [| x l Hx Hl IH]; simpl; [constructor |].
  now apply Forall_insertString.
Qed.

Lemma insertString_increasing (x : string) (l : list string) :
  increasing l -> increasing (insertString x l).
Proof.
  induction l as [| y l IH]; intros Hl; simpl.
  - split; [constructor | exact I].
  - destruct Hl as [Hy Hl]. destruct (String.leb x y) eqn:Hxy.
    + split; [| split; assumption].
      constructor; [exact Hxy |].
      eapply List.Forall_impl; [| exact Hy]. intros z Hz. cbv beta in Hz.
      now apply (leb_trans x y z).
    + split; [| now apply IH].
      apply Forall_insertString; [| exact Hy].
      destruct (String.leb_total x y) as [H | H]; [congruence | exact H].
Qed.

Lemma sort_Strings_increasing (l : list string) : increasing (sort_Strings l).
Proof.
  induction l as [| x l IH]; simpl; [exact I |].
  now apply insertString_increasing.
Qed.

(** ** strings.Split and strings.TrimPrefix *)

Lemma Split_nonempty (s : string) (sep : ascii) : Split s sep <> [].
Proof.
  destruct s as [| c s]; simpl; [discriminate |].
  destruct (Ascii.eqb c sep); [discriminate |].
  destruct (Split s sep); discriminate.
Qed.

Lemma Split_first (a t : string) (sep : ascii) :
  ~ In sep (list_ascii_of_string a) ->
  Split (String.append a (String sep t)) sep = a :: Split t sep.
Proof.
  induction a as [| c a IH]; intros Hn.
  - rewrite append_empty. cbn [Split]. now rewrite Ascii.eqb_refl.
  - rewrite append_String. cbn [Split].
    destruct (Ascii.eqb_spec c sep) as [-> | Hc].
    + exfalso. apply Hn. now left.
    + rewrite IH; [reflexivity |]. intros H. apply Hn. now right.
Qed.

Lemma TrimPrefix_dot_slash (q : string) :
  TrimPrefix (String.append "./" q) "./" = q.
Proof.
  unfold TrimPrefix, HasPrefix. rewrite !append_String, append_empty.
  cbn [String.prefix]. destruct (ascii_dec "." "."); [| congruence].
  destruct (ascii_dec "/" "/"); [| congruence].
  destruct q; reflexivity.
Qed.

(** ** path.Dir on a path of names *)

Lemma cleanLoop_copy (w : list ascii) :
  ~ In path.slash w ->
  forall (rooted : bool) (s rout : list ascii) (d : nat),
    path.cleanLoop rooted true (w ++ s) rout d
    = path.cleanLoop rooted true s (rev w ++ rout) d.
Proof.
  induction w as [| c w IH]; intros Hn rooted s rout d; [reflexivity |].
  cbn [app path.cleanLoop].
  destruct (Ascii.eqb_spec c path.slash) as [-> | Hc]; [exfalso; apply Hn; now left |].
  rewrite IH by (intros H; apply Hn; now right).
  cbn [rev]. now rewrite <- app_assoc.
Qed.

Lemma cleanLoop_name (n : string) (s rout : list ascii) :
  goodName n ->
  path.elementEnds s = true ->
  path.cleanLoop false false (list_ascii_of_string n ++ s) rout 0
  = path.cleanLoop false true s (pushName rout n) 0.
Proof.
  intros (Hne & Hdot & Hdd & Hslash & _) Hs.
  destruct n as [| c n']; [now contradiction Hne |].
  assert (Hc : Ascii.eqb c path.slash = false).
  { apply Ascii.eqb_neq. intros ->. apply Hslash. now left. }
  assert (Hrest : ~ In path.slash (list_ascii_of_string n')).
  { intros H. apply Hslash. now right. }
  assert (Hpush : forall x : list ascii,
            x = (if (false && negb (List.length rout =? 1)%nat)
                    || (negb false && negb (List.length rout =? 0)%nat)
                 then path.slash :: rout else rout) ->
            path.cleanLoop false true (list_ascii_of_string n' ++ s) (c :: x) 0
            = path.cleanLoop false true s (pushName rout (String c n')) 0).
  { intros x ->. rewrite (cleanLoop_copy _ Hrest). unfold pushName.
    cbn [list_ascii_of_string rev]. rewrite <- app_assoc. cbn [app].
    destruct rout; reflexivity. }
  cbn [list_ascii_of_string app path.cleanLoop]. rewrite Hc.
  destruct n' as [| c' n''].
  - (* a name of one byte, which is not a dot *)
    assert (Hd : Ascii.eqb c path.dot = false).
    { apply Ascii.eqb_neq. intros ->. apply Hdot. reflexivity. }
    cbn [list_ascii_of_string app]. rewrite Hd. cbn [andb].
    destruct s as [| c1 s1]; now apply Hpush.
  - assert (Hc' : Ascii.eqb c' path.slash = false).
    { apply Ascii.eqb_neq. intros ->. apply Hrest. now left. }
    cbn [list_ascii_of_string app path.elementEnds]. rewrite Hc'.
    rewrite andb_false_r.
    assert (Hno : Ascii.eqb c path.dot && Ascii.eqb c' path.dot
                  && path.elementEnds (list_ascii_of_string n'' ++ s) = false).
    { destruct (Ascii.eqb_spec c path.dot) as [-> | ]; [| reflexivity].
      destruct (Ascii.eqb_spec c' path.dot) as [-> | ]; [| reflexivity].
      destruct n'' as [| c'' n3]; [exfalso; apply Hdd; reflexivity |].
      cbn [list_ascii_of_string app path.elementEnds andb].
      apply Ascii.eqb_neq. intros ->. apply Hrest. right. now left. }
    rewrite Hno. now apply (Hpush _ eq_refl).
Qed.

Lemma cleanLoop_dirChars (ns : list string) :
  Forall goodName ns ->
  forall rout : list ascii,
    path.cleanLoop false false (dirChars ns) rout 0 = fold_left pushName ns rout.
Proof.
  induction 1 as [| n ns Hn Hns IH]; intros rout; [reflexivity |].
  unfold dirChars. cbn [map concat]. fold (dirChars ns).
  rewrite <- app_assoc. cbn [app].
  rewrite (cleanLoop_name n _ rout Hn) by reflexivity.
  cbn [path.cleanLoop]. rewrite Ascii.eqb_refl. apply IH.
Qed.

Lemma pushNames_rev (ns : list string) :
  forall rout : list ascii,
    rout <> [] ->
    rev (fold_left pushName ns rout)
    = rev rout ++ concat (map (fun n => path.slash :: list_ascii_of_string n) ns).
Proof.
  induction ns as [| n ns IH]; intros rout Hr; cbn [fold_left map concat].
  - now rewrite app_nil_r.
  - destruct rout as [| c rout]; [now contradiction Hr |].
    rewrite IH by (unfold pushName; destruct (rev (list_ascii_of_string n)); discriminate).
    unfold pushName. rewrite rev_app_distr, rev_involutive.
    cbn [rev]. rewrite <- !app_assoc. reflexivity.
Qed.

Lemma joinNames_cons (n : string) (ns : list string) :
  ns <> [] ->
  joinNames (n :: ns) = String.append n (String "/" (joinNames ns)).
Proof. destruct ns; [intros H; now contradiction H | reflexivity]. Qed.

Lemma joinNames_chars (ns : list string) :
  forall n : string,
    list_ascii_of_string (joinNames (n :: ns))
    = list_ascii_of_string n
      ++ concat (map (fun m => path.slash :: list_ascii_of_string m) ns).
Proof.
  induction ns as [| m ns IH]; intros n.
  - cbn [joinNames map concat]. now rewrite app_nil_r.
  - rewrite joinNames_cons by discriminate.
    rewrite list_ascii_of_append. cbn [list_ascii_of_string map concat].
    now rewrite IH.
Qed.

Lemma joinNames_snoc_chars (ns : list string) (b : string) :
  list_ascii_of_string (joinNames (ns ++ [b])) = dirChars ns ++ list_ascii_of_string b.
Proof.
  induction ns as [| n ns IH]; [reflexivity |].
  cbn [app]. rewrite joinNames_cons by (destruct ns; discriminate).
  rewrite list_ascii_of_append. cbn [list_ascii_of_string].
  rewrite IH. unfold dirChars. cbn [map concat]. now rewrite <- !app_assoc.
Qed.

Lemma joinNames_snoc (ns : list string) (b : string) :
  ns <> [] ->
  joinNames (ns ++ [b]) = String.append (joinNames ns) (String "/" b).
Proof.
  induction ns as [| n ns IH]; intros Hne; [now contradiction Hne |].
  destruct ns as [| m ns]; [reflexivity |].
  cbn [app]. rewrite (joinNames_cons n (m :: ns ++ [b])) by discriminate.
  rewrite (joinNames_cons n (m :: ns)) by discriminate.
  change (m :: ns ++ [b]) with ((m :: ns) ++ [b]).
  rewrite IH by discriminate. now rewrite append_assoc.
Qed.

Lemma uptoLastSlash_skip (w r : list ascii) :
  ~ In path.slash w -> path.uptoLastSlash (w ++ r) = path.uptoLastSlash r.
Proof.
  induction w as [| c w IH]; intros Hn; [reflexivity |].
  cbn [app path.uptoLastSlash].
  destruct (Ascii.eqb_spec c path.slash) as [-> | Hc]; [exfalso; apply Hn; now left |].
  apply IH. intros H. apply Hn. now right.
Qed.

Lemma dirChars_ends (ns : list string) :
  dirChars ns = [] \/ exists y, dirChars ns = y ++ [path.slash].
Proof.
  induction ns as [| n ns IH]; [now left |]. right.
  unfold dirChars. cbn [map concat]. fold (dirChars ns).
  destruct IH as [-> | [y ->]].
  - exists (list_ascii_of_string n). now rewrite app_nil_r.
  - exists ((list_ascii_of_string n ++ [path.slash]) ++ y). now rewrite <- !app_assoc.
Qed.

Lemma uptoLastSlash_dirChars (ns : list string) :
  path.uptoLastSlash (rev (dirChars ns)) = rev (dirChars ns).
Proof.
  destruct (dirChars_ends ns) as [-> | [y ->]]; [reflexivity |].
  rewrite rev_app_distr. cbn [rev app path.uptoLastSlash].
  now rewrite Ascii.eqb_refl.
Qed.

Lemma Clean_dirChars (n : string) (ns : list string) :
  Forall goodName (n :: ns) ->
  path.Clean (string_of_list_ascii (dirChars (n :: ns))) = joinNames (n :: ns).
Proof.
  intros Hg.
  pose proof (cleanLoop_dirChars (n :: ns) Hg []) as Hrun.
  cbn [fold_left] in Hrun.
  assert (Hrev : rev (fold_left pushName ns (pushName [] n))
                 = list_ascii_of_string (joinNames (n :: ns))).
  { inversion Hg as [| ? ? (Hne & _) _]; subst.
    rewrite pushNames_rev.
    - unfold pushName. rewrite app_nil_r, rev_involutive. now rewrite joinNames_chars.
    - unfold pushName. rewrite app_nil_r. destruct n; [now contradiction Hne |].
      cbn [list_ascii_of_string rev]. destruct (rev (list_ascii_of_string n)); discriminate. }
  inversion Hg as [| ? ? (Hne & _ & _ & Hslash & _) _]; subst.
  unfold path.Clean. rewrite list_ascii_of_string_of_list_ascii.
  destruct n as [| c n0]; [now contradiction Hne |].
  assert (Hc : Ascii.eqb c path.slash = false).
  { apply Ascii.eqb_neq. intros ->. apply Hslash. now left. }
  unfold dirChars in *. cbn [map concat list_ascii_of_string app] in *.
  rewrite Hc, Hrun.
  destruct (fold_left pushName ns (pushName [] (String c n0))) as [| x r] eqn:E.
  - cbn [rev] in Hrev. rewrite joinNames_chars in Hrev. discriminate Hrev.
  - rewrite Hrev. apply string_of_list_ascii_of_string.
Qed.

Lemma Dir_joinNames (ns : list string) (b : string) :
  Forall goodName ns -> goodName b ->
  path.Dir (joinNames (ns ++ [b]))
  = match ns with [] => "." | _ :: _ => joinNames ns end.
Proof.
  intros Hns (_ & _ & _ & Hslash & _).
  unfold path.Dir. rewrite joinNames_snoc_chars, rev_app_distr.
  rewrite uptoLastSlash_skip by (rewrite <- in_rev; exact Hslash).
  rewrite uptoLastSlash_dirChars, rev_involutive.
  destruct ns as [| n ns]; [reflexivity |].
  now apply Clean_dirChars.
Qed.

Lemma afterLastSlash_name (w r : list ascii) :
  ~ In path.slash w ->
  path.elementEnds r = true ->
  path.afterLastSlash (w ++ r) = w.
Proof.
  intros Hn Hr. induction w as [| c w IH].
  - destruct r as [| c r]; [reflexivity |]. cbn [app path.afterLastSlash].
    cbn [path.elementEnds] in Hr. now rewrite Hr.
  - cbn [app path.afterLastSlash].
    destruct (Ascii.eqb_spec c path.slash) as [-> | Hc]; [exfalso; apply Hn; now left |].
    rewrite IH; [reflexivity |]. intros H. apply Hn. now right.
Qed.

Lemma Base_joinNames (ns : list string) (b : string) :
  goodName b -> path.Base (joinNames (ns ++ [b])) = b.
Proof.
  intros (Hne & _ & _ & Hslash & _).
  assert (Hends : path.elementEnds (rev (dirChars ns)) = true).
  { destruct (dirChars_ends ns) as [-> | [y ->]]; [reflexivity |].
    rewrite rev_app_distr. cbn [rev app path.elementEnds]. apply Ascii.eqb_refl. }
  assert (Hrev : ~ In path.slash (rev (list_ascii_of_string b)))
    by (rewrite <- in_rev; exact Hslash).
  unfold path.Base.
  destruct (joinNames (ns ++ [b])) as [| c0 s0] eqn:Ej.
  { exfalso. apply (f_equal list_ascii_of_string) in Ej.
    rewrite joinNames_snoc_chars in Ej. cbn [list_ascii_of_string] in Ej.
    apply app_eq_nil in Ej as [_ Ej]. destruct b; [now apply Hne | discriminate Ej]. }
  rewrite <- Ej, joinNames_snoc_chars, rev_app_distr.
  destruct (rev (list_ascii_of_string b)) as [| x w] eqn:Eb.
  { exfalso. apply (f_equal (@rev ascii)) in Eb. rewrite rev_involutive in Eb.
    destruct b; [now apply Hne | discriminate Eb]. }
  assert (Hx : Ascii.eqb x path.slash = false).
  { apply Ascii.eqb_neq. intros ->. apply Hrev. now left. }
  cbn [app path.stripSlashes]. rewrite Hx.
  change (x :: w ++ rev (dirChars ns)) with ((x :: w) ++ rev (dirChars ns)).
  rewrite (afterLastSlash_name (x :: w) _ Hrev Hends), <- Eb, rev_involutive.
  apply string_of_list_ascii_of_string.
Qed.

(** ** buildTree *)

Lemma append_neq (a b : string) (c : ascii) : String.append a (String c b) <> a.
Proof.
  induction a as [| x a IH]; [discriminate |].
  rewrite append_String. intros H. injection H as H. now apply IH.
Qed.

Lemma joinNames_no_colon (ns : list string) :
  Forall goodName ns -> ~ In ":"%char (list_ascii_of_string (joinNames ns)).
Proof.
  induction 1 as [| n ns (_ & _ & _ & _ & Hn) Hns IH]; [intros [] |].
  destruct ns as [| m ns]; [exact Hn |].
  rewrite joinNames_cons by discriminate.
  rewrite list_ascii_of_append. cbn [list_ascii_of_string].
  intros H. apply in_app_or in H as [H | [H | H]];
    [now apply Hn | discriminate H | now apply IH].
Qed.

Lemma joinNames_not_dot (ns : list string) :
  ns <> [] -> Forall goodName ns -> joinNames ns <> "." /\ joinNames ns <> "".
Proof.
  intros Hne Hg. destruct Hg as [| n ns (Hn & Hd & _) Hns]; [now contradiction Hne |].
  destruct ns as [| m ns]; [now split |].
  rewrite joinNames_cons by discriminate.
  destruct n as [| c n]; [now contradiction Hn |].
  rewrite append_String. split; [| discriminate].
  destruct n; [rewrite append_empty | rewrite append_String]; discriminate.
Qed.

(** A line of the root and an empty line leave the state as it is. *)
Lemma buildLine_root (st : treeState) (t : string) :
  buildLine st (String.append ".:" t) = st.
Proof.
  unfold buildLine. rewrite !append_String, append_empty.
  cbn [String.eqb Ascii.eqb Bool.eqb].
  change (String "." (String ":" t)) with (String.append "." (String ":" t)).
  rewrite Split_first by (intros [H | []]; discriminate H).
  destruct (Split t ":") as [| rawType rest] eqn:E; [now apply Split_nonempty in E |].
  reflexivity.
Qed.

(** A line of [find] for an entry below the root adds one node, at the
    top, when the folders noted come from lines that are not after it. *)
Lemma buildLine_entry (st : treeState) (ns : list string) (b t : string)
      (rest : list string) :
  Forall goodName ns -> goodName b ->
  let line := String.append "./" (String.append (joinNames (ns ++ [b])) (String ":" t)) in
  flat st -> keysBelow st (line :: rest) ->
  Forall (fun y => String.leb line y = true) rest ->
  flat (buildLine st line) /\ keysBelow (buildLine st line) rest
  /\ nodes (buildLine st line) = nodes st ++ [entryNode (ns ++ [b]) t].
Proof.
  intros Hns Hb line (Htop & Hch) Hkeys Hrest.
  assert (Hg : Forall goodName (ns ++ [b])).
  { apply Forall_app. split; [exact Hns | now constructor]. }
  destruct (joinNames_not_dot (ns ++ [b])) as [Hnd Hne]; [now destruct ns | exact Hg |].
  assert (Hsplit : Split line ":"
                   = String.append "./" (joinNames (ns ++ [b])) :: Split t ":").
  { unfold line. rewrite <- append_assoc. apply Split_first.
    rewrite list_ascii_of_append. intros H. apply in_app_or in H as [H | H].
    - destruct H as [H | [H | []]]; discriminate H.
    - now apply (joinNames_no_colon _ Hg). }
  unfold buildLine. rewrite Hsplit.
  assert (Hl : String.eqb line "" = false) by reflexivity.
  rewrite Hl.
  destruct (Split t ":") as [| rawType more] eqn:E; [now apply Split_nonempty in E |].
  rewrite TrimPrefix_dot_slash.
  apply String.eqb_neq in Hnd, Hne. rewrite Hnd, Hne. cbn [orb].
  rewrite (Dir_joinNames ns b Hns Hb), (Base_joinNames ns b Hb).
  assert (Hnode : mkFileNode b (joinNames (ns ++ [b]))
                    (if Contains rawType "directory" then "folder" else "file") []
                  = entryNode (ns ++ [b]) t).
  { unfold entryNode. now rewrite E, last_last. }
  set (q := joinNames (ns ++ [b])) in *.
  set (node := mkFileNode b q
                 (if Contains rawType "directory" then "folder" else "file") []) in *.
  set (dirs' := if Contains rawType "directory"
                then <[q := length (nodes st)]> (dirs st) else dirs st).
  assert (Hflat : flat (mkTreeState (nodes st ++ [node]) dirs'
                          (topLevel st ++ [length (nodes st)]))).
  { split; cbn [topLevel nodes].
    - rewrite Htop, length_app. cbn [length]. rewrite Nat.add_1_r, seq_S. reflexivity.
    - apply Forall_app. split; [exact Hch | now constructor]. }
  assert (Hkeys' : forall k p,
            dirs' !! k = Some p ->
            exists t',
              Forall (fun y => String.leb (String.append "./"
                                  (String.append k (String ":" t'))) y = true) rest).
  { intros k p Hk. subst dirs'.
    assert (Hold : dirs st !! k = Some p ->
                   exists t',
                     Forall (fun y => String.leb (String.append "./"
                                  (String.append k (String ":" t'))) y = true) rest).
    { intros H. destruct (Hkeys k p H) as [t' Ht']. exists t'.
      now inversion Ht'. }
    destruct (Contains rawType "directory"); [| now apply Hold].
    destruct (decide (q = k)) as [<- | Hqk].
    - exists t. exact Hrest.
    - rewrite lookup_insert_ne in Hk by exact Hqk. now apply Hold. }
  destruct ns as [| n ns'].
  - (* a name at the root *)
    cbn [String.eqb Ascii.eqb Bool.eqb]. cbn [nodes]. rewrite <- Hnode.
    split; [exact Hflat |]. split; [exact Hkeys' | reflexivity].
  - set (d := joinNames (n :: ns')).
    destruct (joinNames_not_dot (n :: ns') ltac:(discriminate) Hns) as [Hd _].
    apply String.eqb_neq in Hd. fold d in Hd. rewrite Hd.
    assert (Hq : q = String.append d (String "/" b)).
    { unfold q, d. now apply joinNames_snoc. }
    destruct (dirs' !! d) as [parent |] eqn:Hlook;
      [exfalso
      | cbn [nodes]; rewrite <- Hnode;
        split; [exact Hflat |]; split; [exact Hkeys' | reflexivity]].
    (* the folder of the entry has not been noted: its line comes later *)
    assert (Hin : dirs st !! d = Some parent).
    { subst dirs'. destruct (Contains rawType "directory"); [| exact Hlook].
      rewrite lookup_insert_ne in Hlook; [exact Hlook |].
      rewrite Hq. apply append_neq. }
    destruct (Hkeys d parent Hin) as [t' Ht'].
    inversion Ht' as [| ? ? Hle _]; subst.
    unfold line in Hle. fold q in Hle. rewrite Hq in Hle.
    assert (E1 : String.append "./" (String.append d (String ":" t'))
                 = String.append (String.append "./" d) (String ":" t'))
      by (symmetry; apply append_assoc).
    assert (E2 : String.append "./"
                   (String.append (String.append d (String "/" b)) (String ":" t))
                 = String.append (String.append "./" d)
                     (String "/" (String.append b (String ":" t)))).
    { rewrite (append_assoc d), (append_String "/" b). symmetry. apply append_assoc. }
    rewrite E1, E2, leb_colon_slash in Hle. discriminate Hle.
Qed.

Lemma lineNode_entry (ns : list string) (b t : string) :
  Forall goodName ns -> goodName b ->
  lineNode (String.append "./" (String.append (joinNames (ns ++ [b])) (String ":" t)))
  = entryNode (ns ++ [b]) t.
Proof.
  intros Hns Hb.
  assert (Hg : Forall goodName (ns ++ [b])).
  { apply Forall_app. split; [exact Hns | now constructor]. }
  unfold lineNode, entryNode. rewrite <- append_assoc, Split_first.
  - destruct (Split t ":") as [| rawType more] eqn:E; [now apply Split_nonempty in E |].
    now rewrite TrimPrefix_dot_slash, (Base_joinNames ns b Hb), last_last.
  - rewrite list_ascii_of_append. intros H. apply in_app_or in H as [H | H].
    + destruct H as [H | [H | []]]; discriminate H.
    + now apply (joinNames_no_colon _ Hg).
Qed.

Lemma buildLines_flat (lines : list string) :
  forall st : treeState,
    increasing lines -> Forall findLine lines ->
    flat st -> keysBelow st lines ->
    flat (fold_left buildLine lines st)
    /\ (forall n, In n (nodes st) -> In n (nodes (fold_left buildLine lines st)))
    /\ (forall names t,
          names <> [] -> Forall goodName names ->
          In (String.append "./" (String.append (joinNames names) (String ":" t))) lines ->
          In (lineNode (String.append "./" (String.append (joinNames names) (String ":" t))))
             (nodes (fold_left buildLine lines st))).
Proof.
  induction lines as [| line lines IH]; intros st Hinc Hfind Hflat Hkeys.
  { split; [exact Hflat |]. split; [auto | intros ? ? _ _ []]. }
  destruct Hinc as [Hrest Hinc]. inversion Hfind as [| ? ? Hline Hfind']; subst.
  cbn [fold_left].
  assert (Hdown : keysBelow st lines).
  { intros k p Hk. destruct (Hkeys k p Hk) as [t Ht]. exists t. now inversion Ht. }
  destruct Hline as [-> | [[t ->] | (names & t & Hne & Hg & ->)]].
  - destruct (IH st Hinc Hfind' Hflat Hdown) as (H1 & H2 & H3).
    split; [exact H1 |]. split; [exact H2 |].
    intros names' t' Hn' Hg' [Heq | Hin]; [discriminate Heq | now apply H3].
  - rewrite buildLine_root.
    destruct (IH st Hinc Hfind' Hflat Hdown) as (H1 & H2 & H3).
    split; [exact H1 |]. split; [exact H2 |].
    intros names' t' Hn' Hg' [Heq | Hin]; [| now apply H3].
    exfalso. rewrite !append_String, !append_empty in Heq. discriminate Heq.
  - destruct (exists_last Hne) as (ns & b & ->).
    apply Forall_app in Hg as [Hns Hb]. inversion Hb as [| ? ? Hb' _]; subst.
    destruct (buildLine_entry st ns b t lines Hns Hb' Hflat Hkeys Hrest)
      as (Hf & Hk & Hnodes).
    destruct (IH _ Hinc Hfind' Hf Hk) as (H1 & H2 & H3).
    split; [exact H1 |]. split.
    + intros n Hn. apply H2. rewrite Hnodes. apply in_or_app. now left.
    + intros names' t' Hn' Hg' [Heq | Hin]; [| now apply H3].
      apply H2. rewrite Hnodes. apply in_or_app. right. left.
      rewrite <- Heq. symmetry. now apply lineNode_entry.
Qed.

Lemma In_insertString (x y : string) (l : list string) :
  In y (x :: l) -> In y (insertString x l).
Proof.
  induction l as [| z l IH]; intros H; simpl; [exact H |].
  destruct (String.leb x z); [exact H |].
  destruct H as [<- | [<- | H]].
  - right. apply IH. now left.
  - now left.
  - right. apply IH. now right.
Qed.

Lemma In_sort_Strings (y : string) (l : list string) :
  In y l -> In y (sort_Strings l).
Proof.
  induction l as [| x l IH]; intros H; [exact H |].
  simpl. apply In_insertString. destruct H as [<- | H]; [now left | right; now apply IH].
Qed.

(** X19.  [buildTree] on what [find] prints never nests.  When every
    line is empty, the line of the root, or a path of names below [./]
    followed by a colon and the type, every entry gets a node, all nodes
    are returned at the top in the order they are made, and no folder
    has a child: [sort.Strings] puts the line of a folder after
    the lines of what is in it, the colon being greater than the slash,
    so that no entry finds its folder in [dirs]. *)
Theorem buildTree_flat (output : string) :
  let lines := Split (TrimSpace output) (ascii_of_nat 10) in
  Forall findLine lines ->
  snd (buildTree output) = seq 0 (length (fst (buildTree output)))
  /\ Forall (fun n => Children n = []) (fst (buildTree output))
  /\ (forall names t,
        names <> [] -> Forall goodName names ->
        In (String.append "./" (String.append (joinNames names) (String ":" t))) lines ->
        In (entryNode names t) (fst (buildTree output))).
Proof.
  intros lines Hfind. unfold buildTree. cbv zeta. cbn [fst snd]. fold lines.
  destruct (buildLines_flat (sort_Strings lines) (mkTreeState [] empty []))
    as ((H1 & H2) & _ & H3).
  - apply sort_Strings_increasing.
  - now apply Forall_sort_Strings.
  - split; [reflexivity | constructor].
  - intros k p Hk. cbn [dirs] in Hk. rewrite lookup_empty in Hk. discriminate Hk.
  - split; [exact H1 |]. split; [exact H2 |].
    intros names t Hne Hg Hin.
    destruct (exists_last Hne) as (ns & b & ->).
    pose proof Hg as Hg'. apply Forall_app in Hg' as [Hns Hb].
    inversion Hb as [| ? ? Hb' _]; subst.
    rewrite <- (lineNode_entry ns b t Hns Hb').
    apply H3; [exact Hne | exact Hg | now apply In_sort_Strings].
Qed.

Lemma findOutput_lines :
  Forall findLine (Split (TrimSpace findOutput) (ascii_of_nat 10)).
Proof.
  assert (E : Split (TrimSpace findOutput) (ascii_of_nat 10)
              = [".:directory"; "./src:directory"; "./src/main.go:regular file";
                 "./README.md:regular file"]) by (vm_compute; reflexivity).
  rewrite E.
  assert (Hname : forall n : string,
            n <> "" -> n <> "." -> n <> ".." ->
            forallb (fun c => negb (Ascii.eqb c "/") && negb (Ascii.eqb c ":"))
                    (list_ascii_of_string n) = true ->
            goodName n).
  { intros n H1 H2 H3 H4. repeat split; try assumption.
    - intros Hin. rewrite forallb_forall in H4. specialize (H4 _ Hin). discriminate H4.
    - intros Hin. rewrite forallb_forall in H4. specialize (H4 _ Hin). discriminate H4. }
  apply List.Forall_cons; [| apply List.Forall_cons; [| apply List.Forall_cons;
    [| apply List.Forall_cons; [| apply List.Forall_nil]]]].
  - right. left. now exists "directory".
  - right. right. exists ["src"], "directory".
    split; [discriminate |]. split; [| reflexivity].
    repeat constructor; apply Hname; try discriminate; reflexivity.
  - right. right. exists ["src"; "main.go"], "regular file".
    split; [discriminate |]. split; [| reflexivity].
    repeat constructor; apply Hname; try discriminate; reflexivity.
  - right. right. exists ["README.md"], "regular file".
    split; [discriminate |]. split; [| reflexivity].
    repeat constructor; apply Hname; try discriminate; reflexivity.
Qed.

Lemma buildTree_flat_witness :
  snd (buildTree findOutput) = seq 0 (length (fst (buildTree findOutput)))
  /\ Forall (fun n => Children n = []) (fst (buildTree findOutput))
  /\ (forall names t,
        names <> [] -> Forall goodName names ->
        In (String.append "./" (String.append (joinNames names) (String ":" t)))
           (Split (TrimSpace findOutput) (ascii_of_nat 10)) ->
        In (entryNode names t) (fst (buildTree findOutput))).
Proof. exact (buildTree_flat findOutput findOutput_lines). Defined.

Example parseGrepOutput_example :
  parseGrepOutput
    (unlines ["./src/main.go:12:  fmt.Println(x) // a:b ";
              "Binary file ./bin/app matches";
              "./README.md:+7:seven";
              "./notes.txt: 3x:loose";
              "./a.txt:x3:no number"])
  = [mkSearchResult "src/main.go" 12 1 "fmt.Println(x) // a:b";
     mkSearchResult "README.md" 7 1 "seven";
     mkSearchResult "notes.txt" 3 1 "loose"].
Proof. vm_compute. reflexivity. Qed.

(** ** parseGrepOutput *)

Lemma Cut_first (a b : string) (sep : ascii) :
  ~ In sep (list_ascii_of_string a) ->
  Cut (String.append a (String sep b)) sep = Some (a, b).
Proof.
  induction a as [| c a IH]; intros Hn.
  - rewrite append_empty. cbn [Cut]. now rewrite Ascii.eqb_refl.
  - rewrite append_String. cbn [Cut].
    destruct (Ascii.eqb_spec c sep) as [-> | Hc]; [exfalso; apply Hn; now left |].
    rewrite IH; [reflexivity |]. intros H. apply Hn. now right.
Qed.

Lemma Split_unlines (lines : list string) :
  Forall (fun l => ~ In (ascii_of_nat 10) (list_ascii_of_string l)) lines ->
  Split (unlines lines) (ascii_of_nat 10) = lines ++ [""].
Proof.
  induction 1 as [| l lines Hl Hlines IH]; [reflexivity |].
  cbn [unlines app]. rewrite Split_first by exact Hl. now rewrite IH.
Qed.

Lemma digit_no_colon (d : string) :
  allDigits d = true -> ~ In ":"%char (list_ascii_of_string d).
Proof.
  induction d as [| c d IH]; intros Hd; [intros [] |].
  cbn [allDigits] in Hd. apply andb_true_iff in Hd as [Hc Hd].
  intros [E | H]; [subst c; discriminate Hc | now apply IH].
Qed.

Lemma leadingDigits_all (d : string) :
  allDigits d = true -> leadingDigits (list_ascii_of_string d) = list_ascii_of_string d.
Proof.
  induction d as [| c d IH]; intros Hd; [reflexivity |].
  cbn [allDigits] in Hd. apply andb_true_iff in Hd as [Hc Hd].
  cbn [list_ascii_of_string leadingDigits]. now rewrite Hc, IH.
Qed.

Lemma ParseUint_decimal_64 (s : string) :
  s <> "" -> allDigits s = true -> decimal s < 2 ^ 63 ->
  strconv.ParseUint s 10 64 = (decimal s, None).
Proof.
  intros Hne Hd Hr. unfold strconv.ParseUint, decimal in *.
  destruct s as [| c s]; [now contradiction Hne |].
  change (negb ((2 <=? 10) && (10 <=? 36))) with false.
  change (64 =? 0) with false. cbv iota.
  change ((64 <? 0) || (64 <? 64)) with false. cbv iota zeta.
  apply (digits_decimal (2 ^ 64 - 1) (String c s)).
  - unfold strconv.maxUint64. lia.
  - lia.
  - split; [exact Hd |]. split; [lia | reflexivity].
Qed.

(** A number in decimal digits is scanned as the number it writes. *)
Lemma Sscanf_d_digits (d : string) :
  d <> "" -> allDigits d = true -> decimal d < 2 ^ 63 ->
  Sscanf_d d = Some (decimal d).
Proof.
  intros Hne Hd Hr.
  pose proof (leadingDigits_all d Hd) as Hlead.
  pose proof (ParseUint_decimal_64 d Hne Hd Hr) as Hparse.
  assert (Hpos : 0 <= decimal d).
  { unfold decimal. apply (decimalFrom_ge d 0); [lia | exact Hd]. }
  destruct d as [| c d']; [now contradiction Hne |].
  pose proof Hd as Hc. cbn [allDigits] in Hc.
  apply andb_true_iff in Hc as [Hc _]. apply andb_true_iff in Hc as [H1 H2].
  apply Z.leb_le in H1, H2.
  assert (Hsign : Ascii.eqb c "+" || Ascii.eqb c "-" = false).
  { pose proof (eq_refl : ascii_val "+" = 43) as Hplus.
    pose proof (eq_refl : ascii_val "-" = 45) as Hminus.
    apply orb_false_iff. split; apply Ascii.eqb_neq; intros ->; lia. }
  assert (Hskip : skipSpace (list_ascii_of_string (String c d'))
                  = Some (list_ascii_of_string (String c d'))).
  { cbn [list_ascii_of_string skipSpace].
    replace (ascii_val c =? 10) with false by (symmetry; apply Z.eqb_neq; lia).
    replace (asciiSpace c) with false
      by (unfold asciiSpace; symmetry; apply orb_false_iff; split;
          [apply andb_false_iff; right; apply Z.leb_gt; lia | apply Z.eqb_neq; lia]).
    destruct (list_ascii_of_string d') as [| c2 s2]; [reflexivity |].
    replace (isSpace2 c c2) with false
      by (unfold isSpace2; replace (ascii_val c =? 194) with false
            by (symmetry; apply Z.eqb_neq; lia); reflexivity).
    destruct s2 as [| c3 s3]; [reflexivity |].
    replace (isSpace3 c c2 c3) with false; [reflexivity |].
    unfold isSpace3.
    replace (ascii_val c =? 225) with false by (symmetry; apply Z.eqb_neq; lia).
    replace (ascii_val c =? 226) with false by (symmetry; apply Z.eqb_neq; lia).
    replace (ascii_val c =? 227) with false by (symmetry; apply Z.eqb_neq; lia).
    reflexivity. }
  unfold Sscanf_d. rewrite Hskip. cbn [list_ascii_of_string] in *.
  rewrite Hsign, Hlead. cbn [app].
  change (c :: list_ascii_of_string d') with (list_ascii_of_string (String c d')).
  rewrite string_of_list_ascii_of_string.
  unfold ParseInt. rewrite Hsign, Hparse.
  assert (Hneg : Ascii.eqb c "-" = false) by (now apply orb_false_iff in Hsign).
  rewrite Hneg. cbn [negb andb].
  change (64 =? 0) with false. cbv iota.
  replace (2 ^ (64 - 1) <=? decimal (String c d')) with false
    by (symmetry; apply Z.leb_gt; exact Hr).
  reflexivity.
Qed.

Lemma parseGrepLine_match (results : list SearchResult) (file digits text : string) :
  grepMatch (file, digits, text) ->
  parseGrepLine results (grepLine file digits text)
  = results ++ [mkSearchResult file (decimal digits) 1 (TrimSpace text)].
Proof.
  intros (Hf & _ & Hne & Hd & Hr & _).
  unfold parseGrepLine, grepLine.
  assert (Hl : String.eqb (String.append "./" (String.append file
                 (String ":" (String.append digits (String ":" text))))) "" = false)
    by reflexivity.
  rewrite Hl. cbn [SplitN].
  rewrite <- append_assoc, Cut_first.
  - rewrite Cut_first by (now apply digit_no_colon).
    now rewrite TrimPrefix_dot_slash, (Sscanf_d_digits digits Hne Hd Hr).
  - rewrite list_ascii_of_append. intros H. apply in_app_or in H as [H | H].
    + destruct H as [H | [H | []]]; discriminate H.
    + now apply Hf.
Qed.

(** X20.  [parseGrepOutput] reads back what [grep -n] prints.  For
    matches whose file names have no colon, each printed as [./file], a
    colon, the number of the line in decimal digits, a colon and the
    text, the results are the matches in order: the file without [./],
    the number, column 1 and the text with the white space at its ends
    trimmed; colons in the text are kept. *)
Theorem parseGrepOutput_matches (ms : list (string * string * string)) :
  Forall grepMatch ms ->
  parseGrepOutput (unlines (map (fun m => grepLine (fst (fst m)) (snd (fst m)) (snd m)) ms))
  = map (fun m => mkSearchResult (fst (fst m)) (decimal (snd (fst m))) 1
                                 (TrimSpace (snd m))) ms.
Proof.
  intros Hms. unfold parseGrepOutput.
  rewrite Split_unlines.
  - rewrite fold_left_app. cbn [fold_left]. unfold parseGrepLine at 1.
    cbn [String.eqb].
    assert (Hfold : forall acc,
              fold_left parseGrepLine
                (map (fun m => grepLine (fst (fst m)) (snd (fst m)) (snd m)) ms) acc
              = acc ++ map (fun m => mkSearchResult (fst (fst m)) (decimal (snd (fst m))) 1
                                        (TrimSpace (snd m))) ms).
    { induction Hms as [| [[f d] t] ms Hm Hms IH]; intros acc; cbn [map fold_left fst snd].
      - now rewrite app_nil_r.
      - rewrite (parseGrepLine_match acc f d t Hm), IH, <- app_assoc. reflexivity. }
    apply (Hfold []).
  - clear -Hms. induction Hms as [| [[f d] t] ms (Hf & Hfn & Hne & Hd & Hr & Ht) Hms IH];
      cbn [map fst snd]; constructor; [| exact IH].
    unfold grepLine. rewrite !list_ascii_of_append. cbn [list_ascii_of_string].
    rewrite !list_ascii_of_append. cbn [list_ascii_of_string].
    intros H.
    repeat (apply in_app_or in H as [H | H] || destruct H as [H | H]);
      try discriminate H; try contradiction.
    clear -Hd H. induction d as [| c d IH]; [destruct H |].
    cbn [allDigits] in Hd. apply andb_true_iff in Hd as [Hc Hd].
    destruct H as [E | H]; [subst c; discriminate Hc | now apply IH].
Qed.

Lemma grepMatch_examples :
  Forall grepMatch
    [("src/main.go", "12", "  fmt.Println(x) // a:b "); ("README.md", "007", "seven")].
Proof.
  assert (H : forall f d t,
            forallb (fun c => negb (Ascii.eqb c ":") && negb (Ascii.eqb c (ascii_of_nat 10)))
                    (list_ascii_of_string f) = true ->
            d <> "" -> allDigits d = true -> decimal d < 2 ^ 63 ->
            forallb (fun c => negb (Ascii.eqb c (ascii_of_nat 10)))
                    (list_ascii_of_string t) = true ->
            grepMatch (f, d, t)).
  { intros f d t Hf Hne Hd Hr Ht. rewrite forallb_forall in Hf, Ht.
    repeat split; try assumption.
    - intros Hin. specialize (Hf _ Hin). discriminate Hf.
    - intros Hin. specialize (Hf _ Hin). discriminate Hf.
    - intros Hin. specialize (Ht _ Hin). discriminate Ht. }
  apply List.Forall_cons; [| apply List.Forall_cons; [| apply List.Forall_nil]];
    apply H; try reflexivity; discriminate.
Qed.

Lemma parseGrepOutput_matches_witness :
  parseGrepOutput
    (unlines (map (fun m => grepLine (fst (fst m)) (snd (fst m)) (snd m))
                  [("src/main.go", "12", "  fmt.Println(x) // a:b ");
                   ("README.md", "007", "seven")]))
  = map (fun m => mkSearchResult (fst (fst m)) (decimal (snd (fst m))) 1
                                 (TrimSpace (snd m)))
        [("src/main.go", "12", "  fmt.Println(x) // a:b "); ("README.md", "007", "seven")].
Proof. exact (parseGrepOutput_matches _ grepMatch_examples). Defined.

(** ** GetFileTree and SearchFiles *)

Lemma closes_snoc_log (evs : trace) (f : string) (a : list string) :
  closes (evs ++ [Log f a]) = closes evs.
Proof. unfold closes. rewrite List.filter_app. cbn. apply app_nil_r. Qed.

(** X21.  [GetFileTree] and [SearchFiles] close the stream of their exec
    once, as the last thing they do, exactly when the exec was created
    and attached; otherwise nothing is closed.  They return the tree
    built from, or the matches parsed from, the standard output exactly
    when creating, attaching and reading all succeed, and an error
    otherwise.  [SearchFiles] with an empty query returns no match
    without any call. *)
Theorem fs_exec_stream_closed (env : Env) (copied : string * string * option error)
        (containerID query : string) (tr : trace) :
  let opened :=
    snd (ExecCreateRes env containerID) = None
    /\ ExecAttachErr env (fst (ExecCreateRes env containerID)) = None in
  let ok := opened /\ snd copied = None in
  let tree := GetFileTree env copied containerID tr in
  let found := SearchFiles env copied containerID query tr in
  (exists evs,
      snd tree = tr ++ ContainerExecCreate containerID findExec :: evs
      /\ (opened -> exists pre, evs = pre ++ [HijackClose] /\ closes pre = [])
      /\ (~ opened -> closes evs = [])
      /\ (ok -> fst tree = inl (buildTree (fst (fst copied))))
      /\ (~ ok -> exists e, fst tree = inr e))
  /\ (query = "" -> found = (inl [], tr))
  /\ (query <> "" ->
      exists evs,
        snd found = tr ++ ContainerExecCreate containerID (searchExec query) :: evs
        /\ (opened -> exists pre, evs = pre ++ [HijackClose] /\ closes pre = [])
        /\ (~ opened -> closes evs = [])
        /\ (ok -> fst found = inl (parseGrepOutput (fst (fst copied))))
        /\ (~ ok -> exists e, fst found = inr e)).
Proof.
  cbv zeta. destruct copied as [[stdout stderr] copyErr]. cbn [fst snd].
  assert (Hrun : forall (A : Type) (o : ExecOptions) (what : string) (parse : string -> A),
    let run :=
      (r <- cli_ContainerExecCreate env containerID o ;;
       let (execID, err) := r in
       match err with
       | Some e => ret (inr (wrapError "exec create: " e))
       | None =>
           attachErr <- cli_ContainerExecAttach env execID ;;
           match attachErr with
           | Some e => ret (inr (wrapError "exec attach: " e))
           | None =>
               deferred hijack_Close
                 (match copyErr with
                  | Some e => ret (inr (wrapError "read exec output: " e))
                  | None =>
                      (if (0 <? Z.of_nat (String.length stderr))
                       then log_Printf what [stderr]
                       else ret tt) ;;;
                      ret (inl (parse stdout))
                  end)
           end
       end) tr in
    exists evs,
      snd run = tr ++ ContainerExecCreate containerID o :: evs
      /\ (snd (ExecCreateRes env containerID) = None
          /\ ExecAttachErr env (fst (ExecCreateRes env containerID)) = None ->
          exists pre, evs = pre ++ [HijackClose] /\ closes pre = [])
      /\ (~ (snd (ExecCreateRes env containerID) = None
             /\ ExecAttachErr env (fst (ExecCreateRes env containerID)) = None) ->
          closes evs = [])
      /\ ((snd (ExecCreateRes env containerID) = None
           /\ ExecAttachErr env (fst (ExecCreateRes env containerID)) = None)
          /\ copyErr = None -> fst run = inl (parse stdout))
      /\ (~ ((snd (ExecCreateRes env containerID) = None
              /\ ExecAttachErr env (fst (ExecCreateRes env containerID)) = None)
             /\ copyErr = None) -> exists e, fst run = inr e)).
  { intros A o what parse. cbv zeta.
    cbv [bind cli_ContainerExecCreate cli_ContainerExecAttach ask deferred hijack_Close
         call ret log_Printf].
    destruct (ExecCreateRes env containerID) as [execID [e |]]; cbn [fst snd].
    { exists []. split; [reflexivity |].
      split; [intros [H _]; discriminate H |]. split; [reflexivity |].
      split; [intros [[H _] _]; discriminate H |]. intros _. now eexists. }
    destruct (ExecAttachErr env execID) as [e |]; cbn [fst snd].
    { exists [ContainerExecAttach execID]. rewrite <- app_assoc.
      split; [reflexivity |].
      split; [intros [_ H]; discriminate H |]. split; [reflexivity |].
      split; [intros [[_ H] _]; discriminate H |]. intros _. now eexists. }
    destruct copyErr as [e |]; cbn [fst snd].
    { exists [ContainerExecAttach execID; HijackClose]. rewrite <- !app_assoc.
      split; [reflexivity |].
      split; [intros _; now exists [ContainerExecAttach execID] |].
      split; [intros H; exfalso; apply H; now split |].
      split; [intros [_ H]; discriminate H |]. intros _. now eexists. }
    destruct (0 <? Z.of_nat (String.length stderr)); cbn [fst snd].
    - exists [ContainerExecAttach execID; Log what [stderr]; HijackClose].
      rewrite <- !app_assoc. split; [reflexivity |].
      split; [intros _; now exists [ContainerExecAttach execID; Log what [stderr]] |].
      split; [intros H; exfalso; apply H; now split |].
      split; [reflexivity |]. intros H. exfalso. apply H. now repeat split.
    - exists [ContainerExecAttach execID; HijackClose].
      rewrite <- !app_assoc. split; [reflexivity |].
      split; [intros _; now exists [ContainerExecAttach execID] |].
      split; [intros H; exfalso; apply H; now split |].
      split; [reflexivity |]. intros H. exfalso. apply H. now repeat split. }
  split; [exact (Hrun _ findExec "[FileTree] stderr: %s" buildTree) |].
  split.
  - intros ->. reflexivity.
  - intros Hq. apply String.eqb_neq in Hq. unfold SearchFiles. rewrite Hq.
    exact (Hrun _ (searchExec query) "[Search] stderr: %s" parseGrepOutput).
Qed.
